(** * Path-finding simulator: the search engine of [PathfindingVisualizer]

    A shallow embedding of [src/project.py]: the grid model
    ([create_maze], [get_neighbors], [manhattan_distance]) and the
    best-first search [find_path] with its three priority strategies
    (A*, Dijkstra, greedy best-first), followed by the properties the
    specification states about them.

    Python integers are [Z]; a cell is a pair [(row, col)]; the dictionaries
    [came_from] and [cost_so_far] are [gmap]s, the set [visited] a [gset];
    [queue.PriorityQueue] is a library class and is taken through its
    contract (class [PriorityQueue] below), with two list implementations.
    Methods run in a state-and-exception monad over the object [self]. *)

From Stdlib Require Import ZArith Lia.
From stdpp Require Import base list gmap strings.

Local Open Scope Z_scope.

(** ** Outcomes and the method monad *)

Inductive error : Type :=
| IndexError   (* list index out of range *)
| KeyError     (* missing dictionary key *)
| Blocked      (* [PriorityQueue.get] on an empty queue *)
| OutOfFuel.   (* the iteration budget of the model ran out *)

Inductive result (A : Type) : Type :=
| Ok (a : A)
| Err (e : error).
Arguments Ok {A} a.
Arguments Err {A} e.

Abbreviation cell := (Z * Z)%type.

(** The fields of the visualizer object that the engine and its callers
    read or write. *)
Record visualizer : Type := Visualizer {
  rows : Z;
  cols : Z;
  grid : list (list Z);      (* 0 = empty, 1 = wall, 2 = start, 3 = end *)
  start : cell;
  end_ : cell;
  explored_nodes : list cell;
  path : list cell;
  animation_step : Z
}.

Definition M (A : Type) : Type := visualizer -> result (A * visualizer).

Definition mret {A} (a : A) : M A := fun self => Ok (a, self).

Definition mbind {A B} (m : M A) (k : A -> M B) : M B :=
  fun self =>
    match m self with
    | Ok (a, self') => k a self'
    | Err e => Err e
    end.

Definition raise {A} (e : error) : M A := fun _ => Err e.

Definition gets {A} (f : visualizer -> A) : M A := fun self => Ok (f self, self).

Definition modify (f : visualizer -> visualizer) : M unit :=
  fun self => Ok (tt, f self).

Notation "'do' x <- m ; k" := (mbind m (fun x => k))
  (at level 10, x name, m at level 100, k at level 200).
Notation "'run' m ; k" := (mbind m (fun _ => k))
  (at level 10, m at level 100, k at level 200).

(** [for x in l: acc = body(acc, x)] *)
Fixpoint for_each {A S} (l : list A) (body : S -> A -> M S) (s : S) : M S :=
  match l with
  | [] => mret s
  | x :: l' => do s' <- body s x; for_each l' body s'
  end.

(** ** Python lists *)

(** [l[i]]: an index in [-len, len) is accepted, negative ones count
    from the end; anything else raises [IndexError]. *)
Definition py_index {A} (l : list A) (i : Z) : option A :=
  let n := Z.of_nat (length l) in
  if decide (0 <= i) then l !! Z.to_nat i
  else if decide (- n <= i) then l !! Z.to_nat (n + i)
  else None.

(** [l[i] = x] *)
Definition py_store {A} (l : list A) (i : Z) (x : A) : option (list A) :=
  let n := Z.of_nat (length l) in
  if decide (0 <= i < n) then Some (<[Z.to_nat i := x]> l)
  else if decide (- n <= i < 0) then Some (<[Z.to_nat (n + i) := x]> l)
  else None.

(** [range(a, b)] *)
Definition py_range (a b : Z) : list Z := seqZ a (b - a).

(** [self.grid[r][c]] *)
Definition grid_at (r c : Z) : M Z :=
  fun self =>
    match py_index (grid self) r with
    | None => Err IndexError
    | Some line =>
        match py_index line c with
        | None => Err IndexError
        | Some v => Ok (v, self)
        end
    end.

(** [self.grid[r][c] = v] *)
Definition grid_store (r c v : Z) : M unit :=
  fun self =>
    match py_index (grid self) r with
    | None => Err IndexError
    | Some line =>
        match py_store line c v with
        | None => Err IndexError
        | Some line' =>
            match py_store (grid self) r line' with
            | None => Err IndexError
            | Some g' =>
                Ok (tt, Visualizer (rows self) (cols self) g' (start self)
                          (end_ self) (explored_nodes self) (path self)
                          (animation_step self))
            end
        end
    end.

(** ** The grid model *)

(** [create_maze] *)
Definition create_maze : M unit :=
  run modify (fun self =>
    Visualizer (rows self) (cols self)
      (replicate (Z.to_nat (rows self)) (replicate (Z.to_nat (cols self)) 0))
      (start self) (end_ self) (explored_nodes self) (path self)
      (animation_step self));
  do nc <- gets cols;
  (* horizontal walls *)
  run for_each (py_range 2 (nc - 2)) (fun _ i =>
    run grid_store 2 i 1; run grid_store 3 i 1;
    run grid_store 8 i 1; grid_store 12 i 1) tt;
  do nr <- gets rows;
  (* vertical walls *)
  run for_each (py_range 2 (nr - 2)) (fun _ i =>
    run grid_store i 5 1; run grid_store i 10 1; grid_store i 15 1) tt;
  (* additional obstacles *)
  run for_each (py_range 3 7) (fun _ i =>
    run grid_store 6 i 1; grid_store 10 (i + 8) 1) tt;
  do s <- gets start;
  run grid_store s.1 s.2 2;
  do e <- gets end_;
  grid_store e.1 e.2 3.

(** The object as [__init__] leaves it, before [create_maze] runs. *)
Definition init_fields : visualizer :=
  Visualizer 15 20 (replicate 15 (replicate 20 0)) (1, 1) (15 - 2, 20 - 2) [] [] 0.

(** [get_neighbors]: the body of its loop over the four directions, then
    the method. *)
Definition probe (row col : Z) (neighbors : list cell) (d : Z * Z)
    : M (list cell) :=
  let '(dr, dc) := d in
  let new_row := row + dr in
  let new_col := col + dc in
  do nr <- gets rows;
  do nc <- gets cols;
  if decide (0 <= new_row < nr /\ 0 <= new_col < nc) then
    do v <- grid_at new_row new_col;
    if decide (v <> 1) then mret (neighbors ++ [(new_row, new_col)])
    else mret neighbors
  else mret neighbors.

Definition get_neighbors (row col : Z) : M (list cell) :=
  for_each [(0, 1); (1, 0); (0, -1); (-1, 0)] (probe row col) [].

(** [manhattan_distance] *)
Definition manhattan_distance (a b : cell) : Z :=
  Z.abs (b.1 - a.1) + Z.abs (b.2 - a.2).


(** ** The priority queue

    An entry is the tuple [(priority, node, g_cost)]; Python compares tuples
    lexicographically, the node being itself a pair of integers. *)

Abbreviation entry := (Z * (Z * Z) * Z)%type.

Definition entry_le (x y : entry) : Prop :=
  x.1.1 < y.1.1 \/
  (x.1.1 = y.1.1 /\
   (x.1.2.1 < y.1.2.1 \/
    (x.1.2.1 = y.1.2.1 /\
     (x.1.2.2 < y.1.2.2 \/
      (x.1.2.2 = y.1.2.2 /\ x.2 <= y.2))))).

Definition entry_leb (x y : entry) : bool := bool_decide (entry_le x y).

(** The contract of [queue.PriorityQueue] as [find_path] uses it: a bag of
    entries, [get] removes a smallest one. [pq_items] is the bag, up to
    permutation; it plays no part in the computation. *)
Class PriorityQueue : Type := {
  pq : Type;
  pq_new : pq;
  pq_put : entry -> pq -> pq;
  pq_empty : pq -> bool;
  pq_get : pq -> option (entry * pq);
  pq_items : pq -> list entry;
  pq_new_items : pq_items pq_new = [];
  pq_put_items : forall e q, pq_items (pq_put e q) ≡ₚ e :: pq_items q;
  pq_empty_items : forall q, pq_empty q = true <-> pq_items q = [];
  pq_get_none : forall q, pq_get q = None <-> pq_items q = [];
  pq_get_some : forall q e q', pq_get q = Some (e, q') ->
    pq_items q ≡ₚ e :: pq_items q' /\ Forall (entry_le e) (pq_items q')
}.

(** Removing a smallest entry from a list of entries in any order. *)
Fixpoint extract_min (q : list entry) : option (entry * list entry) :=
  match q with
  | [] => None
  | x :: q' =>
      match extract_min q' with
      | None => Some (x, [])
      | Some (m, r) =>
          if entry_leb x m then Some (x, q') else Some (m, x :: r)
      end
  end.

Fixpoint insert_sorted (e : entry) (q : list entry) : list entry :=
  match q with
  | [] => [e]
  | x :: q' => if entry_leb e x then e :: q else x :: insert_sorted e q'
  end.

(** ** The search engine *)

Section Engine.
Context `{PQ : PriorityQueue}.

Record search_state : Type := SearchState {
  explored : list cell;
  frontier : pq;
  came_from : gmap cell (option cell);
  cost_so_far : gmap cell Z;
  visited : gset cell
}.

Inductive control : Type :=
| Continue (st : search_state)
| Break (st : search_state).

(** The priority the queue is seeded with (lines 109-114). *)
Definition initial_priority (algorithm : string) (start end_ : cell) : Z :=
  if decide (algorithm = "astar") then 0
  else if decide (algorithm = "dijkstra") then 0
  else manhattan_distance start end_.

(** The priority of a relaxed neighbour (lines 146-151). *)
Definition priority_of (algorithm : string) (new_cost h_cost : Z) : Z :=
  if decide (algorithm = "astar") then new_cost + h_cost
  else if decide (algorithm = "dijkstra") then new_cost
  else h_cost.

(** The body of the loop over the neighbours of [current] (lines 135-154). *)
Definition relax (algorithm : string) (end_ current : cell)
    (st : search_state) (next_pos : cell) : M search_state :=
  do v <- grid_at next_pos.1 next_pos.2;
  if decide (v = 1) then mret st
  else
    match cost_so_far st !! current with
    | None => raise KeyError
    | Some c =>
        let new_cost := c + 1 in
        if match cost_so_far st !! next_pos with
           | None => true
           | Some old => bool_decide (new_cost < old)
           end
        then
          let cost_so_far' := <[next_pos := new_cost]> (cost_so_far st) in
          let h_cost := manhattan_distance next_pos end_ in
          let priority := priority_of algorithm new_cost h_cost in
          let frontier' := pq_put (priority, next_pos, new_cost) (frontier st) in
          let came_from' := <[next_pos := Some current]> (came_from st) in
          mret (SearchState (explored st) frontier' came_from' cost_so_far'
                  (visited st))
        else mret st
    end.

(** One turn of [while not frontier.empty()], after the emptiness test. *)
Definition search_iter (algorithm : string) (end_ : cell)
    (st : search_state) : M control :=
  match pq_get (frontier st) with
  | None => raise Blocked
  | Some ((_, current, current_g), frontier') =>
      if decide (current ∈ visited st) then
        mret (Continue (SearchState (explored st) frontier' (came_from st)
                          (cost_so_far st) (visited st)))
      else
        let visited' := {[current]} ∪ visited st in
        do v <- grid_at current.1 current.2;
        if decide (v = 1) then
          mret (Continue (SearchState (explored st) frontier' (came_from st)
                            (cost_so_far st) visited'))
        else
          let explored' := explored st ++ [current] in
          let st' := SearchState explored' frontier' (came_from st)
                       (cost_so_far st) visited' in
          if decide (current = end_) then mret (Break st')
          else
            do neighbors <- get_neighbors current.1 current.2;
            do st'' <- for_each neighbors (relax algorithm end_ current) st';
            mret (Continue st'')
  end.

Fixpoint search_loop (fuel : nat) (algorithm : string) (end_ : cell)
    (st : search_state) : M search_state :=
  match fuel with
  | O => raise OutOfFuel
  | S fuel' =>
      if pq_empty (frontier st) then mret st
      else
        do c <- search_iter algorithm end_ st;
        match c with
        | Continue st' => search_loop fuel' algorithm end_ st'
        | Break st' => mret st'
        end
  end.

(** [while current is not None: path.append(current);
     current = came_from.get(current)] *)
Fixpoint reconstruct (fuel : nat) (came_from : gmap cell (option cell))
    (current : option cell) (path : list cell) : M (list cell) :=
  match current with
  | None => mret path
  | Some c =>
      match fuel with
      | O => raise OutOfFuel
      | S fuel' =>
          reconstruct fuel' came_from (default None (came_from !! c))
            (path ++ [c])
      end
  end.

(** [any(self.grid[r][c] == 1 for r, c in path)] *)
Fixpoint any_wall (path : list cell) : M bool :=
  match path with
  | [] => mret false
  | (r, c) :: path' =>
      do v <- grid_at r c;
      if decide (v = 1) then mret true else any_wall path'
  end.

(** [find_path], with the number of turns either loop may take bounded by
    [fuel]. *)
Definition find_path_fuel (fuel : nat) (algorithm : string)
    : M (option (list cell) * list cell) :=
  do start <- gets start;
  do end_ <- gets end_;
  let frontier := pq_put (initial_priority algorithm start end_, start, 0) pq_new in
  let st0 := SearchState [] frontier {[start := None]} {[start := 0]} ∅ in
  do st <- search_loop fuel algorithm end_ st0;
  do path <- reconstruct fuel (came_from st) (Some end_) [];
  let path := reverse path in
  match path with
  | first :: _ =>
      if decide (first = start) then
        do w <- any_wall path;
        if w then mret (None, explored st)
        else mret (Some path, explored st)
      else mret (None, explored st)
  | [] => mret (None, explored st)
  end.

(** A budget that is never exhausted on a well-formed grid (see
    [find_path_fuel_enough]). *)
Definition search_fuel (self : visualizer) : nat :=
  Z.to_nat (4 * (rows self * cols self) + 2).

Definition find_path (algorithm : string)
    : M (option (list cell) * list cell) :=
  fun self => find_path_fuel (search_fuel self) algorithm self.

End Engine.

(** ** Two priority queues over lists *)

Lemma entry_le_refl (x : entry) : entry_le x x.
Proof. unfold entry_le. lia. Qed.

Lemma entry_le_trans (x y z : entry) : entry_le x y -> entry_le y z -> entry_le x z.
Proof. unfold entry_le. lia. Qed.

Lemma entry_le_total (x y : entry) : entry_le x y \/ entry_le y x.
Proof. unfold entry_le. lia. Qed.

Lemma entry_le_antisym (x y : entry) : entry_le x y -> entry_le y x -> x = y.
Proof.
  destruct x as [[p1 [r1 c1]] g1], y as [[p2 [r2 c2]] g2].
  unfold entry_le; simpl. intros H1 H2.
  assert (p1 = p2 /\ r1 = r2 /\ c1 = c2 /\ g1 = g2) as (-> & -> & -> & ->) by lia.
  reflexivity.
Qed.

Lemma entry_le_priority (x y : entry) : entry_le x y -> x.1.1 <= y.1.1.
Proof. unfold entry_le. lia. Qed.

Lemma extract_min_none (q : list entry) : extract_min q = None <-> q = [].
Proof.
  destruct q as [|x q]; simpl; [done|].
  destruct (extract_min q) as [[m r]|]; [destruct (entry_leb x m)|]; done.
Qed.

Lemma extract_min_some (q : list entry) (e : entry) (q' : list entry) :
  extract_min q = Some (e, q') -> q ≡ₚ e :: q' /\ Forall (entry_le e) q'.
Proof.
  revert e q'. induction q as [|x q IH]; intros e q'; simpl; [done|].
  destruct (extract_min q) as [[m r]|] eqn:Hq.
  - destruct (IH m r eq_refl) as [Hperm Hmin].
    unfold entry_leb. case_bool_decide as Hle; intros [= <- <-].
    + split; [done|]. rewrite Hperm. constructor; [done|].
      eapply Forall_impl; [exact Hmin|]. intros z Hz. by eapply entry_le_trans.
    + split.
      * rewrite Hperm. apply Permutation_swap.
      * constructor; [|done]. destruct (entry_le_total x m); done.
  - apply extract_min_none in Hq as ->. intros [= <- <-]. by split.
Qed.

Lemma insert_sorted_perm (e : entry) (q : list entry) :
  insert_sorted e q ≡ₚ e :: q.
Proof.
  induction q as [|x q IH]; simpl; [done|].
  destruct (entry_leb e x); [done|]. rewrite IH. apply Permutation_swap.
Qed.

(** Entries kept in arrival order. *)
Definition stack_pq : PriorityQueue.
Proof.
  refine {|
    pq := list entry;
    pq_new := [];
    pq_put e q := e :: q;
    pq_empty q := match q with [] => true | _ => false end;
    pq_get := extract_min;
    pq_items q := q
  |}.
  - done.
  - done.
  - intros [|x q]; done.
  - apply extract_min_none.
  - apply extract_min_some.
Defined.

(** Entries kept in ascending order. *)
Definition sorted_pq : PriorityQueue.
Proof.
  refine {|
    pq := list entry;
    pq_new := [];
    pq_put := insert_sorted;
    pq_empty q := match q with [] => true | _ => false end;
    pq_get := extract_min;
    pq_items q := q
  |}.
  - done.
  - apply insert_sorted_perm.
  - intros [|x q]; done.
  - apply extract_min_none.
  - apply extract_min_some.
Defined.

(** The two queues lay the same entries out differently, and hand them
    back in the same order. *)
Example queues_differ :
  pq_put (PriorityQueue := stack_pq) (3, (0, 0), 1) (pq_put (1, (0, 1), 1) pq_new)
    = [(3, (0, 0), 1); (1, (0, 1), 1)] /\
  pq_put (PriorityQueue := sorted_pq) (3, (0, 0), 1) (pq_put (1, (0, 1), 1) pq_new)
    = [(1, (0, 1), 1); (3, (0, 0), 1)].
Proof. split; reflexivity. Qed.

Example extract_min_ties :
  extract_min [(2, (1, 0), 5); (2, (0, 7), 9); (2, (0, 7), 3)]
    = Some ((2, (0, 7), 3), [(2, (1, 0), 5); (2, (0, 7), 9)]).
Proof. reflexivity. Qed.

(** ** Grids, cells and walks *)

Definition in_bounds (self : visualizer) (c : cell) : Prop :=
  0 <= c.1 < rows self /\ 0 <= c.2 < cols self.

(** The value the grid holds at a cell, when the two index operations
    succeed. *)
Definition cell_value (self : visualizer) (c : cell) : option Z :=
  match py_index (grid self) c.1 with
  | Some line => py_index line c.2
  | None => None
  end.

Definition is_wall (self : visualizer) (c : cell) : Prop :=
  cell_value self c = Some 1.

(** A cell a walk may stand on: inside the grid and not a wall. *)
Definition passable (self : visualizer) (c : cell) : Prop :=
  in_bounds self c /\ ~ is_wall self c.

#[export] Instance in_bounds_dec self c : Decision (in_bounds self c).
Proof. unfold in_bounds. apply _. Defined.

#[export] Instance is_wall_dec self c : Decision (is_wall self c).
Proof. unfold is_wall. apply _. Defined.

#[export] Instance passable_dec self c : Decision (passable self c).
Proof. unfold passable. apply _. Defined.

(** The grid has [rows] lines of [cols] cells each. *)
Definition grid_shape (self : visualizer) : Prop :=
  Z.of_nat (length (grid self)) = rows self /\
  Forall (fun line => Z.of_nat (length line) = cols self) (grid self).

(** A grid the engine is meant for: rectangular, with [start] and [end]
    among its cells. *)
Definition well_formed (self : visualizer) : Prop :=
  grid_shape self /\ in_bounds self (start self) /\ in_bounds self (end_ self).

#[export] Instance grid_shape_dec self : Decision (grid_shape self).
Proof. unfold grid_shape. apply _. Defined.

#[export] Instance well_formed_dec self : Decision (well_formed self).
Proof. unfold well_formed. apply _. Defined.

Definition adjacent4 (a b : cell) : Prop :=
  Z.abs (a.1 - b.1) + Z.abs (a.2 - b.2) = 1.

(** What the specification says [neighbors] returns: the east, south,
    west and north cells, in this order, those outside the grid or
    holding a wall left out. *)
Definition neighbors (self : visualizer) (c : cell) : list cell :=
  filter (passable self)
    [(c.1, c.2 + 1); (c.1 + 1, c.2); (c.1, c.2 - 1); (c.1 - 1, c.2)].

(** A sequence of cells that moves only between 4-adjacent, in-bounds,
    non-wall cells. *)
Definition is_walk (self : visualizer) (l : list cell) : Prop :=
  l <> [] /\
  (forall c, c ∈ l -> passable self c) /\
  (forall (i : nat) a b, l !! i = Some a -> l !! S i = Some b -> adjacent4 a b).

(** A walk from [a] to [b]. *)
Definition connects (self : visualizer) (a b : cell) (l : list cell) : Prop :=
  is_walk self l /\ head l = Some a /\ last l = Some b.

Definition reachable (self : visualizer) (a b : cell) : Prop :=
  exists l, connects self a b l.

(** The number of edges of a path given as its list of cells. *)
Definition edges (l : list cell) : nat := (length l - 1)%nat.

(** ** Reading the grid *)

Lemma py_index_in_range {A} (l : list A) (i : Z) :
  0 <= i < Z.of_nat (length l) -> exists x, py_index l i = Some x.
Proof.
  intros Hi. unfold py_index. rewrite decide_True by lia.
  apply lookup_lt_is_Some_2. lia.
Qed.

Lemma cell_value_in_bounds self c :
  grid_shape self -> in_bounds self c -> exists v, cell_value self c = Some v.
Proof.
  intros [Hlen Hall] [Hr Hc]. unfold cell_value.
  destruct (py_index_in_range (grid self) c.1) as [line Hline]; [lia|].
  rewrite Hline.
  apply py_index_in_range.
  assert (line ∈ grid self) as Hin.
  { unfold py_index in Hline. rewrite decide_True in Hline by lia.
    by eapply list_elem_of_lookup_2. }
  rewrite Forall_forall in Hall. rewrite (Hall _ Hin). lia.
Qed.

Lemma grid_at_value r c self v self' :
  grid_at r c self = Ok (v, self') ->
  self' = self /\ cell_value self (r, c) = Some v.
Proof.
  unfold grid_at, cell_value; simpl.
  destruct (py_index (grid self) r) as [line|]; [|done].
  destruct (py_index line c) as [v'|]; [|done].
  by intros [= -> ->].
Qed.

Lemma grid_at_ok self r c v :
  cell_value self (r, c) = Some v -> grid_at r c self = Ok (v, self).
Proof.
  unfold grid_at, cell_value; simpl.
  destruct (py_index (grid self) r) as [line|]; [|done].
  by intros ->.
Qed.

Lemma passable_value self c :
  grid_shape self -> passable self c ->
  exists v, cell_value self c = Some v /\ v <> 1.
Proof.
  intros Hs [Hb Hw]. destruct (cell_value_in_bounds self c Hs Hb) as [v Hv].
  exists v. split; [done|]. intros ->. by apply Hw.
Qed.

Lemma elem_of_neighbors self (a b : cell) :
  b ∈ neighbors self a <-> adjacent4 a b /\ passable self b.
Proof.
  unfold neighbors. rewrite list_elem_of_filter, !elem_of_cons, elem_of_nil.
  unfold adjacent4. destruct a as [r c], b as [r' c']; simpl.
  split.
  - intros [Hp [[= -> ->]|[[= -> ->]|[[= -> ->]|[[= -> ->]|[]]]]]]; split; (done || lia).
  - intros [Hadj Hp]. split; [done|].
    assert ((r' = r /\ c' = c + 1) \/ (r' = r + 1 /\ c' = c) \/
            (r' = r /\ c' = c - 1) \/ (r' = r - 1 /\ c' = c))
      as [[-> ->]|[[-> ->]|[[-> ->]|[-> ->]]]] by lia; auto.
Qed.

Lemma neighbors_length self c : (length (neighbors self c) <= 4)%nat.
Proof. unfold neighbors. etrans; [apply length_filter|]. done. Qed.

(** The source function agrees with the specification's [neighbors] on a
    rectangular grid, and reads the object without writing it. *)
Lemma get_neighbors_ok self r c :
  grid_shape self -> get_neighbors r c self = Ok (neighbors self (r, c), self).
Proof.
  intros Hs. unfold get_neighbors, neighbors. simpl fst. simpl snd.
  assert (forall (acc : list cell) (dr dc : Z),
    probe r c acc (dr, dc) self
    = Ok (acc ++ filter (passable self) [(r + dr, c + dc)], self)) as Hstep.
  { intros acc dr dc. unfold probe, mbind, gets, mret; simpl.
    rewrite !filter_cons, filter_nil.
    destruct (decide (0 <= r + dr < rows self /\ 0 <= c + dc < cols self)) as [Hb|Hb].
    - destruct (cell_value_in_bounds self (r + dr, c + dc) Hs Hb) as [v Hv].
      rewrite (grid_at_ok self (r + dr) (c + dc) v Hv).
      destruct (decide (v <> 1)) as [Hv1|Hv1].
      + rewrite decide_True; [done|]. split; [done|].
        unfold is_wall. rewrite Hv. congruence.
      + rewrite decide_False; [by rewrite app_nil_r|].
        intros [_ Hw]. apply Hw. unfold is_wall. rewrite Hv. f_equal. lia.
    - rewrite decide_False; [by rewrite app_nil_r|]. by intros [? _]. }
  unfold for_each, mbind.
  rewrite (Hstep [] 0 1). rewrite (Hstep _ 1 0). rewrite (Hstep _ 0 (-1)).
  rewrite (Hstep _ (-1) 0). unfold mret. do 2 f_equal.
  rewrite !filter_cons, filter_nil.
  replace (r + 0) with r by lia. replace (c + 0) with c by lia.
  replace (c + -1) with (c - 1) by lia. replace (r + -1) with (r - 1) by lia.
  repeat case_decide; done.
Qed.

(** ** Methods that only read the object *)

Definition read_only {A} (m : M A) : Prop :=
  forall self a self', m self = Ok (a, self') -> self' = self.

Lemma read_only_mret {A} (a : A) : read_only (mret a).
Proof. intros self a' self'. unfold mret. congruence. Qed.

Lemma read_only_gets {A} (f : visualizer -> A) : read_only (gets f).
Proof. intros self a' self'. unfold gets. congruence. Qed.

Lemma read_only_raise {A} (e : error) : read_only (@raise A e).
Proof. intros self a' self'. unfold raise. congruence. Qed.

Lemma read_only_mbind {A B} (m : M A) (k : A -> M B) :
  read_only m -> (forall a, read_only (k a)) -> read_only (mbind m k).
Proof.
  intros Hm Hk self b self'. unfold mbind.
  destruct (m self) as [[a self1]|e] eqn:Hrun; [|done].
  apply Hm in Hrun as ->. apply Hk.
Qed.

Lemma read_only_grid_at r c : read_only (grid_at r c).
Proof. intros self v self' H. by apply grid_at_value in H as [-> _]. Qed.

Lemma read_only_for_each {A S} (l : list A) (body : S -> A -> M S) (s : S) :
  (forall s x, read_only (body s x)) -> read_only (for_each l body s).
Proof.
  intros Hbody. revert s. induction l as [|x l IH]; intros s; simpl.
  - apply read_only_mret.
  - apply read_only_mbind; [apply Hbody | apply IH].
Qed.

Create HintDb read_only.
#[export] Hint Resolve read_only_mret read_only_gets read_only_raise
  read_only_grid_at : read_only.

Ltac read_only_step :=
  match goal with
  | |- read_only (mbind _ _) => apply read_only_mbind; [|intros ?]
  | |- read_only (for_each _ _ _) => apply read_only_for_each; intros ? ?
  | |- read_only (if ?b then _ else _) => destruct b
  | |- read_only (match ?x with _ => _ end) => destruct x
  | |- read_only _ => solve [auto with read_only]
  end.

Lemma read_only_get_neighbors r c : read_only (get_neighbors r c).
Proof.
  unfold get_neighbors. apply read_only_for_each. intros acc [dr dc].
  unfold probe. repeat read_only_step.
Qed.
#[export] Hint Resolve read_only_get_neighbors : read_only.

Section ReadOnly.
Context `{PQ : PriorityQueue}.

Lemma read_only_relax alg t u st v : read_only (relax alg t u st v).
Proof. unfold relax. repeat read_only_step. Qed.

Lemma read_only_search_iter alg t st : read_only (search_iter alg t st).
Proof.
  unfold search_iter.
  destruct (pq_get (frontier st)) as [[[[p u] g] q]|]; [|auto with read_only].
  repeat first [ apply read_only_relax | read_only_step ].
Qed.

Lemma read_only_search_loop fuel alg t st : read_only (search_loop fuel alg t st).
Proof.
  revert st. induction fuel as [|fuel IH]; intros st; simpl.
  - auto with read_only.
  - destruct (pq_empty (frontier st)); [auto with read_only|].
    apply read_only_mbind; [apply read_only_search_iter|].
    intros [st'|st']; [apply IH | auto with read_only].
Qed.

Lemma read_only_reconstruct fuel cf cur acc : read_only (reconstruct fuel cf cur acc).
Proof.
  revert cur acc. induction fuel as [|fuel IH]; intros [c|] acc; simpl;
    auto with read_only.
Qed.

Lemma read_only_any_wall l : read_only (any_wall l).
Proof.
  induction l as [|[r c] l IH]; simpl; [auto with read_only|].
  apply read_only_mbind; [auto with read_only|].
  intros v. destruct (decide (v = 1)); auto with read_only.
Qed.

Lemma read_only_find_path_fuel fuel alg : read_only (find_path_fuel fuel alg).
Proof.
  unfold find_path_fuel.
  repeat first [ apply read_only_search_loop | apply read_only_reconstruct
               | apply read_only_any_wall | read_only_step ].
Qed.

End ReadOnly.

(** ** The search loop: invariants *)

Section Queue.
Context `{PQ : PriorityQueue}.

Lemma items_put (x e : entry) (q : pq) :
  x ∈ pq_items (pq_put e q) <-> x = e \/ x ∈ pq_items q.
Proof. rewrite pq_put_items. apply elem_of_cons. Qed.

Lemma items_put_length (e : entry) (q : pq) :
  length (pq_items (pq_put e q)) = S (length (pq_items q)).
Proof. by rewrite pq_put_items. Qed.

Lemma items_get (q : pq) (e : entry) (q' : pq) :
  pq_get q = Some (e, q') ->
  (forall x, x ∈ pq_items q <-> x = e \/ x ∈ pq_items q') /\
  (forall x, x ∈ pq_items q -> entry_le e x) /\
  length (pq_items q) = S (length (pq_items q')).
Proof.
  intros Hget. apply pq_get_some in Hget as [Hperm Hmin].
  split; [|split].
  - intros x. rewrite Hperm. apply elem_of_cons.
  - intros x. rewrite Hperm, elem_of_cons. intros [->|Hx].
    + apply entry_le_refl.
    + rewrite Forall_forall in Hmin. by apply Hmin.
  - by rewrite Hperm.
Qed.

Lemma pq_get_is_Some (q : pq) :
  pq_items q <> [] -> exists e q', pq_get q = Some (e, q').
Proof.
  intros Hne. destruct (pq_get q) as [[e q']|] eqn:Hget; [eauto|].
  by apply pq_get_none in Hget.
Qed.

Lemma pq_empty_false (q : pq) : pq_items q <> [] -> pq_empty q = false.
Proof.
  intros Hne. destruct (pq_empty q) eqn:He; [|done].
  by apply pq_empty_items in He.
Qed.

End Queue.

Section Search.
Context `{PQ : PriorityQueue}.
Variable self : visualizer.
Variable alg : string.
Hypothesis Hshape : grid_shape self.
Hypothesis Hstart : passable self (start self).

Local Abbreviation s := (start self).
Local Abbreviation t := (end_ self).

(** The state [relax] leaves, as a function of the state it finds. *)
Definition improves (st : search_state) (u v : cell) : bool :=
  match cost_so_far st !! u with
  | None => false
  | Some cu =>
      match cost_so_far st !! v with
      | None => true
      | Some old => bool_decide (cu + 1 < old)
      end
  end.

Definition relaxed (st : search_state) (u v : cell) : search_state :=
  match cost_so_far st !! u with
  | Some cu =>
      if improves st u v then
        SearchState (explored st)
          (pq_put (priority_of alg (cu + 1) (manhattan_distance v t), v, cu + 1)
             (frontier st))
          (<[v := Some u]> (came_from st))
          (<[v := cu + 1]> (cost_so_far st))
          (visited st)
      else st
  | None => st
  end.

Lemma relax_eq st u v :
  passable self v -> is_Some (cost_so_far st !! u) ->
  relax alg t u st v self = Ok (relaxed st u v, self).
Proof.
  intros Hv [cu Hcu]. destruct (passable_value self v Hshape Hv) as (x & Hx & Hx1).
  unfold relax, relaxed, improves, mbind. destruct v as [r c]; simpl.
  rewrite (grid_at_ok self r c x Hx). rewrite decide_False by done.
  rewrite Hcu. by destruct (cost_so_far st !! (r, c)) as [old|]; [destruct (bool_decide _)|].
Qed.

(** What holds of the state whenever control is inside the loop. While the
    neighbours of [u] are being relaxed, [pend] is [Some u] and [todo] lists
    those still to come. *)
Record inv_common (pend : option cell) (todo : list cell) (st : search_state)
    : Prop := {
  ic_nodup : NoDup (explored st);
  ic_explored : forall c, c ∈ explored st ->
    c ∈ visited st /\ passable self c /\
    exists k, cost_so_far st !! c = Some k /\ k < Z.of_nat (length (explored st));
  ic_visited : forall c, c ∈ visited st -> c ∈ explored st;
  ic_frontier : forall p n g, (p, n, g) ∈ pq_items (frontier st) ->
    passable self n /\ is_Some (cost_so_far st !! n);
  ic_start : cost_so_far st !! s = Some 0 /\ came_from st !! s = Some None;
  ic_from : forall n p, came_from st !! n = Some (Some p) ->
    p ∈ explored st /\ n ∈ neighbors self p /\
    exists cn cp, cost_so_far st !! n = Some cn /\
                  cost_so_far st !! p = Some cp /\ cp < cn;
  ic_from_none : forall n, came_from st !! n = Some None -> n = s;
  ic_cost : forall n c, cost_so_far st !! n = Some c ->
    0 <= c <= Z.of_nat (length (explored st)) /\
    is_Some (came_from st !! n) /\ passable self n;
  ic_dom : forall n, is_Some (came_from st !! n) -> is_Some (cost_so_far st !! n);
  ic_expanded : forall u v, u ∈ explored st -> u <> t -> v ∈ neighbors self u ->
    is_Some (cost_so_far st !! v) \/ (pend = Some u /\ v ∈ todo);
  ic_queued : forall v, is_Some (cost_so_far st !! v) -> v ∉ visited st ->
    exists p g, (p, v, g) ∈ pq_items (frontier st);
  ic_pend : forall u, pend = Some u ->
    u ∈ explored st /\ u <> t /\ forall v, v ∈ todo -> v ∈ neighbors self u;
  ic_first :
    (explored st = [] /\ (s ∉ visited st) /\
     pq_items (frontier st) = [(initial_priority alg s t, s, 0)]) \/
    head (explored st) = Some s
}.

Lemma neighbors_ne u v : v ∈ neighbors self u -> v <> u.
Proof.
  rewrite elem_of_neighbors. unfold adjacent4. intros [Hadj _] ->. lia.
Qed.

Lemma relaxed_explored st u v : explored (relaxed st u v) = explored st.
Proof. unfold relaxed. by repeat case_match. Qed.

Lemma relaxed_visited st u v : visited (relaxed st u v) = visited st.
Proof. unfold relaxed. by repeat case_match. Qed.

Lemma relaxed_items_length st u v :
  (length (pq_items (frontier (relaxed st u v))) <=
   S (length (pq_items (frontier st))))%nat.
Proof.
  unfold relaxed. repeat case_match; simpl; try lia.
  rewrite items_put_length. lia.
Qed.

Lemma relaxed_inv_common st u v todo :
  inv_common (Some u) (v :: todo) st ->
  inv_common (Some u) todo (relaxed st u v).
Proof.
  intros I.
  destruct (ic_pend _ _ _ I u eq_refl) as (HuE & Hut & Htodo).
  destruct (ic_explored _ _ _ I u HuE) as (HuV & Hup & cu & Hcu & Hcu_lt).
  assert (v ∈ neighbors self u) as Hvu by (apply Htodo; left).
  assert (v <> u) as Hne by (by apply neighbors_ne).
  assert (passable self v) as Hvp by (by apply elem_of_neighbors in Hvu as [_ ?]).
  assert (0 <= cu) as Hcu0 by (by apply (ic_cost _ _ _ I) in Hcu as [[? ?] _]).
  unfold relaxed. rewrite Hcu.
  destruct (improves st u v) eqn:Himp.
  2:{ (* nothing changes *)
    assert (is_Some (cost_so_far st !! v)) as Hcv.
    { unfold improves in Himp. rewrite Hcu in Himp.
      destruct (cost_so_far st !! v); [eauto|done]. }
    destruct I. constructor; try done.
    - intros u' v' Hu' Hu't Hv'.
      destruct (ic_expanded0 u' v' Hu' Hu't Hv') as [?|[Heq Hin]]; [by left|].
      apply elem_of_cons in Hin as [->|Hin]; [by left|by right].
    - intros u' [= <-]. split; [done|]. split; [done|].
      intros v' Hv'. apply Htodo. by right. }
  (* the cost of [v] improves *)
  assert (forall old, cost_so_far st !! v = Some old -> cu + 1 < old) as Hold.
  { intros old Hv. unfold improves in Himp. rewrite Hcu, Hv in Himp.
    by apply bool_decide_eq_true in Himp. }
  assert (v <> s) as Hvs.
  { intros ->. destruct (ic_start _ _ _ I) as [H0 _]. apply Hold in H0. lia. }
  destruct I. constructor; simpl.
  - done.
  - intros c Hc. destruct (ic_explored0 c Hc) as (? & ? & k & Hk & Hklt).
    split; [done|]. split; [done|].
    destruct (decide (c = v)) as [->|Hcv].
    + exists (cu + 1). rewrite lookup_insert_eq. split; [done|].
      apply Hold in Hk. lia.
    + exists k. by rewrite lookup_insert_ne.
  - done.
  - intros p n g. rewrite items_put. intros [[= -> -> ->]|Hin].
    + split; [done|]. rewrite lookup_insert_eq. eauto.
    + destruct (ic_frontier0 p n g Hin) as [? ?]. split; [done|].
      rewrite lookup_insert_is_Some. destruct (decide (v = n)); auto.
  - destruct ic_start0. by rewrite !lookup_insert_ne.
  - intros n p. destruct (decide (n = v)) as [->|Hnv].
    + rewrite lookup_insert_eq. intros [= <-]. split; [done|]. split; [done|].
      exists (cu + 1), cu. rewrite lookup_insert_eq, lookup_insert_ne by done.
      split; [done|]. split; [done|]. lia.
    + rewrite lookup_insert_ne by done. intros Hn.
      destruct (ic_from0 n p Hn) as (? & ? & cn & cp & Hcn & Hcp & Hlt).
      split; [done|]. split; [done|].
      rewrite lookup_insert_ne by done.
      destruct (decide (p = v)) as [->|Hpv].
      * exists cn, (cu + 1). rewrite lookup_insert_eq.
        split; [done|]. split; [done|]. apply Hold in Hcp. lia.
      * exists cn, cp. by rewrite lookup_insert_ne.
  - intros n. destruct (decide (n = v)) as [->|Hnv].
    + by rewrite lookup_insert_eq.
    + rewrite lookup_insert_ne by done. apply ic_from_none0.
  - intros n c. destruct (decide (n = v)) as [->|Hnv].
    + rewrite !lookup_insert_eq. intros [= <-]. split; [lia|]. split; [eauto|done].
    + rewrite !lookup_insert_ne by done. apply ic_cost0.
  - intros n. rewrite !lookup_insert_is_Some.
    intros [?|[? ?]]; [by left|]. right. split; [done|]. by apply ic_dom0.
  - intros u' v' Hu' Hu't Hv'. rewrite lookup_insert_is_Some.
    destruct (decide (v = v')) as [?|Hvv]; [by left; left|].
    destruct (ic_expanded0 u' v' Hu' Hu't Hv') as [?|[Heq Hin]]; [by left; right|].
    apply elem_of_cons in Hin as [->|Hin]; [done|by right].
  - intros v'. rewrite lookup_insert_is_Some. intros Hc Hnv.
    destruct (decide (v = v')) as [<-|Hvv].
    + eexists _, _. apply items_put. by left.
    + destruct Hc as [?|[_ Hc]]; [done|].
      destruct (ic_queued0 v' Hc Hnv) as (p & g & Hin).
      exists p, g. apply items_put. by right.
  - intros u' [= <-]. split; [done|]. split; [done|].
    intros v' Hv'. apply Htodo. by right.
  - right. destruct ic_first0 as [[HE _]|?]; [|done].
    rewrite HE in HuE. by apply elem_of_nil in HuE.
Qed.


Lemma inv_common_done u st :
  inv_common (Some u) [] st -> inv_common None [] st.
Proof.
  intros []. constructor; try done.
  intros u' v' Hu' Hu't Hv'.
  destruct (ic_expanded0 u' v' Hu' Hu't Hv') as [?|[_ Hin]]; [by left|].
  by apply elem_of_nil in Hin.
Qed.

(** All neighbours relaxed in turn. *)
Definition relax_all (st : search_state) (u : cell) (l : list cell) : search_state :=
  foldl (fun st v => relaxed st u v) st l.

Lemma relax_all_inv_common u todo st :
  inv_common (Some u) todo st -> inv_common (Some u) [] (relax_all st u todo).
Proof.
  revert st. induction todo as [|v todo IH]; intros st I; simpl; [done|].
  apply IH. by apply relaxed_inv_common.
Qed.

Lemma for_each_relax u todo st :
  inv_common (Some u) todo st ->
  for_each todo (relax alg t u) st self = Ok (relax_all st u todo, self).
Proof.
  revert st. induction todo as [|v todo IH]; intros st I; simpl; [done|].
  destruct (ic_pend _ _ _ I u eq_refl) as (HuE & _ & Htodo).
  destruct (ic_explored _ _ _ I u HuE) as (_ & _ & cu & Hcu & _).
  unfold mbind. rewrite relax_eq.
  - apply IH. by apply relaxed_inv_common.
  - assert (v ∈ neighbors self u) as Hv by (apply Htodo; left).
    by apply elem_of_neighbors in Hv as [_ ?].
  - eauto.
Qed.

Lemma relax_all_explored st u l : explored (relax_all st u l) = explored st.
Proof.
  revert st. induction l as [|v l IH]; intros st; simpl; [done|].
  by rewrite IH, relaxed_explored.
Qed.

Lemma relax_all_visited st u l : visited (relax_all st u l) = visited st.
Proof.
  revert st. induction l as [|v l IH]; intros st; simpl; [done|].
  by rewrite IH, relaxed_visited.
Qed.

Lemma relax_all_items_length st u l :
  (length (pq_items (frontier (relax_all st u l))) <=
   length (pq_items (frontier st)) + length l)%nat.
Proof.
  revert st. induction l as [|v l IH]; intros st; simpl; [lia|].
  etrans; [apply IH|]. pose proof (relaxed_items_length st u v). lia.
Qed.

(** The state after a stale entry is dropped, and after a fresh node is
    marked visited and explored. *)
Definition popped (st : search_state) (q : pq) : search_state :=
  SearchState (explored st) q (came_from st) (cost_so_far st) (visited st).

Definition entered (st : search_state) (q : pq) (u : cell) : search_state :=
  SearchState (explored st ++ [u]) q (came_from st) (cost_so_far st)
    ({[u]} ∪ visited st).

Lemma search_iter_eq st p u g q :
  inv_common None [] st ->
  pq_get (frontier st) = Some ((p, u, g), q) ->
  search_iter alg t st self =
    if decide (u ∈ visited st) then Ok (Continue (popped st q), self)
    else if decide (u = t) then Ok (Break (entered st q u), self)
    else
      match for_each (neighbors self u) (relax alg t u) (entered st q u) self with
      | Ok (st', self') => Ok (Continue st', self')
      | Err e => Err e
      end.
Proof.
  intros I Hget. unfold search_iter. rewrite Hget.
  destruct (decide (u ∈ visited st)); [done|].
  assert ((p, u, g) ∈ pq_items (frontier st)) as Hin.
  { apply (items_get _ _ _ Hget). by left. }
  destruct (ic_frontier _ _ _ I p u g Hin) as [Hup _].
  destruct (passable_value self u Hshape Hup) as (x & Hx & Hx1).
  unfold mbind. destruct u as [r c]; simpl.
  rewrite (grid_at_ok self r c x Hx). rewrite decide_False by done.
  destruct (decide ((r, c) = t)); [done|].
  by rewrite get_neighbors_ok.
Qed.

Lemma popped_inv st p u g q :
  inv_common None [] st ->
  pq_get (frontier st) = Some ((p, u, g), q) ->
  u ∈ visited st ->
  inv_common None [] (popped st q).
Proof.
  intros I Hget HuV. destruct (items_get _ _ _ Hget) as (Hitems & _ & _).
  destruct I. constructor; simpl; try done.
  - intros p' n g' Hin. apply (ic_frontier0 p' n g'). apply Hitems. by right.
  - intros v Hc Hv. destruct (ic_queued0 v Hc Hv) as (p' & g' & Hin).
    apply Hitems in Hin as [[= -> -> ->]|Hin]; [done|eauto].
  - destruct ic_first0 as [(_ & Hs & Hq)|?]; [|by right].
    assert ((p, u, g) ∈ pq_items (frontier st)) as Hin by (apply Hitems; by left).
    rewrite Hq in Hin. apply list_elem_of_singleton in Hin as [= -> -> ->]. done.
Qed.

Lemma entered_inv st p u g q pend todo :
  inv_common None [] st ->
  pq_get (frontier st) = Some ((p, u, g), q) ->
  u ∉ visited st ->
  (pend = None /\ todo = [] /\ u = t) \/
  (pend = Some u /\ todo = neighbors self u /\ u <> t) ->
  inv_common pend todo (entered st q u).
Proof.
  intros I Hget HuV Hpend. destruct (items_get _ _ _ Hget) as (Hitems & _ & _).
  assert ((p, u, g) ∈ pq_items (frontier st)) as Hin by (apply Hitems; by left).
  destruct (ic_frontier _ _ _ I p u g Hin) as [Hup [cu Hcu]].
  assert (u ∉ explored st) as HuE.
  { intros HuE. by apply (ic_explored _ _ _ I) in HuE as [? _]. }
  destruct I. constructor; simpl.
  - apply NoDup_app. split; [done|]. split; [|apply NoDup_singleton].
    intros x Hx ->%list_elem_of_singleton. done.
  - intros c. rewrite elem_of_app, list_elem_of_singleton, length_app; simpl.
    intros [Hc| ->].
    + destruct (ic_explored0 c Hc) as (? & ? & k & ? & ?).
      split; [apply elem_of_union; by right|]. split; [done|].
      exists k. split; [done|]. lia.
    + split; [apply elem_of_union; left; by apply elem_of_singleton|].
      split; [done|]. exists cu. split; [done|].
      apply ic_cost0 in Hcu. lia.
  - intros c. rewrite elem_of_union, elem_of_singleton, elem_of_app,
      list_elem_of_singleton. intros [->|Hc]; [by right|left; by apply ic_visited0].
  - intros p' n g' Hin'. apply (ic_frontier0 p' n g'). apply Hitems. by right.
  - done.
  - intros n p' Hn. destruct (ic_from0 n p' Hn) as (? & ? & ?).
    split; [|done]. apply elem_of_app. by left.
  - done.
  - intros n c Hn. destruct (ic_cost0 n c Hn) as (? & ? & ?).
    rewrite length_app; simpl. split; [lia|done].
  - done.
  - intros u' v'. rewrite elem_of_app, list_elem_of_singleton.
    intros [Hu'| ->] Hu't Hv'.
    + left. destruct (ic_expanded0 u' v' Hu' Hu't Hv') as [?|[? _]]; done.
    + destruct Hpend as [(_ & _ & ?)|(-> & -> & _)]; [done|by right].
  - intros v Hc Hv. apply not_elem_of_union in Hv as [Hvu%not_elem_of_singleton Hv].
    destruct (ic_queued0 v Hc Hv) as (p' & g' & Hin').
    apply Hitems in Hin' as [[= -> -> ->]|Hin']; [done|eauto].
  - intros u' ->. destruct Hpend as [(? & _ & _)|([= <-] & -> & ?)]; [done|].
    split; [|done]. apply elem_of_app. right. by apply list_elem_of_singleton.
  - right. destruct ic_first0 as [(HE & _ & Hq)|Hh].
    + rewrite Hq in Hin. apply list_elem_of_singleton in Hin as [= -> -> ->].
      by rewrite HE.
    + destruct (explored st); [done|]. done.
Qed.

(** *** Termination measure *)

Definition all_cells : list cell :=
  list_prod (seqZ 0 (rows self)) (seqZ 0 (cols self)).

Definition cells_total : nat := length all_cells.

Lemma explored_bound pend todo st :
  inv_common pend todo st -> (length (explored st) <= cells_total)%nat.
Proof.
  intros I. apply submseteq_length, NoDup_submseteq; [apply (ic_nodup _ _ _ I)|].
  intros [r c] Hc. apply (ic_explored _ _ _ I) in Hc as (_ & [[? ?] _] & _).
  unfold all_cells. apply list_elem_of_In, in_prod_iff.
  rewrite <- !list_elem_of_In, !elem_of_seqZ. simpl in *. lia.
Qed.

Definition measure (st : search_state) : nat :=
  (length (pq_items (frontier st)) + 4 * (cells_total - length (explored st)))%nat.


(** The outcome of one turn of the loop that pops [(p, u, g)] and leaves
    the queue [q]. *)
Definition iter_result (st : search_state) (u : cell) (q : pq) : control :=
  if decide (u ∈ visited st) then Continue (popped st q)
  else if decide (u = t) then Break (entered st q u)
  else Continue (relax_all (entered st q u) u (neighbors self u)).

Definition loop_inv (st : search_state) : Prop :=
  inv_common None [] st /\ t ∉ explored st.

Lemma search_iter_run st p u g q :
  inv_common None [] st ->
  pq_get (frontier st) = Some ((p, u, g), q) ->
  search_iter alg t st self = Ok (iter_result st u q, self).
Proof.
  intros I Hget. rewrite (search_iter_eq st p u g q I Hget). unfold iter_result.
  destruct (decide (u ∈ visited st)); [done|].
  destruct (decide (u = t)); [done|].
  rewrite for_each_relax; [done|].
  eapply entered_inv; eauto.
Qed.

Lemma iter_result_inv st p u g q :
  loop_inv st ->
  pq_get (frontier st) = Some ((p, u, g), q) ->
  match iter_result st u q with
  | Continue st' => loop_inv st' /\ (measure st' < measure st)%nat
  | Break st' => inv_common None [] st' /\ last (explored st') = Some t
  end.
Proof.
  intros [I Ht] Hget. destruct (items_get _ _ _ Hget) as (_ & _ & Hlen).
  unfold iter_result.
  destruct (decide (u ∈ visited st)) as [HuV|HuV].
  { split; [split|].
    - by eapply popped_inv.
    - done.
    - unfold measure; simpl. lia. }
  destruct (decide (u = t)) as [Hut|Hut].
  { split.
    - eapply entered_inv; eauto.
    - simpl. rewrite last_snoc. by rewrite Hut. }
  assert (inv_common (Some u) (neighbors self u) (entered st q u)) as I1.
  { eapply entered_inv; eauto. }
  pose proof (relax_all_inv_common _ _ _ I1) as I2.
  split; [split|].
  - by eapply inv_common_done.
  - rewrite relax_all_explored; simpl.
    rewrite elem_of_app, list_elem_of_singleton. intros [?|?]; done.
  - pose proof (explored_bound _ _ _ I1) as Hb. simpl in Hb.
    rewrite length_app in Hb; simpl in Hb.
    pose proof (relax_all_items_length (entered st q u) u (neighbors self u)) as Hl.
    pose proof (neighbors_length self u). simpl in Hl.
    unfold measure. rewrite relax_all_explored; simpl.
    rewrite length_app; simpl. lia.
Qed.

(** The loop runs to its end within the budget. [J] is any further
    invariant of the turns that continue, [Q] what a turn that breaks
    establishes. *)
Lemma search_loop_run (J Q : search_state -> Prop) :
  (forall st p u g q, loop_inv st -> J st ->
     pq_get (frontier st) = Some ((p, u, g), q) ->
     match iter_result st u q with
     | Continue st' => J st'
     | Break st' => Q st'
     end) ->
  forall fuel st, loop_inv st -> J st -> (measure st < fuel)%nat ->
  exists st', search_loop fuel alg t st self = Ok (st', self) /\
    inv_common None [] st' /\
    (((t ∉ explored st') /\ pq_items (frontier st') = []) \/
     (last (explored st') = Some t /\ Q st')).
Proof.
  intros Hstep. induction fuel as [|fuel IH]; intros st HI HJ Hm; [lia|].
  simpl. destruct (pq_empty (frontier st)) eqn:Hempty.
  { apply pq_empty_items in Hempty. exists st. destruct HI. auto. }
  assert (pq_items (frontier st) <> []) as Hne.
  { intros Hq. apply pq_empty_items in Hq. congruence. }
  destruct (pq_get_is_Some _ Hne) as ([[p u] g] & q & Hget).
  unfold mbind. rewrite (search_iter_run st p u g q (proj1 HI) Hget).
  pose proof (iter_result_inv st p u g q HI Hget) as Hinv.
  pose proof (Hstep st p u g q HI HJ Hget) as Hj.
  destruct (iter_result st u q) as [st'|st'].
  - destruct Hinv as [HI' Hm']. apply IH; [done|done|lia].
  - destruct Hinv as [HI' Hlast]. exists st'. auto.
Qed.

(** *** Walks and the path read back from [came_from] *)

Lemma connects_single a : passable self a -> connects self a a [a].
Proof.
  intros Ha. split; [split; [done|split]|done].
  - by intros c ->%list_elem_of_singleton.
  - by intros [|i] x y.
Qed.

Lemma connects_snoc a b c l :
  connects self a b l -> c ∈ neighbors self b -> connects self a c (l ++ [c]).
Proof.
  intros ((Hne & Hpass & Hadj) & Hhead & Hlast) [Hbc Hc]%elem_of_neighbors.
  split; [split; [|split]|split].
  - by destruct l.
  - intros x [Hx| ->%list_elem_of_singleton]%elem_of_app; auto.
  - intros i x y Hx Hy.
    assert (S i < length (l ++ [c]))%nat as Hi by (by eapply lookup_lt_Some).
    rewrite length_app in Hi; simpl in Hi.
    rewrite lookup_app_l in Hx by lia.
    destruct (decide (S i < length l)%nat) as [Hlt|Hge].
    + rewrite lookup_app_l in Hy by lia. by eapply Hadj.
    + assert (S i = length l) as Hi' by lia.
      rewrite lookup_app_r in Hy by lia. rewrite Hi', Nat.sub_diag in Hy.
      injection Hy as <-.
      rewrite last_lookup in Hlast. rewrite <- Hi' in Hlast. simpl in Hlast.
      congruence.
  - destruct l; [done|]. done.
  - apply last_snoc.
Qed.

Lemma reconstruct_chain pend todo st :
  inv_common pend todo st ->
  forall fuel n k acc,
    cost_so_far st !! n = Some k -> (Z.to_nat k < fuel)%nat ->
    exists l, reconstruct fuel (came_from st) (Some n) acc self = Ok (acc ++ l, self) /\
      connects self s n (reverse l) /\ (length l <= Z.to_nat k + 1)%nat.
Proof.
  intros I. induction fuel as [|fuel IH]; intros n k acc Hk Hfuel; [lia|].
  simpl. destruct (ic_cost _ _ _ I n k Hk) as (Hk0 & [x Hx] & Hn).
  rewrite Hx; simpl. destruct x as [p|].
  - destruct (ic_from _ _ _ I n p Hx) as (HpE & Hnp & cn & cp & Hcn & Hcp & Hlt).
    assert (cn = k) as -> by congruence.
    assert (0 <= cp) by (by apply (ic_cost _ _ _ I) in Hcp as [[? ?] _]).
    destruct (IH p cp (acc ++ [n]) Hcp) as (l & Hrun & Hconn & Hlen); [lia|].
    exists (n :: l). split; [|split].
    + rewrite Hrun. by rewrite <- app_assoc.
    + rewrite reverse_cons. by eapply connects_snoc.
    + simpl. lia.
  - apply (ic_from_none _ _ _ I) in Hx as ->.
    exists [s]. split; [|split].
    + by destruct fuel.
    + by apply connects_single.
    + simpl. lia.
Qed.

Lemma any_wall_passable l :
  (forall c, c ∈ l -> passable self c) -> any_wall l self = Ok (false, self).
Proof.
  induction l as [|[r c] l IH]; intros Hl; simpl; [done|].
  destruct (passable_value self (r, c) Hshape) as (x & Hx & Hx1).
  { apply Hl. by left. }
  unfold mbind. rewrite (grid_at_ok self r c x Hx). rewrite decide_False by done.
  apply IH. intros c' Hc'. apply Hl. by right.
Qed.


Lemma is_walk_nonempty l : is_walk self l -> l <> [].
Proof. by intros [? _]. Qed.

Lemma edges_snoc (l : list cell) c : l <> [] -> edges (l ++ [c]) = S (edges l).
Proof. unfold edges. rewrite length_app; simpl. destruct l; [done|simpl; lia]. Qed.

(** Walks grow at their far end. *)
Lemma connects_snoc_ind a (P : cell -> list cell -> Prop) :
  P a [a] ->
  (forall b c l, connects self a b l -> P b l -> c ∈ neighbors self b ->
     P c (l ++ [c])) ->
  forall b l, connects self a b l -> P b l.
Proof.
  intros Hbase Hstep b l. revert b.
  induction l as [|x l IH] using rev_ind; intros b ((Hne & Hpass & Hadj) & Hhead & Hlast).
  { done. }
  rewrite last_snoc in Hlast. injection Hlast as ->.
  destruct (decide (l = [])) as [->|Hl].
  { simpl in Hhead. injection Hhead as ->. done. }
  destruct (last l) as [y|] eqn:Hy; [|by apply last_None in Hy].
  assert (connects self a y l) as Hconn.
  { split; [split; [done|split]|split].
    - intros c Hc. apply Hpass, elem_of_app. by left.
    - intros i u v Hu Hv. apply (Hadj i).
      + by apply lookup_app_l_Some.
      + by apply lookup_app_l_Some.
    - destruct l; [done|]. done.
    - done. }
  apply (Hstep y b l Hconn); [by apply IH|].
  apply elem_of_neighbors. split.
  - rewrite last_lookup in Hy.
    assert (length l <> 0)%nat by (by destruct l).
    apply (Hadj (Nat.pred (length l))).
    + by apply lookup_app_l_Some.
    + replace (S (Nat.pred (length l))) with (length l) by lia.
      by rewrite list_lookup_middle.
  - apply Hpass, elem_of_app. right. by apply list_elem_of_singleton.
Qed.

(** When the queue runs dry, every cell that can be reached was explored. *)
Lemma exhausted_reachable st :
  loop_inv st -> pq_items (frontier st) = [] ->
  forall c, reachable self s c -> c ∈ explored st.
Proof.
  intros [I Ht] Hq.
  assert (forall v, is_Some (cost_so_far st !! v) -> v ∈ explored st) as Hcost.
  { intros v Hv. apply (ic_visited _ _ _ I).
    destruct (decide (v ∈ visited st)) as [|Hnv]; [done|].
    destruct (ic_queued _ _ _ I v Hv Hnv) as (p & g & Hin).
    rewrite Hq in Hin. by apply elem_of_nil in Hin. }
  intros c [l Hl]. revert c l Hl. apply connects_snoc_ind.
  - apply Hcost. destruct (ic_start _ _ _ I) as [-> _]. eauto.
  - intros b c l _ Hb Hc. apply Hcost.
    destruct (ic_expanded _ _ _ I b c Hb) as [?|[? _]]; [|done|done|done].
    by intros ->.
Qed.

(** *** The whole of [find_path] *)

Definition init_state : search_state :=
  SearchState [] (pq_put (initial_priority alg s t, s, 0) pq_new)
    {[s := None]} {[s := 0]} ∅.

Lemma init_state_items :
  pq_items (frontier init_state) = [(initial_priority alg s t, s, 0)].
Proof.
  simpl. apply Permutation_singleton_r.
  by rewrite pq_put_items, pq_new_items.
Qed.

Lemma init_state_inv : loop_inv init_state.
Proof.
  split; [|apply not_elem_of_nil]. constructor.
  - apply NoDup_nil_2.
  - by intros c ?%elem_of_nil.
  - by intros c ?%elem_of_empty.
  - intros p n g. rewrite init_state_items.
    intros [= -> -> ->]%list_elem_of_singleton. split; [done|].
    simpl. rewrite lookup_singleton_eq. eauto.
  - simpl. by rewrite !lookup_singleton_eq.
  - simpl. intros n p [_ ?]%lookup_singleton_Some. done.
  - simpl. by intros n [? _]%lookup_singleton_Some.
  - simpl. intros n c [<- <-]%lookup_singleton_Some.
    rewrite lookup_singleton_eq. split; [lia|]. split; [eauto|done].
  - simpl. intros n [x [<- _]%lookup_singleton_Some].
    rewrite lookup_singleton_eq. eauto.
  - by intros u v ?%elem_of_nil.
  - simpl. intros v [x [<- _]%lookup_singleton_Some] _.
    eexists _, _. rewrite pq_put_items. by left.
  - done.
  - left. split; [done|]. split; [apply not_elem_of_empty|].
    apply init_state_items.
Qed.

Lemma init_state_measure : measure init_state = (1 + 4 * cells_total)%nat.
Proof. unfold measure. rewrite init_state_items. simpl. lia. Qed.

Lemma search_fuel_cells : search_fuel self = (4 * cells_total + 2)%nat.
Proof.
  unfold search_fuel, cells_total, all_cells.
  rewrite length_prod, !length_seqZ. destruct Hstart as [[? ?] _]. lia.
Qed.

(** What a run of [find_path] amounts to: the loop ends in a state [st]
    that either exhausted the queue without meeting [end], or broke out at
    [end]; the result follows. *)
Lemma find_path_fuel_run (J Q : search_state -> Prop) fuel :
  (forall st p u g q, loop_inv st -> J st ->
     pq_get (frontier st) = Some ((p, u, g), q) ->
     match iter_result st u q with
     | Continue st' => J st'
     | Break st' => Q st'
     end) ->
  J init_state ->
  (search_fuel self <= fuel)%nat ->
  exists st, inv_common None [] st /\ head (explored st) = Some s /\
    (((t ∉ explored st) /\
      (forall c, reachable self s c -> c ∈ explored st) /\
      find_path_fuel fuel alg self = Ok ((None, explored st), self)) \/
     (last (explored st) = Some t /\ Q st /\
      exists l k, cost_so_far st !! t = Some k /\
        connects self s t l /\ Z.of_nat (edges l) <= k /\
        find_path_fuel fuel alg self = Ok ((Some l, explored st), self))).
Proof.
  intros Hstep HJ Hfuel. rewrite search_fuel_cells in Hfuel.
  destruct (search_loop_run J Q Hstep fuel init_state init_state_inv HJ)
    as (st & Hrun & I & Hend).
  { rewrite init_state_measure. lia. }
  exists st. split; [done|].
  unfold find_path_fuel, mbind, gets. fold init_state. rewrite Hrun.
  destruct Hend as [[Ht Hq]|[Hlast HQ]].
  - split.
    { destruct (ic_first _ _ _ I) as [(_ & _ & Hq')|?]; [|done]. congruence. }
    left. split; [done|]. split; [by apply exhausted_reachable|].
    assert (came_from st !! t = None) as Hcf.
    { destruct (came_from st !! t) as [x|] eqn:Hx; [|done].
      exfalso. apply Ht, (ic_visited _ _ _ I).
      destruct (decide (t ∈ visited st)) as [|Hnv]; [done|].
      destruct (ic_queued _ _ _ I t) as (p & g & Hin); [|done|].
      - apply (ic_dom _ _ _ I). eauto.
      - rewrite Hq in Hin. by apply elem_of_nil in Hin. }
    destruct fuel as [|fuel]; [lia|]. simpl. rewrite Hcf; simpl.
    assert (reconstruct fuel (came_from st) None [t] self = Ok ([t], self)) as ->
      by (by destruct fuel).
    simpl. rewrite decide_False; [done|].
    intros Hts. apply Ht. rewrite Hts.
    apply (exhausted_reachable st); [done|done|].
    exists [s]. by apply connects_single.
  - assert (t ∈ explored st) as HtE.
    { rewrite last_lookup in Hlast. by eapply list_elem_of_lookup_2. }
    split.
    { destruct (ic_first _ _ _ I) as [(HE & _)|?]; [|done].
      rewrite HE in HtE. by apply elem_of_nil in HtE. }
    right. split; [done|]. split; [done|].
    destruct (ic_explored _ _ _ I t HtE) as (_ & _ & k & Hk & Hklt).
    pose proof (explored_bound _ _ _ I) as Hb.
    assert (0 <= k) by (by apply (ic_cost _ _ _ I) in Hk as [[? ?] _]).
    destruct (reconstruct_chain _ _ _ I fuel t k [] Hk) as (l & Hrec & Hconn & Hlen);
      [lia|].
    exists (reverse l), k. split; [done|]. split; [done|].
    split. { unfold edges. rewrite length_reverse. lia. }
    rewrite Hrec. simpl.
    destruct Hconn as (Hwalk & Hhead & _).
    destruct (reverse l) as [|first rest] eqn:Hrev; [done|].
    injection Hhead as ->. rewrite decide_True by done.
    rewrite any_wall_passable; [done|]. by destruct Hwalk as (_ & ? & _).
Qed.


(** *** A* and Dijkstra: the cost of a popped node is final *)

Definition optimal_alg : Prop := alg = "astar" \/ alg = "dijkstra".

(** The estimate added to the cost in the priority: the Manhattan distance
    to [end] for A*, nothing for Dijkstra. *)
Definition heuristic (n : cell) : Z :=
  if decide (alg = "astar") then manhattan_distance n t else 0.

Lemma priority_heuristic c v :
  optimal_alg -> priority_of alg c (manhattan_distance v t) = c + heuristic v.
Proof.
  unfold priority_of, heuristic. intros [->| ->]; simpl; [done|lia].
Qed.

Lemma initial_priority_optimal : optimal_alg -> initial_priority alg s t = 0.
Proof. unfold initial_priority. by intros [->| ->]. Qed.

Lemma heuristic_consistent u v : adjacent4 u v -> heuristic u <= 1 + heuristic v.
Proof.
  unfold heuristic, adjacent4, manhattan_distance.
  destruct (decide (alg = "astar")); lia.
Qed.

Lemma heuristic_target : heuristic t = 0.
Proof. unfold heuristic, manhattan_distance. destruct (decide _); lia. Qed.

Lemma heuristic_le_manhattan n : heuristic n <= manhattan_distance n t.
Proof. unfold heuristic, manhattan_distance. destruct (decide _); lia. Qed.

Lemma manhattan_step y b c :
  adjacent4 b c -> manhattan_distance y c <= manhattan_distance y b + 1.
Proof. unfold adjacent4, manhattan_distance. lia. Qed.

Lemma manhattan_self y : manhattan_distance y y = 0.
Proof. unfold manhattan_distance. lia. Qed.

Record inv_opt (pend : option cell) (todo : list cell) (st : search_state)
    : Prop := {
  io_edge : forall u v cu, u ∈ explored st -> u <> t -> v ∈ neighbors self u ->
    cost_so_far st !! u = Some cu ->
    (exists cv, cost_so_far st !! v = Some cv /\ cv <= cu + 1) \/
    (pend = Some u /\ v ∈ todo);
  io_queued : forall v c, cost_so_far st !! v = Some c -> v ∉ visited st ->
    exists p g, (p, v, g) ∈ pq_items (frontier st) /\ p <= c + heuristic v;
  io_mono : forall u cu p v g, u ∈ explored st -> cost_so_far st !! u = Some cu ->
    (p, v, g) ∈ pq_items (frontier st) -> cu + heuristic u <= p;
  io_lower : forall p v g cv, s ∈ visited st ->
    (p, v, g) ∈ pq_items (frontier st) -> cost_so_far st !! v = Some cv ->
    cv + heuristic v <= p;
  io_pend : forall u cu w cw, pend = Some u -> cost_so_far st !! u = Some cu ->
    w ∈ explored st -> cost_so_far st !! w = Some cw ->
    cw + heuristic w <= cu + heuristic u
}.

Lemma relaxed_inv_opt st u v todo :
  optimal_alg ->
  inv_common (Some u) (v :: todo) st ->
  inv_opt (Some u) (v :: todo) st ->
  inv_opt (Some u) todo (relaxed st u v).
Proof.
  intros Halg I O.
  destruct (ic_pend _ _ _ I u eq_refl) as (HuE & Hut & Htodo).
  destruct (ic_explored _ _ _ I u HuE) as (HuV & Hup & cu & Hcu & Hcu_lt).
  assert (v ∈ neighbors self u) as Hvu by (apply Htodo; left).
  assert (v <> u) as Hne by (by apply neighbors_ne).
  assert (adjacent4 u v) as Hadj by (by apply elem_of_neighbors in Hvu as [? _]).
  pose proof (heuristic_consistent u v Hadj) as Hcons.
  unfold relaxed. rewrite Hcu.
  destruct (improves st u v) eqn:Himp.
  2:{ assert (exists old, cost_so_far st !! v = Some old /\ old <= cu + 1)
        as (old & Hv & Hle).
      { unfold improves in Himp. rewrite Hcu in Himp.
        destruct (cost_so_far st !! v) as [old|]; [|done].
        apply bool_decide_eq_false in Himp. exists old. split; [done|lia]. }
      destruct O. constructor; try done.
      - intros u' v' cu' Hu' Hu't Hv' Hcu'.
        destruct (io_edge0 u' v' cu' Hu' Hu't Hv' Hcu') as [?|[[= <-] Hin]]; [by left|].
        apply elem_of_cons in Hin as [->|Hin]; [|by right].
        left. exists old. split; [done|]. congruence. }
  assert (forall old, cost_so_far st !! v = Some old -> cu + 1 < old) as Hold.
  { intros old Hv. unfold improves in Himp. rewrite Hcu, Hv in Himp.
    by apply bool_decide_eq_true in Himp. }
  assert (v ∉ explored st) as HvE.
  { intros HvE. destruct (ic_explored _ _ _ I v HvE) as (_ & _ & cv & Hcv & _).
    pose proof (io_pend _ _ _ O u cu v cv eq_refl Hcu HvE Hcv).
    apply Hold in Hcv. lia. }
  assert (forall w, w ∈ explored st -> w <> v) as HneE by (by intros w Hw ->).
  destruct O. constructor; simpl.
  - intros u' v' cu' Hu' Hu't Hv'. rewrite (lookup_insert_ne _ v u') by (symmetry; auto).
    intros Hcu'.
    destruct (io_edge0 u' v' cu' Hu' Hu't Hv' Hcu') as [(cv & Hcv & Hle)|[[= <-] Hin]].
    + left. destruct (decide (v' = v)) as [->|Hv'v].
      * exists (cu + 1). rewrite lookup_insert_eq. split; [done|].
        apply Hold in Hcv. lia.
      * exists cv. by rewrite lookup_insert_ne.
    + apply elem_of_cons in Hin as [->|Hin]; [|by right].
      left. exists (cu + 1). rewrite lookup_insert_eq. split; [done|].
      assert (cu' = cu) by congruence. lia.
  - intros v' c Hc Hv'. destruct (decide (v' = v)) as [->|Hv'v].
    + rewrite lookup_insert_eq in Hc. injection Hc as <-.
      eexists _, _. split; [apply items_put; by left|].
      rewrite priority_heuristic by done. lia.
    + rewrite lookup_insert_ne in Hc by done.
      destruct (io_queued0 v' c Hc Hv') as (p & g & Hin & Hle).
      exists p, g. split; [apply items_put; by right|done].
  - intros u' cu' p v' g Hu'. rewrite (lookup_insert_ne _ v u') by (symmetry; auto).
    intros Hcu'. rewrite items_put. intros [[= -> -> ->]|Hin].
    + rewrite priority_heuristic by done.
      pose proof (io_pend0 u cu u' cu' eq_refl Hcu Hu' Hcu'). lia.
    + by eapply io_mono0.
  - intros p v' g cv Hs. rewrite items_put. intros [[= -> -> ->]|Hin].
    + rewrite lookup_insert_eq. intros [= <-].
      rewrite priority_heuristic by done. lia.
    + destruct (decide (v' = v)) as [->|Hv'v].
      * rewrite lookup_insert_eq. intros [= <-].
        destruct (ic_frontier _ _ _ I p v g Hin) as [_ [old Hv]].
        pose proof (io_lower0 p v g old Hs Hin Hv). apply Hold in Hv. lia.
      * rewrite lookup_insert_ne by done. by eapply io_lower0.
  - intros u' cu' w cw [= <-]. rewrite lookup_insert_ne by done.
    intros Hcu' Hw. rewrite (lookup_insert_ne _ v w) by (symmetry; auto).
    by eapply io_pend0.
Qed.

Lemma relax_all_inv_opt u todo st :
  optimal_alg ->
  inv_common (Some u) todo st -> inv_opt (Some u) todo st ->
  inv_opt (Some u) [] (relax_all st u todo).
Proof.
  intros Halg. revert st. induction todo as [|v todo IH]; intros st I O; simpl; [done|].
  apply IH; [by apply relaxed_inv_common | by apply relaxed_inv_opt].
Qed.

Lemma inv_opt_done u st : inv_opt (Some u) [] st -> inv_opt None [] st.
Proof.
  intros []. constructor; try done.
  intros u' v' cu' Hu' Hu't Hv' Hcu'.
  destruct (io_edge0 u' v' cu' Hu' Hu't Hv' Hcu') as [?|[_ Hin]]; [by left|].
  by apply elem_of_nil in Hin.
Qed.

Lemma popped_inv_opt st p u g q :
  inv_opt None [] st ->
  pq_get (frontier st) = Some ((p, u, g), q) ->
  u ∈ visited st ->
  inv_opt None [] (popped st q).
Proof.
  intros O Hget HuV. destruct (items_get _ _ _ Hget) as (Hitems & _ & _).
  destruct O. constructor; simpl; try done.
  - intros v c Hc Hv. destruct (io_queued0 v c Hc Hv) as (p' & g' & Hin & Hle).
    apply Hitems in Hin as [[= -> -> ->]|Hin]; [done|eauto].
  - intros u' cu' p' v g' Hu' Hcu' Hin. eapply io_mono0; eauto.
    apply Hitems. by right.
  - intros p' v g' cv Hs Hin. eapply io_lower0; eauto. apply Hitems. by right.
Qed.

Lemma entered_inv_opt st p u g q :
  optimal_alg ->
  inv_common None [] st -> inv_opt None [] st ->
  pq_get (frontier st) = Some ((p, u, g), q) ->
  u ∉ visited st -> u <> t ->
  inv_opt (Some u) (neighbors self u) (entered st q u).
Proof.
  intros Halg I O Hget HuV Hut.
  destruct (items_get _ _ _ Hget) as (Hitems & Hmin & Hlen).
  assert ((p, u, g) ∈ pq_items (frontier st)) as Hin by (apply Hitems; by left).
  destruct (ic_frontier _ _ _ I p u g Hin) as [Hup [cu Hcu]].
  assert (p <= cu + heuristic u) as Hp_le.
  { destruct (io_queued _ _ _ O u cu Hcu HuV) as (p' & g' & Hin' & Hle).
    apply Hmin, entry_le_priority in Hin'. simpl in Hin'. lia. }
  assert (forall p' v' g', (p', v', g') ∈ pq_items q -> cu + heuristic u <= p') as Hrest.
  { intros p' v' g' Hin'.
    destruct (ic_first _ _ _ I) as [(_ & _ & Hq)|Hhead].
    - rewrite Hq in Hlen. destruct (pq_items q); [|done]. by apply elem_of_nil in Hin'.
    - assert (s ∈ visited st) as Hs.
      { apply (ic_explored _ _ _ I). destruct (explored st) as [|x l]; [done|].
        injection Hhead as ->. by left. }
      pose proof (io_lower _ _ _ O p u g cu Hs Hin Hcu).
      assert ((p', v', g') ∈ pq_items (frontier st)) as Hin'' by (apply Hitems; by right).
      apply Hmin, entry_le_priority in Hin''. simpl in Hin''. lia. }
  destruct O. constructor; simpl.
  - intros u' v' cu'. rewrite elem_of_app, list_elem_of_singleton.
    intros [Hu'| ->] Hu't Hv' Hcu'; [|by right].
    left. destruct (io_edge0 u' v' cu' Hu' Hu't Hv' Hcu') as [?|[? _]]; done.
  - intros v c Hc Hv. apply not_elem_of_union in Hv as [Hvu%not_elem_of_singleton Hv].
    destruct (io_queued0 v c Hc Hv) as (p' & g' & Hin' & Hle).
    apply Hitems in Hin' as [[= -> -> ->]|Hin']; [done|eauto].
  - intros u' cu' p' v' g'. rewrite elem_of_app, list_elem_of_singleton.
    intros [Hu'| ->] Hcu' Hin'.
    + eapply io_mono0; eauto. apply Hitems. by right.
    + assert (cu' = cu) as -> by congruence. by eapply Hrest.
  - intros p' v' g' cv _ Hin' Hcv.
    destruct (ic_first _ _ _ I) as [(_ & _ & Hq)|Hhead].
    + rewrite Hq in Hlen. destruct (pq_items q); [|done]. by apply elem_of_nil in Hin'.
    + assert (s ∈ visited st) as Hs.
      { apply (ic_explored _ _ _ I). destruct (explored st) as [|x l]; [done|].
        injection Hhead as ->. by left. }
      eapply io_lower0; eauto. apply Hitems. by right.
  - intros u' cu' w cw [= <-] Hcu'. assert (cu' = cu) as -> by congruence.
    rewrite elem_of_app, list_elem_of_singleton. intros [Hw| ->] Hcw.
    + pose proof (io_mono0 w cw p u g Hw Hcw Hin). lia.
    + assert (cw = cu) by congruence. lia.
Qed.

(** Along any walk from [start], either everything so far was explored at
    a cost within the length walked, or the walk left the explored region
    at a node whose cost plus distance to the walk's end is still within
    that length. *)
Lemma walk_leaves_explored st :
  loop_inv st -> inv_opt None [] st ->
  forall c l, connects self s c l ->
    (c ∈ explored st /\
       exists k, cost_so_far st !! c = Some k /\ k <= Z.of_nat (edges l)) \/
    (exists y cy, (y ∉ explored st) /\ cost_so_far st !! y = Some cy /\
       cy + manhattan_distance y c <= Z.of_nat (edges l)).
Proof.
  intros [I Ht] O. apply connects_snoc_ind.
  - destruct (ic_start _ _ _ I) as [H0 _].
    destruct (decide (s ∈ explored st)).
    + left. split; [done|]. exists 0. split; [done|]. simpl. lia.
    + right. exists s, 0. rewrite manhattan_self. simpl. split; [done|]. split; [done|lia].
  - intros b c l Hconn IH Hc.
    rewrite edges_snoc by (by apply is_walk_nonempty, Hconn).
    destruct IH as [(Hb & k & Hk & Hle)|(y & cy & Hy & Hcy & Hle)].
    + assert (b <> t) as Hbt by (by intros ->).
      destruct (io_edge _ _ _ O b c k Hb Hbt Hc Hk) as [(cv & Hcv & Hcvle)|[? _]]; [|done].
      destruct (decide (c ∈ explored st)).
      * left. split; [done|]. exists cv. split; [done|lia].
      * right. exists c, cv. rewrite manhattan_self. split; [done|]. split; [done|lia].
    + right. exists y, cy. split; [done|]. split; [done|].
      apply elem_of_neighbors in Hc as [Hadj _].
      pose proof (manhattan_step y b c Hadj). lia.
Qed.

(** No walk from [start] to [end] has fewer edges than the cost recorded
    for [end]. *)
Definition cost_optimal (st : search_state) : Prop :=
  forall k l, cost_so_far st !! (end_ self) = Some k -> connects self s t l ->
    k <= Z.of_nat (edges l).

Lemma iter_result_opt st p u g q :
  optimal_alg ->
  loop_inv st -> inv_opt None [] st ->
  pq_get (frontier st) = Some ((p, u, g), q) ->
  match iter_result st u q with
  | Continue st' => inv_opt None [] st'
  | Break st' => cost_optimal st'
  end.
Proof.
  intros Halg [I Ht] O Hget. unfold iter_result.
  destruct (decide (u ∈ visited st)) as [HuV|HuV]; [by eapply popped_inv_opt|].
  destruct (decide (u = t)) as [->|Hut].
  - intros k l Hk Hconn. simpl in Hk.
    destruct (items_get _ _ _ Hget) as (Hitems & Hmin & Hlen).
    assert ((p, t, g) ∈ pq_items (frontier st)) as Hin by (apply Hitems; by left).
    destruct (ic_first _ _ _ I) as [(_ & _ & Hq)|Hhead].
    { rewrite Hq in Hin. apply list_elem_of_singleton in Hin as [= _ Hts _].
      destruct (ic_start _ _ _ I) as [H0 _]. rewrite <- Hts in H0.
      assert (k = 0) by congruence. lia. }
    assert (s ∈ visited st) as Hs.
    { apply (ic_explored _ _ _ I). destruct (explored st) as [|x l']; [done|].
      injection Hhead as ->. by left. }
    destruct (walk_leaves_explored st (conj I Ht) O t l Hconn)
      as [[? _]|(y & cy & Hy & Hcy & Hle)]; [done|].
    assert (y ∉ visited st) as HyV by (intros ?; by apply Hy, (ic_visited _ _ _ I)).
    destruct (io_queued _ _ _ O y cy Hcy HyV) as (p' & g' & Hin' & Hle').
    apply Hmin, entry_le_priority in Hin'. simpl in Hin'.
    pose proof (io_lower _ _ _ O p t g k Hs Hin Hk).
    pose proof (heuristic_le_manhattan y). rewrite heuristic_target in *. lia.
  - eapply inv_opt_done, relax_all_inv_opt; [done| |by eapply entered_inv_opt].
    eapply entered_inv; eauto.
Qed.

Lemma init_state_opt : optimal_alg -> inv_opt None [] init_state.
Proof.
  intros Halg. constructor.
  - by intros u v cu ?%elem_of_nil.
  - simpl. intros v c [<- <-]%lookup_singleton_Some _.
    eexists _, _. split; [rewrite pq_put_items; by left|].
    rewrite initial_priority_optimal by done.
    unfold heuristic, manhattan_distance. destruct (decide _); lia.
  - by intros u cu p v g ?%elem_of_nil.
  - by intros p v g cv ?%elem_of_empty.
  - done.
Qed.

End Search.

(** ** The budget is only a bound *)

Section Fuel.
Context `{PQ : PriorityQueue}.

Lemma search_loop_mono alg t fuel fuel' st self r :
  (fuel <= fuel')%nat ->
  search_loop fuel alg t st self = Ok r ->
  search_loop fuel' alg t st self = Ok r.
Proof.
  revert fuel' st self. induction fuel as [|fuel IH]; intros fuel' st self Hle; [done|].
  destruct fuel' as [|fuel']; [lia|]. simpl.
  destruct (pq_empty (frontier st)); [done|].
  unfold mbind. destruct (search_iter alg t st self) as [[[st'|st'] self']|e]; try done.
  apply IH. lia.
Qed.

Lemma reconstruct_mono fuel fuel' cf cur acc self r :
  (fuel <= fuel')%nat ->
  reconstruct fuel cf cur acc self = Ok r ->
  reconstruct fuel' cf cur acc self = Ok r.
Proof.
  revert fuel' cur acc. induction fuel as [|fuel IH]; intros fuel' [c|] acc Hle;
    try done; destruct fuel' as [|fuel']; try done; try lia.
  simpl. apply IH. lia.
Qed.

Lemma find_path_fuel_mono alg fuel fuel' self r :
  (fuel <= fuel')%nat ->
  find_path_fuel fuel alg self = Ok r ->
  find_path_fuel fuel' alg self = Ok r.
Proof.
  intros Hle. unfold find_path_fuel, mbind, gets.
  destruct (search_loop fuel _ _ _ self) as [[st self1]|e] eqn:Hloop; [|done].
  rewrite (search_loop_mono _ _ _ _ _ _ _ Hle Hloop).
  destruct (reconstruct fuel _ _ _ self1) as [[l self2]|e] eqn:Hrec; [|done].
  by rewrite (reconstruct_mono _ _ _ _ _ _ _ Hle Hrec).
Qed.

(** With [start] on a wall the search stops at once. *)
Lemma find_path_fuel_wall_start alg fuel self :
  (2 <= fuel)%nat ->
  is_wall self (start self) ->
  find_path_fuel fuel alg self = Ok ((None, []), self).
Proof.
  intros Hfuel Hwall. unfold find_path_fuel, mbind, gets.
  set (e := (initial_priority alg (start self) (end_ self), start self, 0)).
  assert (pq_items (pq_put e pq_new) = [e]) as Hitems.
  { apply Permutation_singleton_r. by rewrite pq_put_items, pq_new_items. }
  destruct (pq_get_is_Some (pq_put e pq_new)) as (e' & q & Hget).
  { by rewrite Hitems. }
  destruct (items_get _ _ _ Hget) as (Hin & _ & Hlen).
  assert (e' = e) as ->.
  { apply list_elem_of_singleton. rewrite <- Hitems. apply Hin. by left. }
  assert (pq_items q = []) as Hq.
  { rewrite Hitems in Hlen. by destruct (pq_items q). }
  destruct fuel as [|[|fuel]]; try lia.
  cbn [search_loop frontier]. rewrite pq_empty_false by (by rewrite Hitems).
  unfold mbind, search_iter. cbn [frontier visited]. rewrite Hget. unfold e at 1.
  rewrite decide_False by apply not_elem_of_empty.
  unfold mbind. destruct (start self) as [r c] eqn:Hs.
  cbn [fst snd]. rewrite (grid_at_ok self r c 1 Hwall).
  rewrite decide_True by done. unfold mret.
  cbn [frontier]. apply pq_empty_items in Hq as ->.
  cbn [came_from explored reconstruct].
  destruct (decide (end_ self = (r, c))) as [->|Hne].
  - rewrite lookup_singleton_eq. cbn. rewrite decide_True by done. unfold mbind.
    rewrite (grid_at_ok self r c 1 Hwall). by rewrite decide_True.
  - rewrite lookup_singleton_ne by done. cbn. by rewrite decide_False.
Qed.

End Fuel.

(** ** The result does not depend on the queue *)

Section Independence.
Context (PQ1 PQ2 : PriorityQueue).

(** Two search states that differ at most in how their queues lay out the
    same bag of entries. *)
Definition same_state (st1 : @search_state PQ1) (st2 : @search_state PQ2) : Prop :=
  explored st1 = explored st2 /\
  pq_items (frontier st1) ≡ₚ pq_items (frontier st2) /\
  came_from st1 = came_from st2 /\
  cost_so_far st1 = cost_so_far st2 /\
  visited st1 = visited st2.

Definition same_control (c1 : @control PQ1) (c2 : @control PQ2) : Prop :=
  match c1, c2 with
  | Continue st1, Continue st2 => same_state st1 st2
  | Break st1, Break st2 => same_state st1 st2
  | _, _ => False
  end.

Definition same_result {A B} (R : A -> B -> Prop)
    (r1 : result (A * visualizer)) (r2 : result (B * visualizer)) : Prop :=
  match r1, r2 with
  | Ok (a, self1), Ok (b, self2) => R a b /\ self1 = self2
  | Err e1, Err e2 => e1 = e2
  | _, _ => False
  end.

Lemma pq_get_same (q1 : @pq PQ1) (q2 : @pq PQ2) :
  pq_items q1 ≡ₚ pq_items q2 ->
  match pq_get q1, pq_get q2 with
  | Some (e1, q1'), Some (e2, q2') => e1 = e2 /\ pq_items q1' ≡ₚ pq_items q2'
  | None, None => True
  | _, _ => False
  end.
Proof.
  intros Hperm.
  destruct (pq_get q1) as [[e1 q1']|] eqn:H1, (pq_get q2) as [[e2 q2']|] eqn:H2.
  - destruct (items_get _ _ _ H1) as (Hin1 & Hmin1 & _).
    destruct (items_get _ _ _ H2) as (Hin2 & Hmin2 & _).
    assert (e1 = e2) as <-.
    { apply entry_le_antisym.
      - apply Hmin1. rewrite Hperm. apply Hin2. by left.
      - apply Hmin2. rewrite <- Hperm. apply Hin1. by left. }
    split; [done|].
    apply pq_get_some in H1 as [Hp1 _]. apply pq_get_some in H2 as [Hp2 _].
    apply (Permutation_cons_inv (a := e1)). by rewrite <- Hp1, <- Hp2.
  - apply pq_get_none in H2. apply pq_get_some in H1 as [Hp1 _].
    rewrite Hperm, H2 in Hp1. by apply Permutation_nil_cons in Hp1.
  - apply pq_get_none in H1. apply pq_get_some in H2 as [Hp2 _].
    rewrite <- Hperm, H1 in Hp2. by apply Permutation_nil_cons in Hp2.
  - done.
Qed.

Lemma pq_empty_same (q1 : @pq PQ1) (q2 : @pq PQ2) :
  pq_items q1 ≡ₚ pq_items q2 -> pq_empty q1 = pq_empty q2.
Proof.
  intros Hperm.
  destruct (pq_empty q1) eqn:H1, (pq_empty q2) eqn:H2; try done.
  - apply pq_empty_items in H1. rewrite H1 in Hperm.
    apply Permutation_nil_l in Hperm. symmetry in Hperm.
    apply pq_empty_items in Hperm. congruence.
  - apply pq_empty_items in H2. rewrite H2 in Hperm.
    apply Permutation_nil_r in Hperm. apply pq_empty_items in Hperm. congruence.
Qed.

Lemma relax_same alg t u v self st1 st2 :
  same_state st1 st2 ->
  same_result same_state (relax alg t u st1 v self) (relax alg t u st2 v self).
Proof.
  intros (HE & HF & Hcf & Hcs & HV). unfold relax, mbind. rewrite <- Hcs.
  destruct (grid_at v.1 v.2 self) as [[x self']|e]; [|done].
  destruct (decide (x = 1)); [by repeat split|].
  destruct (cost_so_far st1 !! u) as [cu|]; [|done].
  destruct (match cost_so_far st1 !! v with
            | Some old => bool_decide (cu + 1 < old)
            | None => true
            end); [|by repeat split].
  simpl. repeat split; simpl; try congruence.
  by rewrite !pq_put_items, HF.
Qed.

Lemma for_each_same {A S1 S2} (R : S1 -> S2 -> Prop) (l : list A)
    (body1 : S1 -> A -> M S1) (body2 : S2 -> A -> M S2) s1 s2 self :
  (forall s1 s2 x self, R s1 s2 -> same_result R (body1 s1 x self) (body2 s2 x self)) ->
  R s1 s2 ->
  same_result R (for_each l body1 s1 self) (for_each l body2 s2 self).
Proof.
  intros Hbody. revert s1 s2 self. induction l as [|x l IH]; intros s1 s2 self HR; simpl.
  - done.
  - unfold mbind. pose proof (Hbody s1 s2 x self HR) as Hx.
    destruct (body1 s1 x self) as [[a self1]|e1], (body2 s2 x self) as [[b self2]|e2];
      try done.
    destruct Hx as [Hab <-]. by apply IH.
Qed.

Lemma search_iter_same alg t self st1 st2 :
  same_state st1 st2 ->
  same_result same_control (search_iter alg t st1 self) (search_iter alg t st2 self).
Proof.
  intros (HE & HF & Hcf & Hcs & HV). unfold search_iter.
  pose proof (pq_get_same _ _ HF) as Hget.
  destruct (pq_get (frontier st1)) as [[[[p1 u1] g1] q1]|],
           (pq_get (frontier st2)) as [[[[p2 u2] g2] q2]|]; try done.
  destruct Hget as [[= <- <- <-] Hq]. rewrite <- HV.
  destruct (decide (u1 ∈ visited st1)).
  { simpl. repeat split; simpl; congruence. }
  unfold mbind. destruct (grid_at u1.1 u1.2 self) as [[x self']|e]; [|done].
  destruct (decide (x = 1)).
  { simpl. repeat split; simpl; congruence. }
  destruct (decide (u1 = t)).
  { simpl. repeat split; simpl; congruence. }
  destruct (get_neighbors u1.1 u1.2 self') as [[l self1]|e]; [|done].
  match goal with
  | |- same_result _ (match for_each l _ ?a self1 with _ => _ end)
                     (match for_each l _ ?b self1 with _ => _ end) =>
      pose proof (for_each_same same_state l (relax alg t u1) (relax alg t u1) a b self1
                    (fun s1 s2 x self H => relax_same alg t u1 x self s1 s2 H)) as Hfe
  end.
  lapply Hfe; [|repeat split; simpl; congruence]. clear Hfe. intros Hfe.
  match type of Hfe with
  | same_result _ ?r1 ?r2 => destruct r1 as [[a self2]|e1], r2 as [[b self3]|e2]
  end; done.
Qed.

Lemma search_loop_same fuel alg t self st1 st2 :
  same_state st1 st2 ->
  same_result same_state (search_loop fuel alg t st1 self)
    (search_loop fuel alg t st2 self).
Proof.
  revert st1 st2 self. induction fuel as [|fuel IH]; intros st1 st2 self Hs; [done|].
  simpl. rewrite (pq_empty_same (frontier st1) (frontier st2)) by apply Hs.
  destruct (pq_empty (frontier st2)); [by split|].
  unfold mbind. pose proof (search_iter_same alg t self st1 st2 Hs) as Hi.
  destruct (search_iter alg t st1 self) as [[c1 self1]|e1],
           (search_iter alg t st2 self) as [[c2 self2]|e2]; try done.
  destruct Hi as [Hc <-]. destruct c1 as [a|a], c2 as [b|b]; try done.
  by apply IH.
Qed.

Lemma find_path_fuel_same fuel alg self :
  find_path_fuel (PQ := PQ1) fuel alg self = find_path_fuel (PQ := PQ2) fuel alg self.
Proof.
  unfold find_path_fuel, mbind, gets.
  match goal with
  | |- match search_loop _ _ _ ?a _ with _ => _ end =
       match search_loop _ _ _ ?b _ with _ => _ end =>
      pose proof (search_loop_same fuel alg (end_ self) self a b) as Hl
  end.
  lapply Hl.
  2:{ repeat split; simpl. by rewrite !pq_put_items, !pq_new_items. }
  clear Hl. intros Hl.
  match type of Hl with
  | same_result _ ?r1 ?r2 => destruct r1 as [[a self2]|e1], r2 as [[b self3]|e2]
  end; try done; [|congruence].
  destruct Hl as [(HE & _ & Hcf & _ & _) <-]. by rewrite HE, Hcf.
Qed.

End Independence.

(** ** Any other algorithm name selects the greedy strategy *)

Section Fallback.
Context `{PQ : PriorityQueue}.
Variable alg : string.
Hypothesis Hastar : alg <> "astar".
Hypothesis Hdijkstra : alg <> "dijkstra".

Lemma priority_of_fallback c h : priority_of alg c h = priority_of "greedy" c h.
Proof. unfold priority_of. by rewrite !decide_False by done. Qed.

Lemma initial_priority_fallback a b :
  initial_priority alg a b = initial_priority "greedy" a b.
Proof. unfold initial_priority. by rewrite !decide_False by done. Qed.

Lemma relax_fallback t u st v self :
  relax alg t u st v self = relax "greedy" t u st v self.
Proof.
  unfold relax, mbind.
  destruct (grid_at v.1 v.2 self) as [[x self']|e]; [|done].
  destruct (decide (x = 1)); [done|].
  destruct (cost_so_far st !! u) as [cu|]; [|done].
  by rewrite priority_of_fallback.
Qed.

Lemma for_each_ext {A S} (l : list A) (body1 body2 : S -> A -> M S) s self :
  (forall s x self, body1 s x self = body2 s x self) ->
  for_each l body1 s self = for_each l body2 s self.
Proof.
  intros Hbody. revert s self. induction l as [|x l IH]; intros s self; simpl; [done|].
  unfold mbind. rewrite Hbody. destruct (body2 s x self) as [[s' self']|e]; [|done].
  apply IH.
Qed.

Lemma search_iter_fallback t st self :
  search_iter alg t st self = search_iter "greedy" t st self.
Proof.
  unfold search_iter.
  destruct (pq_get (frontier st)) as [[[[p u] g] q]|]; [|done].
  destruct (decide (u ∈ visited st)); [done|].
  unfold mbind. destruct (grid_at u.1 u.2 self) as [[x self1]|e]; [|done].
  destruct (decide (x = 1)); [done|].
  destruct (decide (u = t)); [done|].
  destruct (get_neighbors u.1 u.2 self1) as [[l self2]|e]; [|done].
  by rewrite (for_each_ext l (relax alg t u) (relax "greedy" t u))
    by (intros; apply relax_fallback).
Qed.

Lemma search_loop_fallback fuel t st self :
  search_loop fuel alg t st self = search_loop fuel "greedy" t st self.
Proof.
  revert st self. induction fuel as [|fuel IH]; intros st self; simpl; [done|].
  destruct (pq_empty (frontier st)); [done|].
  unfold mbind. rewrite search_iter_fallback.
  by destruct (search_iter "greedy" t st self) as [[[st'|st'] self']|e].
Qed.

Lemma find_path_fuel_fallback fuel self :
  find_path_fuel fuel alg self = find_path_fuel fuel "greedy" self.
Proof.
  unfold find_path_fuel, mbind, gets.
  by rewrite initial_priority_fallback, search_loop_fallback.
Qed.

End Fallback.

(** ** What [find_path] returns *)

Section Outcome.
Context `{PQ : PriorityQueue}.

Lemma find_path_outcome self alg :
  grid_shape self -> passable self (start self) ->
  exists ex, head ex = Some (start self) /\ NoDup ex /\
    (((end_ self ∉ ex) /\
      (forall c, reachable self (start self) c -> c ∈ ex) /\
      forall fuel, (search_fuel self <= fuel)%nat ->
        find_path_fuel fuel alg self = Ok ((None, ex), self)) \/
     (exists l, connects self (start self) (end_ self) l /\
        (optimal_alg alg ->
         forall q, connects self (start self) (end_ self) q ->
           (edges l <= edges q)%nat) /\
        forall fuel, (search_fuel self <= fuel)%nat ->
          find_path_fuel fuel alg self = Ok ((Some l, ex), self))).
Proof.
  intros Hshape Hstart.
  destruct (decide (optimal_alg alg)) as [Hopt|Hopt].
  - destruct (find_path_fuel_run self alg Hshape Hstart
                (inv_opt self alg None []) (cost_optimal self) (search_fuel self))
      as (st & I & Hhead & Hcases).
    + intros st p u g q HI HJ Hget. by eapply iter_result_opt.
    + by apply init_state_opt.
    + done.
    + exists (explored st). split; [done|]. split; [apply (ic_nodup _ _ _ _ _ I)|].
      destruct Hcases as [(Ht & Hreach & Hrun)|(Hlast & HQ & l & k & Hk & Hconn & Hle & Hrun)].
      * left. split; [done|]. split; [done|].
        intros fuel Hfuel. by eapply find_path_fuel_mono.
      * right. exists l. split; [done|]. split.
        -- intros _ q Hq. pose proof (HQ k q Hk Hq). lia.
        -- intros fuel Hfuel. by eapply find_path_fuel_mono.
  - destruct (find_path_fuel_run self alg Hshape Hstart
                (fun _ => True) (fun _ => True) (search_fuel self))
      as (st & I & Hhead & Hcases).
    + intros st p u g q _ _ _. by destruct (iter_result self alg st u q).
    + done.
    + done.
    + exists (explored st). split; [done|]. split; [apply (ic_nodup _ _ _ _ _ I)|].
      destruct Hcases as [(Ht & Hreach & Hrun)|(Hlast & HQ & l & k & Hk & Hconn & Hle & Hrun)].
      * left. split; [done|]. split; [done|].
        intros fuel Hfuel. by eapply find_path_fuel_mono.
      * right. exists l. split; [done|]. split; [done|].
        intros fuel Hfuel. by eapply find_path_fuel_mono.
Qed.

End Outcome.

(** ** Further facts used by the properties *)

Lemma neighbors_ext self other c :
  rows other = rows self -> cols other = cols self -> grid other = grid self ->
  neighbors other c = neighbors self c.
Proof.
  intros Hr Hc Hg. unfold neighbors. apply list_filter_iff. intros x.
  unfold passable, in_bounds, is_wall, cell_value. by rewrite Hr, Hc, Hg.
Qed.

Lemma search_fuel_ge self : in_bounds self (start self) -> (2 <= search_fuel self)%nat.
Proof.
  unfold search_fuel. intros [? ?].
  assert (0 <= rows self * cols self) by nia. lia.
Qed.

Lemma adjacent4_sym a b : adjacent4 a b -> adjacent4 b a.
Proof. unfold adjacent4. lia. Qed.

Section StartIsEnd.
Context `{PQ : PriorityQueue}.

Lemma find_path_fuel_start_is_end alg fuel self :
  (1 <= fuel)%nat ->
  grid_shape self -> passable self (start self) ->
  start self = end_ self ->
  find_path_fuel fuel alg self = Ok ((Some [start self], [start self]), self).
Proof.
  intros Hfuel Hshape Hstart Heq. unfold find_path_fuel, mbind, gets.
  rewrite <- Heq.
  set (e := (initial_priority alg (start self) (start self), start self, 0)).
  assert (pq_items (pq_put e pq_new) = [e]) as Hitems.
  { apply Permutation_singleton_r. by rewrite pq_put_items, pq_new_items. }
  destruct (pq_get_is_Some (pq_put e pq_new)) as (e' & q & Hget).
  { by rewrite Hitems. }
  destruct (items_get _ _ _ Hget) as (Hin & _ & _).
  assert (e' = e) as ->.
  { apply list_elem_of_singleton. rewrite <- Hitems. apply Hin. by left. }
  destruct (passable_value self (start self) Hshape Hstart) as (x & Hx & Hx1).
  destruct fuel as [|fuel]; [lia|].
  cbn [search_loop frontier]. rewrite pq_empty_false by (by rewrite Hitems).
  unfold mbind, search_iter. cbn [frontier visited]. rewrite Hget. unfold e at 1.
  rewrite decide_False by apply not_elem_of_empty.
  unfold mbind. destruct (start self) as [r c] eqn:Hs.
  cbn [fst snd]. rewrite (grid_at_ok self r c x Hx).
  rewrite decide_False by done. rewrite decide_True by done. unfold mret.
  cbn [came_from explored reconstruct]. rewrite lookup_singleton_eq.
  cbn [default id].
  assert (reconstruct fuel {[(r, c) := None]} None ([] ++ [(r, c)]) self
          = Ok ([(r, c)], self)) as -> by (by destruct fuel).
  cbn. rewrite decide_True by done. unfold mbind.
  rewrite (grid_at_ok self r c x Hx). by rewrite decide_False.
Qed.

End StartIsEnd.

(** The object once [__init__] has run [create_maze]. *)
Definition default_maze : visualizer :=
  match create_maze init_fields with
  | Ok (_, self) => self
  | Err _ => init_fields
  end.

Lemma create_maze_default : create_maze init_fields = Ok (tt, default_maze).
Proof. vm_compute. reflexivity. Qed.

(** A two-by-two grid with one wall, on which the properties are tried. *)
Definition small_grid : visualizer :=
  Visualizer 2 2 [[2; 0]; [1; 3]] (0, 0) (1, 1) [] [] 0.

(** The path and the explored sequence of a run, for reading results off. *)
Definition result_path (r : result ((option (list cell) * list cell) * visualizer))
    : list cell :=
  match r with
  | Ok ((Some p, _), _) => p
  | _ => []
  end.

Definition result_explored (r : result ((option (list cell) * list cell) * visualizer))
    : list cell :=
  match r with
  | Ok ((_, ex), _) => ex
  | Err _ => []
  end.

(** ** Runs on concrete grids *)

(** The end cell walled off from the start. *)
Definition enclosed_grid : visualizer :=
  Visualizer 3 3 [[2; 1; 0]; [1; 1; 0]; [0; 0; 3]] (0, 0) (2, 2) [] [] 0.

Example enclosed_no_path :
  find_path (PQ := stack_pq) "greedy" enclosed_grid
    = Ok ((None, [(0, 0)]), enclosed_grid).
Proof. vm_compute. reflexivity. Qed.

(** Cells of the path and of the explored sequence on the maze of
    [create_maze], per strategy. *)
Example maze_counts :
  let count alg :=
    let r := find_path (PQ := stack_pq) alg default_maze in
    (length (result_path r), length (result_explored r)) in
  count "astar" = (30, 77)%nat /\ count "dijkstra" = (30, 153)%nat /\
  count "greedy" = (30, 30)%nat.
Proof. vm_compute. done. Qed.

(** A grid with a short line makes an index operation raise, and a start
    cell holding a wall is skipped, which leaves nothing explored. *)
Example ragged_grid_raises :
  find_path (PQ := stack_pq) "astar"
    (Visualizer 2 2 [[2; 0]; [0]] (0, 0) (1, 1) [] [] 0) = Err IndexError.
Proof. vm_compute. reflexivity. Qed.

Example start_on_wall :
  let self := Visualizer 2 2 [[1; 0]; [0; 3]] (0, 0) (1, 1) [] [] 0 in
  find_path (PQ := stack_pq) "astar" self = Ok ((None, []), self).
Proof. vm_compute. reflexivity. Qed.

(** * The properties *)

(** C5. On a rectangular grid, [get_neighbors] at an in-bounds cell returns
    the east, south, west and north cells, in this order, keeping those that
    are inside the grid and hold no wall: at most four cells, each in
    bounds and not a wall. The object is not written, and the result is the
    same for any object with the same [rows], [cols] and [grid]. *)
Theorem get_neighbors_spec (self : visualizer) (row col : Z) :
  grid_shape self -> in_bounds self (row, col) ->
  exists l,
    get_neighbors row col self = Ok (l, self) /\
    l = filter (passable self)
          [(row, col + 1); (row + 1, col); (row, col - 1); (row - 1, col)] /\
    (length l <= 4)%nat /\
    (forall c, c ∈ l -> in_bounds self c /\ ~ is_wall self c) /\
    (forall other, rows other = rows self -> cols other = cols self ->
       grid other = grid self -> get_neighbors row col other = Ok (l, other)).
Proof.
  intros Hshape _. exists (neighbors self (row, col)).
  split; [by apply get_neighbors_ok|]. split; [done|].
  split; [apply neighbors_length|]. split.
  - by intros c [_ ?]%elem_of_neighbors.
  - intros other Hr Hc Hg. rewrite <- (neighbors_ext self other) by done.
    apply get_neighbors_ok. unfold grid_shape. by rewrite Hr, Hc, Hg.
Qed.

Lemma get_neighbors_spec_witness :
  grid_shape small_grid /\ in_bounds small_grid (0, 0) /\
  get_neighbors 0 0 small_grid = Ok ([(0, 1)], small_grid).
Proof.
  assert (grid_shape small_grid) as Hs by (apply (bool_decide_unpack _); vm_compute; exact I).
  assert (in_bounds small_grid (0, 0)) as Hb by (unfold in_bounds; simpl; lia).
  split; [exact Hs|]. split; [exact Hb|].
  destruct (get_neighbors_spec small_grid 0 0 Hs Hb) as (l & Hrun & -> & _).
  exact Hrun.
Defined.

(** C1. When A* or Dijkstra returns a path on a well-formed grid, that path
    is a walk from [start] to [end] over 4-adjacent, in-bounds, non-wall
    cells, and no such walk has fewer edges. *)
Theorem find_path_shortest `{PQ : PriorityQueue} (self : visualizer)
    (alg : string) (p ex : list cell) (self' : visualizer) :
  well_formed self ->
  alg = "astar" \/ alg = "dijkstra" ->
  find_path alg self = Ok ((Some p, ex), self') ->
  connects self (start self) (end_ self) p /\
  forall q, connects self (start self) (end_ self) q -> (edges p <= edges q)%nat.
Proof.
  intros (Hshape & Hin & _) Halg Hrun. unfold find_path in Hrun.
  destruct (decide (is_wall self (start self))) as [Hwall|Hwall].
  { rewrite find_path_fuel_wall_start in Hrun; [done| by apply search_fuel_ge |done]. }
  destruct (find_path_outcome self alg Hshape (conj Hin Hwall))
    as (ex' & _ & _ & [(_ & _ & Hnone)|(l & Hconn & Hopt & Hsome)]).
  - rewrite Hnone in Hrun by done. done.
  - rewrite Hsome in Hrun by done. injection Hrun as <- _ _. auto.
Qed.

Lemma find_path_shortest_witness :
  well_formed small_grid /\
  find_path (PQ := stack_pq) "astar" small_grid
    = Ok ((Some [(0, 0); (0, 1); (1, 1)], [(0, 0); (0, 1); (1, 1)]), small_grid) /\
  connects small_grid (0, 0) (1, 1) [(0, 0); (0, 1); (1, 1)].
Proof.
  assert (well_formed small_grid) as Hwf by (apply (bool_decide_unpack _); vm_compute; exact I).
  assert (find_path (PQ := stack_pq) "astar" small_grid
    = Ok ((Some [(0, 0); (0, 1); (1, 1)], [(0, 0); (0, 1); (1, 1)]), small_grid))
    as Hrun by (vm_compute; reflexivity).
  split; [exact Hwf|]. split; [exact Hrun|].
  exact (proj1 (find_path_shortest small_grid "astar" _ _ _ Hwf (or_introl eq_refl) Hrun)).
Defined.

(** C2. A path returned by any of the three strategies on a well-formed
    grid begins at [start], ends at [end], steps only between 4-adjacent
    cells each of which [get_neighbors] lists for the other, and holds no
    wall. *)
Theorem find_path_valid `{PQ : PriorityQueue} (self : visualizer)
    (alg : string) (p ex : list cell) (self' : visualizer) :
  well_formed self ->
  find_path alg self = Ok ((Some p, ex), self') ->
  head p = Some (start self) /\
  last p = Some (end_ self) /\
  (forall (i : nat) a b, p !! i = Some a -> p !! S i = Some b ->
     adjacent4 a b /\
     (exists la, get_neighbors a.1 a.2 self = Ok (la, self) /\ b ∈ la) /\
     (exists lb, get_neighbors b.1 b.2 self = Ok (lb, self) /\ a ∈ lb)) /\
  (forall c, c ∈ p -> ~ is_wall self c).
Proof.
  intros (Hshape & Hin & _) Hrun. unfold find_path in Hrun.
  destruct (decide (is_wall self (start self))) as [Hwall|Hwall].
  { rewrite find_path_fuel_wall_start in Hrun; [done| by apply search_fuel_ge |done]. }
  destruct (find_path_outcome self alg Hshape (conj Hin Hwall))
    as (ex' & _ & _ & [(_ & _ & Hnone)|(l & Hconn & _ & Hsome)]).
  { rewrite Hnone in Hrun by done. done. }
  rewrite Hsome in Hrun by done. injection Hrun as <- _ _.
  destruct Hconn as ((_ & Hpass & Hadj) & Hhead & Hlast).
  split; [done|]. split; [done|]. split.
  - intros i a b Ha Hb. pose proof (Hadj i a b Ha Hb) as Hab.
    assert (passable self a) by (by eapply Hpass, list_elem_of_lookup_2).
    assert (passable self b) by (by eapply Hpass, list_elem_of_lookup_2).
    split; [done|]. split.
    + exists (neighbors self a). destruct a as [r c].
      split; [by apply get_neighbors_ok|]. by apply elem_of_neighbors.
    + exists (neighbors self b). destruct b as [r c].
      split; [by apply get_neighbors_ok|].
      apply elem_of_neighbors. split; [by apply adjacent4_sym|done].
  - intros c Hc. by apply Hpass.
Qed.

Lemma find_path_valid_witness :
  well_formed small_grid /\
  find_path (PQ := stack_pq) "greedy" small_grid
    = Ok ((Some [(0, 0); (0, 1); (1, 1)], [(0, 0); (0, 1); (1, 1)]), small_grid) /\
  last [(0, 0); (0, 1); (1, 1)] = Some (end_ small_grid).
Proof.
  assert (well_formed small_grid) as Hwf
    by (apply (bool_decide_unpack _); vm_compute; exact I).
  assert (find_path (PQ := stack_pq) "greedy" small_grid
    = Ok ((Some [(0, 0); (0, 1); (1, 1)], [(0, 0); (0, 1); (1, 1)]), small_grid))
    as Hrun by (vm_compute; reflexivity).
  split; [exact Hwf|]. split; [exact Hrun|].
  exact (proj1 (proj2 (find_path_valid small_grid "greedy" _ _ _ Hwf Hrun))).
Defined.

(** The grid of [start_on_wall] meets every condition on a grid but has
    its start cell on a wall: the search returns without a path and with
    nothing explored, so the explored sequence of a failed search can be
    empty. *)
Lemma wall_start_explores_nothing :
  let self := Visualizer 2 2 [[1; 0]; [0; 3]] (0, 0) (1, 1) [] [] 0 in
  well_formed self /\
  find_path (PQ := stack_pq) "astar" self = Ok ((None, []), self) /\
  ~ (exists p ex,
       find_path (PQ := stack_pq) "astar" self = Ok ((p, ex), self) /\
       (p = None <-> ~ reachable self (start self) (end_ self)) /\
       (p = None ->
          ex <> [] /\ forall c, reachable self (start self) c -> c ∈ ex)).
Proof.
  intros self.
  assert (find_path (PQ := stack_pq) "astar" self = Ok ((None, []), self))
    as Hrun by (vm_compute; reflexivity).
  split; [apply (bool_decide_unpack _); vm_compute; exact I|].
  split; [exact Hrun|].
  intros (p & ex & Hrun' & _ & Hnone).
  rewrite Hrun in Hrun'. injection Hrun' as <- <-.
  by destruct (Hnone eq_refl) as [Hne _].
Qed.

(** C3, amended. On every grid (rectangular, [start] and [end] among its
    cells), [find_path] returns without raising, under each strategy and
    for every budget from [search_fuel] on; its path is [None] exactly
    when no walk over 4-adjacent non-wall cells leads from [start] to
    [end]; the explored sequence is returned in either case, and when the
    path is [None] it holds every cell such a walk reaches from [start].
    It is then not empty unless [start] itself holds a wall, in which
    case nothing is explored. *)
Theorem find_path_total `{PQ : PriorityQueue} (self : visualizer) (alg : string) :
  well_formed self ->
  exists p ex,
    find_path alg self = Ok ((p, ex), self) /\
    (forall fuel, (search_fuel self <= fuel)%nat ->
       find_path_fuel fuel alg self = Ok ((p, ex), self)) /\
    (p = None <-> ~ reachable self (start self) (end_ self)) /\
    (p = None ->
       (ex <> [] <-> ~ is_wall self (start self)) /\
       forall c, reachable self (start self) c -> c ∈ ex).
Proof.
  intros (Hshape & Hin & _).
  destruct (decide (is_wall self (start self))) as [Hwall|Hwall].
  - assert (forall c, ~ reachable self (start self) c) as Hnone.
    { intros c (l & (_ & Hpass & _) & Hhead & _).
      destruct l as [|a l]; [done|]. injection Hhead as ->.
      destruct (Hpass (start self)) as [_ Hfree]; [by left|done]. }
    assert (forall fuel, (search_fuel self <= fuel)%nat ->
              find_path_fuel fuel alg self = Ok ((None, []), self)) as Hrun.
    { intros fuel Hfuel. apply find_path_fuel_wall_start; [|done].
      pose proof (search_fuel_ge self Hin). lia. }
    exists None, []. split; [by apply Hrun|]. split; [done|]. split.
    + split; [|done]. intros _. apply Hnone.
    + intros _. split; [by split|]. intros c Hc. by destruct (Hnone c).
  - destruct (find_path_outcome self alg Hshape (conj Hin Hwall))
      as (ex & Hhead & _ & [(Ht & Hreach & Hnone)|(l & Hconn & _ & Hsome)]).
    + exists None, ex. split; [by apply Hnone|]. split; [done|]. split.
      * split; [|done]. intros _ Hr. by apply Ht, Hreach.
      * intros _. split; [|done]. split; [done|]. intros _. by destruct ex.
    + exists (Some l), ex. split; [by apply Hsome|]. split; [done|]. split.
      * split; [done|]. intros Hr. exfalso. apply Hr. by exists l.
      * done.
Qed.

Lemma find_path_total_witness :
  well_formed enclosed_grid /\
  exists p ex, find_path (PQ := stack_pq) "dijkstra" enclosed_grid
                 = Ok ((p, ex), enclosed_grid).
Proof.
  assert (well_formed enclosed_grid) as Hwf
    by (apply (bool_decide_unpack _); vm_compute; exact I).
  split; [exact Hwf|].
  destruct (find_path_total (PQ := stack_pq) enclosed_grid "dijkstra" Hwf)
    as (p & ex & Hrun & _).
  exists p, ex. exact Hrun.
Defined.


(** C6. On a well-formed grid whose [start] is not a wall, the explored
    sequence [find_path] returns begins with [start] and holds no cell
    twice. *)
Theorem explored_start_first_nodup `{PQ : PriorityQueue} (self : visualizer)
    (alg : string) (p : option (list cell)) (ex : list cell) (self' : visualizer) :
  well_formed self ->
  ~ is_wall self (start self) ->
  find_path alg self = Ok ((p, ex), self') ->
  head ex = Some (start self) /\ NoDup ex.
Proof.
  intros (Hshape & Hin & _) Hwall Hrun. unfold find_path in Hrun.
  destruct (find_path_outcome self alg Hshape (conj Hin Hwall))
    as (ex' & Hhead & Hnodup & [(_ & _ & Hnone)|(l & _ & _ & Hsome)]).
  - rewrite Hnone in Hrun by done. by injection Hrun as _ <- _.
  - rewrite Hsome in Hrun by done. by injection Hrun as _ <- _.
Qed.

Lemma explored_start_first_nodup_witness :
  well_formed small_grid /\ ~ is_wall small_grid (start small_grid) /\
  find_path (PQ := stack_pq) "dijkstra" small_grid
    = Ok ((Some [(0, 0); (0, 1); (1, 1)], [(0, 0); (0, 1); (1, 1)]), small_grid) /\
  NoDup [(0, 0); (0, 1); (1, 1)].
Proof.
  assert (well_formed small_grid) as Hwf
    by (apply (bool_decide_unpack _); vm_compute; exact I).
  assert (~ is_wall small_grid (start small_grid)) as Hw
    by (apply (bool_decide_unpack _); vm_compute; exact I).
  assert (find_path (PQ := stack_pq) "dijkstra" small_grid
    = Ok ((Some [(0, 0); (0, 1); (1, 1)], [(0, 0); (0, 1); (1, 1)]), small_grid))
    as Hrun by (vm_compute; reflexivity).
  split; [exact Hwf|]. split; [exact Hw|]. split; [exact Hrun|].
  exact (proj2 (explored_start_first_nodup small_grid "dijkstra" _ _ _ Hwf Hw Hrun)).
Defined.

(** A grid whose [start] and [end] are the same cell. *)
Definition loop_grid : visualizer :=
  Visualizer 2 2 [[0; 0]; [0; 2]] (1, 1) (1, 1) [] [] 0.

(** C7. On a well-formed grid whose [start] is not a wall and is also its
    [end], each strategy returns the one-cell path [[start]], and the
    explored sequence is [[start]] too. *)
Theorem find_path_start_is_end `{PQ : PriorityQueue} (self : visualizer)
    (alg : string) :
  well_formed self ->
  ~ is_wall self (start self) ->
  start self = end_ self ->
  find_path alg self = Ok ((Some [start self], [start self]), self).
Proof.
  intros (Hshape & Hin & _) Hwall Heq. unfold find_path.
  apply find_path_fuel_start_is_end; try done.
  pose proof (search_fuel_ge self Hin). lia.
Qed.

Lemma find_path_start_is_end_witness :
  well_formed loop_grid /\ ~ is_wall loop_grid (start loop_grid) /\
  start loop_grid = end_ loop_grid /\
  find_path (PQ := stack_pq) "greedy" loop_grid
    = Ok ((Some [(1, 1)], [(1, 1)]), loop_grid).
Proof.
  assert (well_formed loop_grid) as Hwf
    by (apply (bool_decide_unpack _); vm_compute; exact I).
  assert (~ is_wall loop_grid (start loop_grid)) as Hw
    by (apply (bool_decide_unpack _); vm_compute; exact I).
  split; [exact Hwf|]. split; [exact Hw|]. split; [reflexivity|].
  exact (find_path_start_is_end (PQ := stack_pq) loop_grid "greedy" Hwf Hw eq_refl).
Defined.

(** C8. On the 15 x 20 maze that [create_maze] builds, with [start] at
    (1, 1) and [end] at (13, 18): A* returns a non-empty path from (1, 1)
    to (13, 18) through no wall; Dijkstra returns a path at least as long,
    having explored at least as many cells; greedy returns a walk from
    [start] to [end]. *)
Theorem maze_scenario `{PQ : PriorityQueue} :
  create_maze init_fields = Ok (tt, default_maze) /\
  rows default_maze = 15 /\ cols default_maze = 20 /\
  start default_maze = (1, 1) /\ end_ default_maze = (13, 18) /\
  exists pa ea pd ed pg eg,
    find_path "astar" default_maze = Ok ((Some pa, ea), default_maze) /\
    pa <> [] /\ head pa = Some (1, 1) /\ last pa = Some (13, 18) /\
    (forall c, c ∈ pa -> ~ is_wall default_maze c) /\
    find_path "dijkstra" default_maze = Ok ((Some pd, ed), default_maze) /\
    (length pa <= length pd)%nat /\ (length ea <= length ed)%nat /\
    find_path "greedy" default_maze = Ok ((Some pg, eg), default_maze) /\
    connects default_maze (1, 1) (13, 18) pg.
Proof.
  split; [apply create_maze_default|]. do 4 (split; [by vm_compute|]).
  exists (result_path (find_path (PQ := stack_pq) "astar" default_maze)),
         (result_explored (find_path (PQ := stack_pq) "astar" default_maze)),
         (result_path (find_path (PQ := stack_pq) "dijkstra" default_maze)),
         (result_explored (find_path (PQ := stack_pq) "dijkstra" default_maze)),
         (result_path (find_path (PQ := stack_pq) "greedy" default_maze)),
         (result_explored (find_path (PQ := stack_pq) "greedy" default_maze)).
  unfold find_path. rewrite !(find_path_fuel_same PQ stack_pq).
  split; [vm_compute; reflexivity|]. split; [by vm_compute|].
  split; [vm_compute; reflexivity|]. split; [vm_compute; reflexivity|].
  split.
  { apply Forall_forall. apply (bool_decide_unpack _). vm_compute. exact I. }
  split; [vm_compute; reflexivity|].
  split; [vm_compute; lia|]. split; [vm_compute; lia|].
  split; [vm_compute; reflexivity|].
  assert (grid_shape default_maze) as Hshape
    by (apply (bool_decide_unpack _); vm_compute; exact I).
  assert (passable default_maze (start default_maze)) as Hstart
    by (apply (bool_decide_unpack _); vm_compute; exact I).
  destruct (find_path_outcome (PQ := stack_pq) default_maze "greedy" Hshape Hstart)
    as (ex' & _ & _ & [(_ & _ & Hnone)|(l & Hconn & _ & Hsome)]).
  - specialize (Hnone (search_fuel default_maze) (le_n _)).
    vm_compute in Hnone. discriminate Hnone.
  - rewrite (Hsome (search_fuel default_maze) (le_n _)). exact Hconn.
Qed.

(** C9. [find_path] writes no field of the object: after a call that
    returns, the grid, its dimensions, [start] and [end] are what they
    were before, as is the rest of the object. *)
Theorem find_path_frame `{PQ : PriorityQueue} (self : visualizer) (alg : string)
    (r : option (list cell) * list cell) (self' : visualizer) :
  find_path alg self = Ok (r, self') ->
  grid self' = grid self /\ start self' = start self /\ end_ self' = end_ self /\
  self' = self.
Proof.
  unfold find_path. intros Hrun.
  apply read_only_find_path_fuel in Hrun as ->. done.
Qed.

Lemma find_path_frame_witness :
  find_path (PQ := stack_pq) "astar" small_grid
    = Ok ((Some [(0, 0); (0, 1); (1, 1)], [(0, 0); (0, 1); (1, 1)]), small_grid) /\
  grid small_grid = grid small_grid.
Proof.
  assert (find_path (PQ := stack_pq) "astar" small_grid
    = Ok ((Some [(0, 0); (0, 1); (1, 1)], [(0, 0); (0, 1); (1, 1)]), small_grid))
    as Hrun by (vm_compute; reflexivity).
  split; [exact Hrun|].
  exact (proj1 (find_path_frame small_grid "astar" _ _ Hrun)).
Defined.

(** C10. An algorithm name other than ["astar"] and ["dijkstra"] makes
    [find_path] do exactly what it does for ["greedy"]: same explored
    sequence, same path. *)
Theorem find_path_unknown_is_greedy `{PQ : PriorityQueue} (self : visualizer)
    (alg : string) :
  alg <> "astar" -> alg <> "dijkstra" ->
  find_path alg self = find_path "greedy" self.
Proof. intros Ha Hd. unfold find_path. by apply find_path_fuel_fallback. Qed.

Lemma find_path_unknown_is_greedy_witness :
  "bfs" <> "astar" /\ "bfs" <> "dijkstra" /\
  find_path (PQ := stack_pq) "bfs" small_grid
    = find_path (PQ := stack_pq) "greedy" small_grid.
Proof.
  assert ("bfs" <> "astar") as Ha by (apply (bool_decide_unpack _); vm_compute; exact I).
  assert ("bfs" <> "dijkstra") as Hd by (apply (bool_decide_unpack _); vm_compute; exact I).
  split; [exact Ha|]. split; [exact Hd|].
  exact (find_path_unknown_is_greedy (PQ := stack_pq) small_grid "bfs" Ha Hd).
Defined.

(** * Further properties of the engine *)

Section Trace.
Context `{PQ : PriorityQueue}.
Variable self : visualizer.
Variable alg : string.
Hypothesis Hshape : grid_shape self.
Hypothesis Hstart : passable self (start self).

(** The chain of predecessors read back from a node that was explored:
    besides being a walk, it stays inside the explored cells and meets no
    cell twice. *)
Lemma reconstruct_chain_explored pend todo st :
  inv_common self alg pend todo st ->
  forall fuel n k acc,
    cost_so_far st !! n = Some k -> (Z.to_nat k < fuel)%nat ->
    n ∈ explored st ->
    exists l, reconstruct fuel (came_from st) (Some n) acc self = Ok (acc ++ l, self) /\
      connects self (start self) n (reverse l) /\
      NoDup l /\
      (forall x, x ∈ l ->
         x ∈ explored st /\ exists cx, cost_so_far st !! x = Some cx /\ cx <= k).
Proof.
  intros I. induction fuel as [|fuel IH]; intros n k acc Hk Hfuel HnE; [lia|].
  simpl. destruct (ic_cost _ _ _ _ _ I n k Hk) as (Hk0 & [x Hx] & Hn).
  rewrite Hx; simpl. destruct x as [p|].
  - destruct (ic_from _ _ _ _ _ I n p Hx) as (HpE & Hnp & cn & cp & Hcn & Hcp & Hlt).
    assert (cn = k) as -> by congruence.
    assert (0 <= cp) by (by apply (ic_cost _ _ _ _ _ I) in Hcp as [[? ?] _]).
    destruct (IH p cp (acc ++ [n]) Hcp) as (l & Hrun & Hconn & Hnd & Hl); [lia|done|].
    exists (n :: l). split; [|split; [|split]].
    + rewrite Hrun. by rewrite <- app_assoc.
    + rewrite reverse_cons. by eapply connects_snoc.
    + apply NoDup_cons. split; [|done].
      intros Hin. destruct (Hl n Hin) as (_ & cx & Hcx & Hle).
      assert (cx = k) by congruence. lia.
    + intros x [->|Hin]%elem_of_cons.
      * split; [done|]. exists k. split; [done|lia].
      * destruct (Hl x Hin) as (? & cx & ? & ?). split; [done|].
        exists cx. split; [done|lia].
  - apply (ic_from_none _ _ _ _ _ I) in Hx as ->.
    exists [start self]. split; [|split; [|split]].
    + by destruct fuel.
    + by apply connects_single.
    + apply NoDup_singleton.
    + intros x ->%list_elem_of_singleton. split; [done|].
      exists k. split; [done|lia].
Qed.

(** Every explored cell can be walked to from [start]. *)
Lemma explored_reachable pend todo st c :
  inv_common self alg pend todo st -> c ∈ explored st ->
  reachable self (start self) c.
Proof.
  intros I Hc. destruct (ic_explored _ _ _ _ _ I c Hc) as (_ & _ & k & Hk & _).
  destruct (reconstruct_chain _ _ _ _ _ I (S (Z.to_nat k)) c k [] Hk)
    as (l & _ & Hconn & _); [lia|].
  by exists (reverse l).
Qed.

(** A run of [find_path] together with the state its loop ends in. *)
Lemma find_path_trace :
  exists st, inv_common self alg None [] st /\
    (((end_ self ∉ explored st) /\
      find_path alg self = Ok ((None, explored st), self)) \/
     (last (explored st) = Some (end_ self) /\
      exists l, find_path alg self = Ok ((Some (reverse l), explored st), self) /\
        connects self (start self) (end_ self) (reverse l) /\
        NoDup l /\ (forall x, x ∈ l -> x ∈ explored st))).
Proof.
  destruct (search_loop_run self alg Hshape (fun _ => True) (fun _ => True))
    with (fuel := search_fuel self) (st := init_state self alg)
    as (st & Hrun & I & Hend).
  - intros st p u g q _ _ _. by destruct (iter_result self alg st u q).
  - by apply init_state_inv.
  - done.
  - rewrite init_state_measure, search_fuel_cells by done. lia.
  - exists st. split; [done|].
    pose proof (search_fuel_cells self Hstart) as Hfuel.
    unfold find_path, find_path_fuel, mbind, gets.
    fold (init_state self alg). rewrite Hrun.
    destruct Hend as [[Ht Hq]|[Hlast _]].
    + left. split; [done|].
      assert (came_from st !! end_ self = None) as Hcf.
      { destruct (came_from st !! end_ self) as [x|] eqn:Hx; [|done].
        exfalso. apply Ht, (ic_visited _ _ _ _ _ I).
        destruct (decide (end_ self ∈ visited st)) as [|Hnv]; [done|].
        destruct (ic_queued _ _ _ _ _ I (end_ self)) as (p & g & Hin); [|done|].
        - apply (ic_dom _ _ _ _ _ I). eauto.
        - rewrite Hq in Hin. by apply elem_of_nil in Hin. }
      destruct (search_fuel self) as [|fuel]; [lia|]. simpl. rewrite Hcf; simpl.
      assert (reconstruct fuel (came_from st) None [end_ self] self
              = Ok ([end_ self], self)) as -> by (by destruct fuel).
      simpl. rewrite decide_False; [done|].
      intros Hts. apply Ht. rewrite Hts.
      apply (exhausted_reachable self alg st); [done|done|].
      exists [start self]. by apply connects_single.
    + right. split; [done|].
      assert (end_ self ∈ explored st) as HtE.
      { rewrite last_lookup in Hlast. by eapply list_elem_of_lookup_2. }
      destruct (ic_explored _ _ _ _ _ I _ HtE) as (_ & _ & k & Hk & Hklt).
      pose proof (explored_bound _ _ _ _ _ I) as Hb.
      assert (0 <= k) by (by apply (ic_cost _ _ _ _ _ I) in Hk as [[? ?] _]).
      destruct (reconstruct_chain_explored _ _ _ I (search_fuel self) (end_ self) k [] Hk)
        as (l & Hrec & Hconn & Hnd & Hl); [lia|done|].
      exists l. split; [|split; [done|split; [done|]]].
      * rewrite Hrec. simpl.
        destruct Hconn as (Hwalk & Hhead & _).
        destruct (reverse l) as [|first rest] eqn:Hrev; [done|].
        injection Hhead as ->. rewrite decide_True by done.
        rewrite (any_wall_passable self); [done|done|].
        by destruct Hwalk as (_ & ? & _).
      * intros x Hx. by apply Hl.
Qed.

End Trace.

Lemma cells_total_eq self :
  cells_total self = (Z.to_nat (rows self) * Z.to_nat (cols self))%nat.
Proof. unfold cells_total, all_cells. by rewrite length_prod, !length_seqZ. Qed.


(** X1. Whatever [find_path] explored can be walked to from [start] over
    4-adjacent non-wall cells; when no path is returned, the explored
    cells are exactly the cells that can be reached. *)
Theorem explored_exactly_reachable `{PQ : PriorityQueue} (self : visualizer)
    (alg : string) (p : option (list cell)) (ex : list cell) (self' : visualizer) :
  well_formed self ->
  ~ is_wall self (start self) ->
  find_path alg self = Ok ((p, ex), self') ->
  (forall c, c ∈ ex -> reachable self (start self) c) /\
  (p = None -> forall c, c ∈ ex <-> reachable self (start self) c).
Proof.
  intros (Hshape & Hin & _) Hwall Hrun.
  destruct (find_path_trace self alg Hshape (conj Hin Hwall)) as (st & I & Hcases).
  assert (ex = explored st) as ->.
  { destruct Hcases as [(_ & Hres)|(_ & l & Hres & _)]; congruence. }
  assert (forall c, c ∈ explored st -> reachable self (start self) c) as Hsound.
  { intros c Hc. by eapply explored_reachable. }
  split; [done|]. intros -> c. split; [by apply Hsound|].
  destruct (find_path_outcome self alg Hshape (conj Hin Hwall))
    as (ex' & _ & _ & [(_ & Hreach & Hnone)|(l & _ & _ & Hsome)]).
  - specialize (Hnone (search_fuel self) (le_n _)). unfold find_path in Hrun.
    assert (ex' = explored st) as -> by congruence. apply Hreach.
  - specialize (Hsome (search_fuel self) (le_n _)). unfold find_path in Hrun. congruence.
Qed.

Lemma explored_exactly_reachable_witness :
  well_formed enclosed_grid /\ ~ is_wall enclosed_grid (start enclosed_grid) /\
  find_path (PQ := stack_pq) "greedy" enclosed_grid
    = Ok ((None, [(0, 0)]), enclosed_grid) /\
  forall c, c ∈ [(0, 0)] -> reachable enclosed_grid (start enclosed_grid) c.
Proof.
  assert (well_formed enclosed_grid) as Hwf
    by (apply (bool_decide_unpack _); vm_compute; exact I).
  assert (~ is_wall enclosed_grid (start enclosed_grid)) as Hw
    by (apply (bool_decide_unpack _); vm_compute; exact I).
  assert (find_path (PQ := stack_pq) "greedy" enclosed_grid
    = Ok ((None, [(0, 0)]), enclosed_grid)) as Hrun by (vm_compute; reflexivity).
  split; [exact Hwf|]. split; [exact Hw|]. split; [exact Hrun|].
  exact (proj1 (explored_exactly_reachable enclosed_grid "greedy" _ _ _ Hwf Hw Hrun)).
Defined.

(** X2. A returned path visits no cell twice and runs through explored
    cells only, so it is no longer than the explored sequence, which then
    ends with [end]; when no path is returned, [end] was not explored. *)
Theorem path_within_explored `{PQ : PriorityQueue} (self : visualizer)
    (alg : string) (p : option (list cell)) (ex : list cell) (self' : visualizer) :
  well_formed self ->
  ~ is_wall self (start self) ->
  find_path alg self = Ok ((p, ex), self') ->
  match p with
  | Some l =>
      NoDup l /\ (forall c, c ∈ l -> c ∈ ex) /\
      (length l <= length ex)%nat /\ last ex = Some (end_ self)
  | None => end_ self ∉ ex
  end.
Proof.
  intros (Hshape & Hin & _) Hwall Hrun.
  destruct (find_path_trace self alg Hshape (conj Hin Hwall))
    as (st & I & [(Ht & Hres)|(Hlast & l & Hres & _ & Hnd & Hl)]).
  - rewrite Hres in Hrun. by injection Hrun as <- <- _.
  - rewrite Hres in Hrun. injection Hrun as <- <- _.
    assert (NoDup (reverse l)) as Hnd' by (by rewrite reverse_Permutation).
    assert (forall c, c ∈ reverse l -> c ∈ explored st) as Hsub.
    { intros c Hc. apply Hl. by apply elem_of_reverse. }
    split; [done|]. split; [done|]. split; [|done].
    by apply submseteq_length, NoDup_submseteq.
Qed.

Lemma path_within_explored_witness :
  well_formed small_grid /\ ~ is_wall small_grid (start small_grid) /\
  find_path (PQ := stack_pq) "greedy" small_grid
    = Ok ((Some [(0, 0); (0, 1); (1, 1)], [(0, 0); (0, 1); (1, 1)]), small_grid) /\
  NoDup [(0, 0); (0, 1); (1, 1)].
Proof.
  assert (well_formed small_grid) as Hwf
    by (apply (bool_decide_unpack _); vm_compute; exact I).
  assert (~ is_wall small_grid (start small_grid)) as Hw
    by (apply (bool_decide_unpack _); vm_compute; exact I).
  assert (find_path (PQ := stack_pq) "greedy" small_grid
    = Ok ((Some [(0, 0); (0, 1); (1, 1)], [(0, 0); (0, 1); (1, 1)]), small_grid))
    as Hrun by (vm_compute; reflexivity).
  split; [exact Hwf|]. split; [exact Hw|]. split; [exact Hrun|].
  exact (proj1 (path_within_explored small_grid "greedy" _ _ _ Hwf Hw Hrun)).
Defined.

(** X3. The explored sequence never holds more cells than the grid has,
    and every explored cell lies in the grid and holds no wall. *)
Theorem explored_bounded `{PQ : PriorityQueue} (self : visualizer)
    (alg : string) (p : option (list cell)) (ex : list cell) (self' : visualizer) :
  well_formed self ->
  ~ is_wall self (start self) ->
  find_path alg self = Ok ((p, ex), self') ->
  Z.of_nat (length ex) <= rows self * cols self /\
  forall c, c ∈ ex -> in_bounds self c /\ ~ is_wall self c.
Proof.
  intros (Hshape & Hin & _) Hwall Hrun.
  destruct (find_path_trace self alg Hshape (conj Hin Hwall)) as (st & I & Hcases).
  assert (ex = explored st) as ->.
  { destruct Hcases as [(_ & Hres)|(_ & l & Hres & _)]; congruence. }
  split.
  - pose proof (explored_bound _ _ _ _ _ I) as Hb. rewrite cells_total_eq in Hb.
    destruct Hin as [? ?]. nia.
  - intros c Hc. by apply (ic_explored _ _ _ _ _ I) in Hc as (_ & ? & _).
Qed.

Lemma explored_bounded_witness :
  well_formed small_grid /\ ~ is_wall small_grid (start small_grid) /\
  find_path (PQ := stack_pq) "dijkstra" small_grid
    = Ok ((Some [(0, 0); (0, 1); (1, 1)], [(0, 0); (0, 1); (1, 1)]), small_grid) /\
  Z.of_nat (length [(0, 0); (0, 1); (1, 1)]) <= rows small_grid * cols small_grid.
Proof.
  assert (well_formed small_grid) as Hwf
    by (apply (bool_decide_unpack _); vm_compute; exact I).
  assert (~ is_wall small_grid (start small_grid)) as Hw
    by (apply (bool_decide_unpack _); vm_compute; exact I).
  assert (find_path (PQ := stack_pq) "dijkstra" small_grid
    = Ok ((Some [(0, 0); (0, 1); (1, 1)], [(0, 0); (0, 1); (1, 1)]), small_grid))
    as Hrun by (vm_compute; reflexivity).
  split; [exact Hwf|]. split; [exact Hw|]. split; [exact Hrun|].
  exact (proj1 (explored_bounded small_grid "dijkstra" _ _ _ Hwf Hw Hrun)).
Defined.

(** What a returned result says about walks from [start] to [end]. *)
Lemma find_path_result_cases `{PQ : PriorityQueue} self alg p ex self' :
  grid_shape self -> passable self (start self) ->
  find_path alg self = Ok ((p, ex), self') ->
  (p = None /\ ~ reachable self (start self) (end_ self)) \/
  (exists l, p = Some l /\ connects self (start self) (end_ self) l /\
     (optimal_alg alg ->
      forall q, connects self (start self) (end_ self) q -> (edges l <= edges q)%nat)).
Proof.
  intros Hshape Hstart Hrun. unfold find_path in Hrun.
  destruct (find_path_outcome self alg Hshape Hstart)
    as (ex' & _ & _ & [(Ht & Hreach & Hnone)|(l & Hconn & Hopt & Hsome)]).
  - rewrite Hnone in Hrun by done. injection Hrun as <- _ _.
    left. split; [done|]. intros Hr. by apply Ht, Hreach.
  - rewrite Hsome in Hrun by done. injection Hrun as <- _ _.
    right. by exists l.
Qed.

(** X4. The three strategies agree on whether a path exists; the paths of
    A* and Dijkstra have the same number of edges, and the greedy path has
    at least as many. *)
Theorem strategies_agree `{PQ : PriorityQueue} (self : visualizer)
    (pa pd pg : option (list cell)) (ea ed eg : list cell)
    (sa sd sg : visualizer) :
  well_formed self ->
  ~ is_wall self (start self) ->
  find_path "astar" self = Ok ((pa, ea), sa) ->
  find_path "dijkstra" self = Ok ((pd, ed), sd) ->
  find_path "greedy" self = Ok ((pg, eg), sg) ->
  match pa, pd, pg with
  | Some la, Some ld, Some lg =>
      edges la = edges ld /\ (edges la <= edges lg)%nat
  | None, None, None => True
  | _, _, _ => False
  end.
Proof.
  intros (Hshape & Hin & _) Hwall Ha Hd Hg.
  pose proof (conj Hin Hwall : passable self (start self)) as Hstart.
  destruct (find_path_result_cases _ _ _ _ _ Hshape Hstart Ha)
    as [[-> Hna]|(la & -> & Hca & Hoa)];
  destruct (find_path_result_cases _ _ _ _ _ Hshape Hstart Hd)
    as [[-> Hnd]|(ld & -> & Hcd & Hod)];
  destruct (find_path_result_cases _ _ _ _ _ Hshape Hstart Hg)
    as [[-> Hng]|(lg & -> & Hcg & _)];
  try done; try (by (apply Hna || apply Hnd || apply Hng); eexists).
  specialize (Hoa (or_introl eq_refl)). specialize (Hod (or_intror eq_refl)).
  pose proof (Hoa ld Hcd). pose proof (Hod la Hca). pose proof (Hoa lg Hcg).
  split; lia.
Qed.

Lemma strategies_agree_witness :
  well_formed small_grid /\ ~ is_wall small_grid (start small_grid) /\
  edges [(0, 0); (0, 1); (1, 1)] = edges [(0, 0); (0, 1); (1, 1)].
Proof.
  assert (well_formed small_grid) as Hwf
    by (apply (bool_decide_unpack _); vm_compute; exact I).
  assert (~ is_wall small_grid (start small_grid)) as Hw
    by (apply (bool_decide_unpack _); vm_compute; exact I).
  assert (forall alg, In alg ["astar"; "dijkstra"; "greedy"] ->
    find_path (PQ := stack_pq) alg small_grid
    = Ok ((Some [(0, 0); (0, 1); (1, 1)], [(0, 0); (0, 1); (1, 1)]), small_grid))
    as Hrun.
  { intros alg [<-|[<-|[<-|[]]]]; vm_compute; reflexivity. }
  split; [exact Hwf|]. split; [exact Hw|].
  exact (proj1 (strategies_agree small_grid _ _ _ _ _ _ _ _ _ Hwf Hw
                  (Hrun "astar" (or_introl eq_refl))
                  (Hrun "dijkstra" (or_intror (or_introl eq_refl)))
                  (Hrun "greedy" (or_intror (or_intror (or_introl eq_refl)))))).
Defined.





(** X6. When [start] holds a wall the search gives up at once: no path,
    nothing explored. *)
Theorem find_path_start_on_wall `{PQ : PriorityQueue} (self : visualizer)
    (alg : string) :
  well_formed self ->
  is_wall self (start self) ->
  find_path alg self = Ok ((None, []), self).
Proof.
  intros (_ & Hin & _) Hwall. unfold find_path.
  apply find_path_fuel_wall_start; [by apply search_fuel_ge|done].
Qed.

Lemma find_path_start_on_wall_witness :
  let self := Visualizer 2 2 [[1; 0]; [0; 3]] (0, 0) (1, 1) [] [] 0 in
  well_formed self /\ is_wall self (start self) /\
  find_path (PQ := stack_pq) "dijkstra" self = Ok ((None, []), self).
Proof.
  intros self.
  assert (well_formed self) as Hwf
    by (apply (bool_decide_unpack _); vm_compute; exact I).
  assert (is_wall self (start self)) as Hw by (vm_compute; reflexivity).
  split; [exact Hwf|]. split; [exact Hw|].
  exact (find_path_start_on_wall (PQ := stack_pq) self "dijkstra" Hwf Hw).
Defined.

(** ** Exceptions *)

Lemma grid_at_unreadable self r c :
  cell_value self (r, c) = None -> grid_at r c self = Err IndexError.
Proof.
  unfold grid_at, cell_value; simpl.
  destruct (py_index (grid self) r) as [line|]; [|done]. by intros ->.
Qed.

Lemma grid_at_error self r c e : grid_at r c self = Err e -> e = IndexError.
Proof.
  unfold grid_at.
  destruct (py_index (grid self) r) as [line|]; [|congruence].
  destruct (py_index line c); congruence.
Qed.

Lemma get_neighbors_error self r c e :
  get_neighbors r c self = Err e -> e = IndexError.
Proof.
  unfold get_neighbors.
  assert (forall l acc, for_each l (probe r c) acc self = Err e -> e = IndexError) as H.
  { induction l as [|[dr dc] l IH]; intros acc; simpl; [done|].
    unfold mbind at 1. unfold probe at 1. unfold mbind, gets, mret.
    destruct (decide _); [|apply IH].
    destruct (grid_at (r + dr) (c + dc) self) as [[v self']|e'] eqn:Hg.
    - apply grid_at_value in Hg as [-> _]. destruct (decide (v <> 1)); apply IH.
    - apply grid_at_error in Hg as ->. congruence. }
  apply H.
Qed.

Section Errors.
Context `{PQ : PriorityQueue}.

(** Every node waiting in the queue has a recorded cost. *)
Definition costs_known (st : search_state) : Prop :=
  forall p n g, (p, n, g) ∈ pq_items (frontier st) -> is_Some (cost_so_far st !! n).

Lemma relax_error alg t u st v self :
  is_Some (cost_so_far st !! u) -> costs_known st ->
  match relax alg t u st v self with
  | Ok (st', _) => is_Some (cost_so_far st' !! u) /\ costs_known st'
  | Err e => e = IndexError
  end.
Proof.
  intros [cu Hcu] Hk. unfold relax, mbind.
  destruct (grid_at v.1 v.2 self) as [[x self']|e] eqn:Hg;
    [|by apply grid_at_error in Hg].
  destruct (decide (x = 1)) as [|Hx1]; [by eauto|]. rewrite Hcu.
  destruct (match cost_so_far st !! v with
            | Some old => bool_decide (cu + 1 < old)
            | None => true
            end); [|by eauto].
  simpl. split.
  - rewrite lookup_insert_is_Some. destruct (decide (v = u)); eauto.
  - unfold costs_known; simpl. intros p n g. rewrite items_put.
    intros [[= -> -> ->]|Hin].
    + rewrite lookup_insert_eq. eauto.
    + rewrite lookup_insert_is_Some. destruct (decide (v = n)); [by left|].
      right. split; [done|]. by eapply Hk.
Qed.

Lemma for_each_relax_error alg t u l st self :
  is_Some (cost_so_far st !! u) -> costs_known st ->
  match for_each l (relax alg t u) st self with
  | Ok (st', _) => costs_known st'
  | Err e => e = IndexError
  end.
Proof.
  revert st self. induction l as [|v l IH]; intros st self Hu Hk; simpl; [done|].
  unfold mbind. pose proof (relax_error alg t u st v self Hu Hk) as Hr.
  destruct (relax alg t u st v self) as [[st' self']|e]; [|done].
  destruct Hr. by apply IH.
Qed.

Lemma search_iter_error alg t st self :
  pq_items (frontier st) <> [] -> costs_known st ->
  match search_iter alg t st self with
  | Ok (Continue st', _) | Ok (Break st', _) => costs_known st'
  | Err e => e = IndexError
  end.
Proof.
  intros Hne Hk. unfold search_iter.
  destruct (pq_get_is_Some _ Hne) as ([[p u] g] & q & Hget). rewrite Hget.
  destruct (items_get _ _ _ Hget) as (Hitems & _ & _).
  assert (costs_known (SearchState (explored st) q (came_from st) (cost_so_far st)
                         (visited st))) as Hk'.
  { intros p' n g' Hin. apply (Hk p' n g'). apply Hitems. by right. }
  destruct (decide (u ∈ visited st)); [done|].
  unfold mbind.
  destruct (grid_at u.1 u.2 self) as [[x self']|e] eqn:Hg;
    [|by apply grid_at_error in Hg].
  destruct (decide (x = 1)); [done|].
  destruct (decide (u = t)); [done|].
  destruct (get_neighbors u.1 u.2 self') as [[l self'']|e] eqn:Hn;
    [|by apply get_neighbors_error in Hn].
  match goal with
  | |- context [for_each l _ ?a self''] =>
      pose proof (for_each_relax_error alg t u l a self'') as Hfe
  end.
  lapply Hfe; [|apply (Hk p u g), Hitems; by left]. clear Hfe. intros Hfe.
  specialize (Hfe Hk').
  by destruct (for_each l _ _ self'') as [[st' s3]|e].
Qed.

Lemma search_loop_error fuel alg t st self e :
  costs_known st ->
  search_loop fuel alg t st self = Err e -> e = IndexError \/ e = OutOfFuel.
Proof.
  revert st self. induction fuel as [|fuel IH]; intros st self Hk; simpl.
  { intros [= <-]. by right. }
  destruct (pq_empty (frontier st)) eqn:Hempty; [done|].
  assert (pq_items (frontier st) <> []) as Hne.
  { intros Hq. apply pq_empty_items in Hq. congruence. }
  unfold mbind. pose proof (search_iter_error alg t st self Hne Hk) as Hi.
  destruct (search_iter alg t st self) as [[[st'|st'] self']|e']; try done.
  - by apply IH.
  - intros [= <-]. by left.
Qed.

Lemma reconstruct_error fuel cf cur acc self e :
  reconstruct fuel cf cur acc self = Err e -> e = OutOfFuel.
Proof.
  revert cur acc. induction fuel as [|fuel IH]; intros [c|] acc; simpl; try done.
  - by intros [= <-].
  - apply IH.
Qed.

Lemma any_wall_error l self e : any_wall l self = Err e -> e = IndexError.
Proof.
  revert self. induction l as [|[r c] l IH]; intros self; simpl; [done|].
  unfold mbind. destruct (grid_at r c self) as [[x self']|e'] eqn:Hg.
  - destruct (decide (x = 1)); [done|apply IH].
  - apply grid_at_error in Hg as ->. congruence.
Qed.

End Errors.

(** X7. Whatever the object holds, the only exception [find_path] can
    raise is [IndexError], from reading the grid: the lookup
    [cost_so_far[current]] never misses its key, and [get] is never called
    on an empty queue. *)
Theorem find_path_only_index_error `{PQ : PriorityQueue} (fuel : nat)
    (alg : string) (self : visualizer) (e : error) :
  find_path_fuel fuel alg self = Err e -> e = IndexError \/ e = OutOfFuel.
Proof.
  unfold find_path_fuel, mbind, gets.
  match goal with
  | |- context [search_loop fuel alg (end_ self) ?a self] => set (st0 := a)
  end.
  assert (costs_known st0) as Hk.
  { intros p n g. unfold st0; simpl. rewrite pq_put_items, pq_new_items.
    intros [= -> -> ->]%list_elem_of_singleton. rewrite lookup_singleton_eq. eauto. }
  destruct (search_loop fuel alg (end_ self) st0 self) as [[st self1]|e1] eqn:Hloop.
  2:{ intros [= <-]. by eapply search_loop_error. }
  destruct (reconstruct fuel (came_from st) (Some (end_ self)) [] self1)
    as [[l self2]|e2] eqn:Hrec.
  2:{ intros [= <-]. right. by eapply reconstruct_error. }
  destruct (reverse l) as [|first rest]; [done|].
  destruct (decide (first = start self)); [|done].
  destruct (any_wall (first :: rest) self2) as [[[|] self3]|e3] eqn:Hw; try done.
  intros [= <-]. left. by eapply any_wall_error.
Qed.

Lemma find_path_only_index_error_witness :
  find_path_fuel (PQ := stack_pq) 10 "astar"
    (Visualizer 2 2 [[2; 0]; [0]] (0, 0) (1, 1) [] [] 0) = Err IndexError /\
  (IndexError = IndexError \/ IndexError = OutOfFuel).
Proof.
  assert (find_path_fuel (PQ := stack_pq) 10 "astar"
    (Visualizer 2 2 [[2; 0]; [0]] (0, 0) (1, 1) [] [] 0) = Err IndexError)
    as Hrun by (vm_compute; reflexivity).
  split; [exact Hrun|].
  exact (find_path_only_index_error 10 "astar" _ _ Hrun).
Defined.

(** X8. If the row of [start] lies past the last line of the grid, the
    first turn of the loop raises [IndexError]. *)
Theorem find_path_start_off_grid `{PQ : PriorityQueue} (alg : string)
    (self : visualizer) :
  0 <= rows self -> 0 <= cols self ->
  Z.of_nat (length (grid self)) <= (start self).1 ->
  find_path alg self = Err IndexError.
Proof.
  intros Hr Hc Hoff. unfold find_path.
  assert (1 <= search_fuel self)%nat as Hfuel by (unfold search_fuel; nia).
  destruct (search_fuel self) as [|fuel]; [lia|].
  unfold find_path_fuel, mbind, gets.
  set (e := (initial_priority alg (start self) (end_ self), start self, 0)).
  assert (pq_items (pq_put e pq_new) = [e]) as Hitems.
  { apply Permutation_singleton_r. by rewrite pq_put_items, pq_new_items. }
  destruct (pq_get_is_Some (pq_put e pq_new)) as (e' & q & Hget).
  { by rewrite Hitems. }
  destruct (items_get _ _ _ Hget) as (Hin & _ & _).
  assert (e' = e) as ->.
  { apply list_elem_of_singleton. rewrite <- Hitems. apply Hin. by left. }
  cbn [search_loop frontier]. rewrite pq_empty_false by (by rewrite Hitems).
  unfold mbind, search_iter. cbn [frontier visited]. rewrite Hget. unfold e at 1.
  rewrite decide_False by apply not_elem_of_empty.
  unfold mbind. rewrite grid_at_unreadable; [done|].
  unfold cell_value, py_index. cbn [fst snd].
  rewrite decide_True by lia. rewrite lookup_ge_None_2; [done|lia].
Qed.

Lemma find_path_start_off_grid_witness :
  let self := Visualizer 2 2 [[0; 0]; [0; 3]] (5, 0) (1, 1) [] [] 0 in
  0 <= rows self /\ 0 <= cols self /\
  Z.of_nat (length (grid self)) <= (start self).1 /\
  find_path (PQ := stack_pq) "greedy" self = Err IndexError.
Proof.
  intros self.
  assert (0 <= rows self) as H1 by (simpl; lia).
  assert (0 <= cols self) as H2 by (simpl; lia).
  assert (Z.of_nat (length (grid self)) <= (start self).1) as H3 by (simpl; lia).
  split; [exact H1|]. split; [exact H2|]. split; [exact H3|].
  exact (find_path_start_off_grid (PQ := stack_pq) "greedy" self H1 H2 H3).
Defined.

(** * Further properties of the grid model *)

Lemma neighbors_NoDup self c : NoDup (neighbors self c).
Proof.
  unfold neighbors. apply NoDup_filter.
  repeat (apply NoDup_cons; split;
          [rewrite ?elem_of_cons, elem_of_nil; intros H;
           repeat (destruct H as [H|H]; [injection H; lia|]); done|]).
  apply NoDup_nil_2.
Qed.

(** X9. On a rectangular grid the neighbour relation that [get_neighbors]
    computes is symmetric between cells that are in the grid and hold no
    wall; a cell is never its own neighbour, and no neighbour is listed
    twice. *)
Theorem get_neighbors_symmetric (self : visualizer) (a b : cell) (la : list cell) :
  grid_shape self ->
  in_bounds self a -> ~ is_wall self a ->
  get_neighbors a.1 a.2 self = Ok (la, self) ->
  NoDup la /\ (a ∉ la) /\
  (b ∈ la -> exists lb, get_neighbors b.1 b.2 self = Ok (lb, self) /\ a ∈ lb).
Proof.
  intros Hshape Hin Hwall Hrun. destruct a as [ar ac], b as [br bc].
  rewrite get_neighbors_ok in Hrun by done. injection Hrun as <-.
  split; [apply neighbors_NoDup|]. split.
  - intros Ha. by apply neighbors_ne in Ha.
  - intros [Hadj Hb]%elem_of_neighbors. exists (neighbors self (br, bc)).
    split; [by apply get_neighbors_ok|].
    apply elem_of_neighbors. split; [by apply adjacent4_sym|done].
Qed.

Lemma get_neighbors_symmetric_witness :
  grid_shape small_grid /\ in_bounds small_grid (0, 0) /\
  ~ is_wall small_grid (0, 0) /\
  get_neighbors 0 0 small_grid = Ok ([(0, 1)], small_grid) /\
  NoDup [((0, 1) : cell)].
Proof.
  assert (grid_shape small_grid) as Hs
    by (apply (bool_decide_unpack _); vm_compute; exact I).
  assert (in_bounds small_grid (0, 0)) as Hb
    by (apply (bool_decide_unpack _); vm_compute; exact I).
  assert (~ is_wall small_grid (0, 0)) as Hw
    by (apply (bool_decide_unpack _); vm_compute; exact I).
  assert (get_neighbors 0 0 small_grid = Ok ([(0, 1)], small_grid)) as Hrun
    by (vm_compute; reflexivity).
  split; [exact Hs|]. split; [exact Hb|]. split; [exact Hw|]. split; [exact Hrun|].
  exact (proj1 (get_neighbors_symmetric small_grid (0, 0) (0, 1) _ Hs Hb Hw Hrun)).
Defined.

(** X10. [get_neighbors] tests the bounds before it reads the grid: on a
    rectangular grid it returns for any pair of integers, also one outside
    the grid, lists only cells of the grid, and lists nothing when the
    pair is more than one step outside. *)
Theorem get_neighbors_off_grid (self : visualizer) (row col : Z) :
  grid_shape self ->
  exists l,
    get_neighbors row col self = Ok (l, self) /\
    (forall c, c ∈ l -> in_bounds self c /\ ~ is_wall self c) /\
    (row < -1 \/ rows self < row \/ col < -1 \/ cols self < col -> l = []).
Proof.
  intros Hshape. exists (neighbors self (row, col)).
  split; [by apply get_neighbors_ok|]. split.
  - by intros c [_ ?]%elem_of_neighbors.
  - intros Hfar. destruct (neighbors self (row, col)) as [|[r c] l] eqn:Hn; [done|].
    assert ((r, c) ∈ neighbors self (row, col)) as Hin by (rewrite Hn; by left).
    apply elem_of_neighbors in Hin as [Hadj [[? ?] _]].
    unfold adjacent4 in Hadj. simpl in *. lia.
Qed.

Lemma get_neighbors_off_grid_witness :
  grid_shape small_grid /\
  exists l, get_neighbors (-1) 0 small_grid = Ok (l, small_grid).
Proof.
  assert (grid_shape small_grid) as Hs
    by (apply (bool_decide_unpack _); vm_compute; exact I).
  split; [exact Hs|].
  destruct (get_neighbors_off_grid small_grid (-1) 0 Hs) as (l & Hrun & _).
  exists l. exact Hrun.
Defined.

(** ** Writing the grid *)

(** The fields that [grid_store] leaves alone. *)
Definition same_fields (self self' : visualizer) : Prop :=
  rows self' = rows self /\ cols self' = cols self /\
  start self' = start self /\ end_ self' = end_ self /\
  explored_nodes self' = explored_nodes self /\ path self' = path self /\
  animation_step self' = animation_step self.

Lemma same_fields_refl self : same_fields self self.
Proof. by repeat split. Qed.

Lemma same_fields_trans s1 s2 s3 :
  same_fields s1 s2 -> same_fields s2 s3 -> same_fields s1 s3.
Proof. unfold same_fields. intros (?&?&?&?&?&?&?) (?&?&?&?&?&?&?). repeat split; congruence. Qed.

(** An index Python accepts for a list of the given length. *)
Definition index_ok (n i : Z) : Prop := - n <= i < n.

Lemma py_index_Some {A} (l : list A) (i : Z) (x : A) :
  py_index l i = Some x -> index_ok (Z.of_nat (length l)) i.
Proof.
  unfold py_index, index_ok. repeat case_decide; try done.
  - intros Hlk%lookup_lt_Some. lia.
  - intros Hlk%lookup_lt_Some. lia.
Qed.

Lemma py_store_Some {A} (l : list A) (i : Z) (x : A) (l' : list A) :
  py_store l i x = Some l' ->
  index_ok (Z.of_nat (length l)) i /\ length l' = length l.
Proof.
  unfold py_store, index_ok.
  repeat case_decide; intros [= <-]; rewrite length_insert; lia.
Qed.

Lemma py_store_Forall {A} (P : A -> Prop) (l : list A) (i : Z) (x : A) (l' : list A) :
  py_store l i x = Some l' -> Forall P l -> P x -> Forall P l'.
Proof.
  unfold py_store. intros Hst Hl Hx.
  destruct (decide (0 <= i < Z.of_nat (length l))).
  - injection Hst as <-. by apply Forall_insert.
  - destruct (decide (- Z.of_nat (length l) <= i < 0)); [|done].
    injection Hst as <-. by apply Forall_insert.
Qed.

Lemma py_store_None {A} (l : list A) (i : Z) (x : A) :
  py_store l i x = None -> ~ index_ok (Z.of_nat (length l)) i.
Proof. unfold py_store, index_ok. repeat case_decide; try done. lia. Qed.

Lemma grid_store_error self r c v e : grid_store r c v self = Err e -> e = IndexError.
Proof.
  unfold grid_store.
  destruct (py_index (grid self) r) as [line|]; [|congruence].
  destruct (py_store line c v) as [line'|]; [|congruence].
  destruct (py_store (grid self) r line'); congruence.
Qed.

(** A store that returns was given indices Python accepts, and keeps the
    grid rectangular. *)
Lemma grid_store_inv self r c v u self' :
  grid_shape self ->
  grid_store r c v self = Ok (u, self') ->
  index_ok (rows self) r /\ index_ok (cols self) c /\
  same_fields self self' /\ grid_shape self'.
Proof.
  intros [Hlen Hall]. unfold grid_store.
  destruct (py_index (grid self) r) as [line|] eqn:Hline; [|done].
  destruct (py_store line c v) as [line'|] eqn:Hst; [|done].
  destruct (py_store (grid self) r line') as [g'|] eqn:Hg; [|done].
  intros [= <- <-].
  apply py_store_Some in Hst as [Hc Hlen'].
  assert (line ∈ grid self) as Hin.
  { unfold py_index in Hline. repeat case_decide; try done;
      by eapply list_elem_of_lookup_2. }
  rewrite Forall_forall in Hall. pose proof (Hall _ Hin) as Hl.
  pose proof (py_store_Some _ _ _ _ Hg) as [Hr Hlen''].
  split; [by rewrite <- Hlen|]. split; [by rewrite <- Hl|].
  split; [by repeat split|]. split; simpl; [lia|].
  eapply py_store_Forall; [exact Hg|by apply Forall_forall|]. simpl. lia.
Qed.

(** A store at a cell of the grid succeeds and changes that cell alone. *)
Lemma grid_store_ok self r c v :
  grid_shape self -> in_bounds self (r, c) ->
  exists self', grid_store r c v self = Ok (tt, self') /\
    forall x, in_bounds self x ->
      cell_value self' x = if decide (x = (r, c)) then Some v else cell_value self x.
Proof.
  intros [Hlen Hall] [Hr Hc]. simpl in Hr, Hc. unfold grid_store.
  destruct (py_index_in_range (grid self) r) as [line Hline]; [lia|].
  rewrite Hline.
  assert (grid self !! Z.to_nat r = Some line) as Hlk.
  { unfold py_index in Hline. by rewrite decide_True in Hline by lia. }
  assert (Z.of_nat (length line) = cols self) as Hl.
  { rewrite Forall_forall in Hall. apply Hall. by eapply list_elem_of_lookup_2. }
  unfold py_store. rewrite !decide_True by lia.
  eexists. split; [done|].
  intros [xr xc] [Hxr Hxc]. simpl in Hxr, Hxc.
  unfold cell_value, py_index; simpl. rewrite !length_insert.
  rewrite !decide_True by lia.
  destruct (decide ((xr, xc) = (r, c))) as [[= -> ->]|Hne].
  - rewrite list_lookup_insert_eq by lia. rewrite decide_True by lia.
    apply list_lookup_insert_eq. lia.
  - destruct (decide (xr = r)) as [->|Hrr].
    + rewrite list_lookup_insert_eq by lia. rewrite Hlk.
      rewrite !decide_True by lia.
      apply list_lookup_insert_ne. intros H. apply Hne. f_equal. lia.
    + rewrite list_lookup_insert_ne by lia. by rewrite decide_True by lia.
Qed.

Lemma grid_store_fields self r c v u self' :
  grid_store r c v self = Ok (u, self') -> same_fields self self'.
Proof.
  unfold grid_store.
  destruct (py_index (grid self) r) as [line|]; [|done].
  destruct (py_store line c v) as [line'|]; [|done].
  destruct (py_store (grid self) r line') as [g'|]; [|done].
  intros [= <- <-]. by repeat split.
Qed.

Lemma in_bounds_fields self self' c :
  same_fields self self' -> in_bounds self' c <-> in_bounds self c.
Proof. intros (Hr & Hc & _). unfold in_bounds. by rewrite Hr, Hc. Qed.

(** ** The maze of [create_maze] *)

(** A run of stores of the value 1, as the three loops of [create_maze]
    perform them. *)
Fixpoint paint (cells : list cell) : M unit :=
  match cells with
  | [] => mret tt
  | c :: cells' => run grid_store c.1 c.2 1; paint cells'
  end.

(** The object with its grid cleared, as the first statement of
    [create_maze] leaves it. *)
Definition blank (self : visualizer) : visualizer :=
  Visualizer (rows self) (cols self)
    (replicate (Z.to_nat (rows self)) (replicate (Z.to_nat (cols self)) 0))
    (start self) (end_ self) (explored_nodes self) (path self)
    (animation_step self).

(** The cells the three loops write, in the order they write them. *)
Definition maze_walls (nr nc : Z) : list cell :=
  (py_range 2 (nc - 2) ≫= fun i => [(2, i); (3, i); (8, i); (12, i)]) ++
  (py_range 2 (nr - 2) ≫= fun i => [(i, 5); (i, 10); (i, 15)]) ++
  (py_range 3 7 ≫= fun i => [(6, i); (10, i + 8)]).

(** The same cells, described by their coordinates. *)
Definition maze_wall_at (nr nc : Z) (c : cell) : Prop :=
  ((c.1 = 2 \/ c.1 = 3 \/ c.1 = 8 \/ c.1 = 12) /\ 2 <= c.2 < nc - 2) \/
  ((c.2 = 5 \/ c.2 = 10 \/ c.2 = 15) /\ 2 <= c.1 < nr - 2) \/
  (c.1 = 6 /\ 3 <= c.2 < 7) \/
  (c.1 = 10 /\ 11 <= c.2 < 15).

#[export] Instance maze_wall_at_dec nr nc c : Decision (maze_wall_at nr nc c).
Proof. unfold maze_wall_at. apply _. Defined.

Lemma elem_of_maze_walls nr nc c : c ∈ maze_walls nr nc <-> maze_wall_at nr nc c.
Proof.
  unfold maze_walls, maze_wall_at, py_range. destruct c as [r c]; cbn [fst snd].
  rewrite !elem_of_app, !list_elem_of_bind. split.
  - intros [(i & Hc & Hi%elem_of_seqZ)|[(i & Hc & Hi%elem_of_seqZ)|(i & Hc & Hi%elem_of_seqZ)]];
      rewrite ?elem_of_cons, elem_of_nil in Hc;
      repeat (destruct Hc as [[= -> ->]|Hc]; [lia|]); done.
  - intros [[Hr Hc]|[[Hc Hr]|[[-> Hc]|[-> Hc]]]].
    + left. exists c. rewrite elem_of_seqZ. split; [|lia].
      rewrite !elem_of_cons. destruct Hr as [-> | [-> | [-> | ->]]]; auto.
    + right; left. exists r. rewrite elem_of_seqZ. split; [|lia].
      rewrite !elem_of_cons. destruct Hc as [-> | [-> | ->]]; auto.
    + right; right. exists c. rewrite elem_of_seqZ. split; [|lia].
      rewrite !elem_of_cons. auto.
    + right; right. exists (c - 8). rewrite elem_of_seqZ. split; [|lia].
      rewrite !elem_of_cons. right; left. f_equal. lia.
Qed.

Lemma paint_app a b s :
  paint (a ++ b) s =
  match paint a s with
  | Ok (_, s1) => paint b s1
  | Err e => Err e
  end.
Proof.
  revert s. induction a as [|c a IH]; intros s; simpl; [done|].
  unfold mbind. destruct (grid_store c.1 c.2 1 s) as [[[] s1]|e]; [|done].
  apply IH.
Qed.

Lemma for_each_paint (l : list Z) (f : Z -> list cell) (body : unit -> Z -> M unit) :
  (forall u i s, body u i s = paint (f i) s) ->
  forall s, for_each l body tt s = paint (l ≫= f) s.
Proof.
  intros Hbody. induction l as [|x l IH]; intros s; simpl; [done|].
  unfold mbind. rewrite Hbody.
  rewrite paint_app. destruct (paint (f x) s) as [[[] s1]|e]; [|done]. apply IH.
Qed.

Lemma paint_fields cells s u s' : paint cells s = Ok (u, s') -> same_fields s s'.
Proof.
  revert s. induction cells as [|c cells IH]; intros s; simpl.
  - intros [= _ <-]. apply same_fields_refl.
  - unfold mbind. destruct (grid_store c.1 c.2 1 s) as [[[] s1]|e] eqn:Hst; [|done].
    intros Hrest. eapply same_fields_trans; [by eapply grid_store_fields|by apply IH].
Qed.

Lemma paint_error cells s e : paint cells s = Err e -> e = IndexError.
Proof.
  revert s. induction cells as [|c cells IH]; intros s; simpl; [done|].
  unfold mbind. destruct (grid_store c.1 c.2 1 s) as [[[] s1]|e'] eqn:Hst.
  - apply IH.
  - apply grid_store_error in Hst as ->. congruence.
Qed.

(** The three loops and the two closing stores, one after the other. *)
Lemma create_maze_flat self :
  create_maze self =
  match paint (maze_walls (rows self) (cols self)) (blank self) with
  | Ok (_, s1) =>
      match grid_store (start self).1 (start self).2 2 s1 with
      | Ok (_, s2) => grid_store (end_ self).1 (end_ self).2 3 s2
      | Err e => Err e
      end
  | Err e => Err e
  end.
Proof.
  unfold create_maze, maze_walls. unfold mbind at 1. unfold modify at 1.
  fold (blank self). unfold mbind at 1. unfold gets at 1.
  change (cols (blank self)) with (cols self).
  unfold mbind at 1.
  rewrite (for_each_paint _ (fun i => [(2, i); (3, i); (8, i); (12, i)])).
  2:{ intros u i s. simpl. unfold mbind.
      destruct (grid_store 2 i 1 s) as [[[] s1]|e]; [|done].
      destruct (grid_store 3 i 1 s1) as [[[] s2]|e]; [|done].
      destruct (grid_store 8 i 1 s2) as [[[] s3]|e]; [|done].
      by destruct (grid_store 12 i 1 s3) as [[[] s4]|e]. }
  rewrite paint_app.
  destruct (paint _ (blank self)) as [[[] s1]|e] eqn:H1; [|done].
  apply paint_fields in H1 as (Hr1 & Hc1 & Hs1 & He1 & _).
  unfold mbind at 1. unfold gets at 1. rewrite Hr1. change (rows (blank self)) with (rows self).
  unfold mbind at 1.
  rewrite (for_each_paint _ (fun i => [(i, 5); (i, 10); (i, 15)])).
  2:{ intros u i s. simpl. unfold mbind.
      destruct (grid_store i 5 1 s) as [[[] s2]|e]; [|done].
      destruct (grid_store i 10 1 s2) as [[[] s3]|e]; [|done].
      by destruct (grid_store i 15 1 s3) as [[[] s4]|e]. }
  rewrite paint_app.
  destruct (paint _ s1) as [[[] s2]|e] eqn:H2; [|done].
  apply paint_fields in H2 as (Hr2 & Hc2 & Hs2 & He2 & _).
  unfold mbind at 1.
  rewrite (for_each_paint _ (fun i => [(6, i); (10, i + 8)])).
  2:{ intros u i s. simpl. unfold mbind.
      destruct (grid_store 6 i 1 s) as [[[] s3]|e]; [|done].
      by destruct (grid_store 10 (i + 8) 1 s3) as [[[] s4]|e]. }
  destruct (paint _ s2) as [[[] s3]|e] eqn:H3; [|done].
  apply paint_fields in H3 as (Hr3 & Hc3 & Hs3 & He3 & _).
  unfold mbind, gets.
  assert (start s3 = start self) as -> by (simpl in *; congruence).
  destruct (grid_store (start self).1 (start self).2 2 s3) as [[[] s4]|e] eqn:H4; [|done].
  apply grid_store_fields in H4 as (_ & _ & _ & He4 & _).
  assert (end_ s4 = end_ self) as -> by (simpl in *; congruence).
  done.
Qed.

Lemma grid_shape_fields self self' :
  same_fields self self' -> grid self' = grid self -> grid_shape self -> grid_shape self'.
Proof. intros (Hr & Hc & _) Hg. unfold grid_shape. by rewrite Hr, Hc, Hg. Qed.

Lemma blank_shape self :
  0 <= rows self -> 0 <= cols self -> grid_shape (blank self).
Proof.
  intros Hr Hc. split; simpl.
  - rewrite length_replicate. lia.
  - apply Forall_replicate. rewrite length_replicate. lia.
Qed.

Lemma blank_value self c : in_bounds self c -> cell_value (blank self) c = Some 0.
Proof.
  intros [Hr Hc]. unfold cell_value, py_index; simpl.
  rewrite !length_replicate. rewrite decide_True by lia.
  rewrite lookup_replicate_2 by lia. rewrite length_replicate.
  rewrite decide_True by lia. apply lookup_replicate_2. lia.
Qed.

(** Painting cells of the grid succeeds, and sets exactly those cells. *)
Lemma paint_ok cells s :
  grid_shape s -> Forall (in_bounds s) cells ->
  exists s', paint cells s = Ok (tt, s') /\ same_fields s s' /\ grid_shape s' /\
    forall x, in_bounds s x ->
      cell_value s' x = if decide (x ∈ cells) then Some 1 else cell_value s x.
Proof.
  revert s. induction cells as [|c cells IH]; intros s Hshape Hall.
  { exists s. split; [done|]. split; [apply same_fields_refl|]. split; [done|].
    intros x _. rewrite decide_False; [done|apply not_elem_of_nil]. }
  apply Forall_cons in Hall as [Hc Hall]. simpl. unfold mbind.
  destruct c as [r c].
  destruct (grid_store_ok s r c 1 Hshape Hc) as (s1 & Hst & Hval).
  cbn [fst snd]. rewrite Hst.
  destruct (grid_store_inv s r c 1 tt s1 Hshape Hst) as (_ & _ & Hf1 & Hshape1).
  destruct (IH s1 Hshape1) as (s' & Hrun & Hf & Hshape' & Hval').
  { eapply Forall_impl; [exact Hall|]. intros x Hx. by apply (in_bounds_fields s s1). }
  exists s'. split; [done|]. split; [by eapply same_fields_trans|]. split; [done|].
  intros x Hx. rewrite Hval' by (by apply (in_bounds_fields s s1)).
  rewrite Hval by done.
  destruct (decide (x ∈ cells)) as [Hin|Hin].
  - rewrite decide_True; [done|by right].
  - destruct (decide (x = (r, c))) as [->|Hne].
    + rewrite decide_True; [done|by left].
    + rewrite decide_False; [done|]. by intros [?|?]%elem_of_cons.
Qed.

(** Painting that returns was given indices Python accepts throughout. *)
Lemma paint_inv cells s u s' :
  grid_shape s -> paint cells s = Ok (u, s') ->
  Forall (fun c => index_ok (rows s) c.1 /\ index_ok (cols s) c.2) cells.
Proof.
  revert s. induction cells as [|c cells IH]; intros s Hshape; simpl; [done|].
  unfold mbind. destruct (grid_store c.1 c.2 1 s) as [[[] s1]|e] eqn:Hst; [|done].
  intros Hrest.
  destruct (grid_store_inv s _ _ _ _ _ Hshape Hst) as (Hr & Hc & (Hr1 & Hc1 & _) & Hshape1).
  constructor; [done|]. rewrite <- Hr1, <- Hc1. by apply IH.
Qed.

(** What [create_maze] leaves on an object large enough for its wall
    pattern. *)
Lemma create_maze_spec (self : visualizer) :
  13 <= rows self -> 16 <= cols self ->
  in_bounds self (start self) -> in_bounds self (end_ self) ->
  exists self',
    create_maze self = Ok (tt, self') /\
    same_fields self self' /\ well_formed self' /\
    (forall c, in_bounds self c ->
       cell_value self' c =
         Some (if decide (c = end_ self) then 3
               else if decide (c = start self) then 2
               else if decide (maze_wall_at (rows self) (cols self) c) then 1
               else 0)) /\
    ~ is_wall self' (start self') /\ ~ is_wall self' (end_ self').
Proof.
  intros Hr Hc Hs He. rewrite create_maze_flat.
  assert (same_fields self (blank self)) as Hf0 by (by repeat split).
  destruct (paint_ok (maze_walls (rows self) (cols self)) (blank self))
    as (s1 & -> & Hf1 & Hshape1 & Hv1).
  { apply blank_shape; lia. }
  { apply Forall_forall. intros [r c] Hin%elem_of_maze_walls.
    unfold maze_wall_at, in_bounds in *. simpl in *. lia. }
  pose proof (same_fields_trans _ _ _ Hf0 Hf1) as Hf01.
  destruct (start self) as [sr sc] eqn:Hstart. destruct (end_ self) as [er ec] eqn:Hend.
  destruct (grid_store_ok s1 sr sc 2 Hshape1) as (s2 & Hst2 & Hv2).
  { by apply (in_bounds_fields self s1). }
  cbn [fst snd]. rewrite Hst2.
  destruct (grid_store_inv s1 _ _ _ _ _ Hshape1 Hst2) as (_ & _ & Hf2 & Hshape2).
  pose proof (same_fields_trans _ _ _ Hf01 Hf2) as Hf02.
  destruct (grid_store_ok s2 er ec 3 Hshape2) as (s3 & Hst3 & Hv3).
  { by apply (in_bounds_fields self s2). }
  rewrite Hst3.
  destruct (grid_store_inv s2 _ _ _ _ _ Hshape2 Hst3) as (_ & _ & Hf3 & Hshape3).
  pose proof (same_fields_trans _ _ _ Hf02 Hf3) as Hf03.
  assert (forall c, in_bounds self c ->
    cell_value s3 c =
      Some (if decide (c = (er, ec)) then 3
            else if decide (c = (sr, sc)) then 2
            else if decide (maze_wall_at (rows self) (cols self) c) then 1
            else 0)) as Hval.
  { intros c Hin. rewrite Hv3 by (by apply (in_bounds_fields self s2)).
    destruct (decide (c = (er, ec))); [done|].
    rewrite Hv2 by (by apply (in_bounds_fields self s1)).
    destruct (decide (c = (sr, sc))); [done|].
    rewrite Hv1 by (by apply (in_bounds_fields self (blank self))).
    rewrite blank_value by done.
    destruct (decide (c ∈ maze_walls (rows self) (cols self))) as [Hin'|Hin'];
      rewrite elem_of_maze_walls in Hin'.
    - by rewrite decide_True.
    - by rewrite decide_False. }
  exists s3. split; [done|]. split; [done|].
  destruct Hf03 as (Hr3 & Hc3 & Hs3 & He3 & Hrest).
  split.
  { split; [done|]. unfold in_bounds. rewrite Hr3, Hc3, Hs3, He3, Hstart, Hend. done. }
  split; [done|]. unfold is_wall. rewrite Hs3, He3, Hstart, Hend.
  split.
  - rewrite (Hval (sr, sc) Hs). repeat case_decide; congruence.
  - rewrite (Hval (er, ec) He). rewrite decide_True by done. congruence.
Qed.

(** X11. On an object with at least 13 rows and 16 columns whose [start]
    and [end] are cells of the grid, [create_maze] succeeds. It leaves a
    rectangular grid in which [end] holds 3, [start] holds 2 (unless it is
    also [end]), the cells of the wall pattern hold 1 and all others 0; so
    neither [start] nor [end] is a wall. No other field changes. *)
Theorem create_maze_layout (self : visualizer) :
  13 <= rows self -> 16 <= cols self ->
  in_bounds self (start self) -> in_bounds self (end_ self) ->
  exists self',
    create_maze self = Ok (tt, self') /\
    same_fields self self' /\ well_formed self' /\
    (forall c, in_bounds self c ->
       cell_value self' c =
         Some (if decide (c = end_ self) then 3
               else if decide (c = start self) then 2
               else if decide (maze_wall_at (rows self) (cols self) c) then 1
               else 0)) /\
    ~ is_wall self' (start self') /\ ~ is_wall self' (end_ self').
Proof. intros Hr Hc Hs He. by apply create_maze_spec. Qed.

Lemma create_maze_layout_witness :
  13 <= rows init_fields /\ 16 <= cols init_fields /\
  in_bounds init_fields (start init_fields) /\
  in_bounds init_fields (end_ init_fields) /\
  exists self', create_maze init_fields = Ok (tt, self') /\ well_formed self'.
Proof.
  assert (13 <= rows init_fields) as H1 by (vm_compute; discriminate).
  assert (16 <= cols init_fields) as H2 by (vm_compute; discriminate).
  assert (in_bounds init_fields (start init_fields)) as H3
    by (apply (bool_decide_unpack _); vm_compute; exact I).
  assert (in_bounds init_fields (end_ init_fields)) as H4
    by (apply (bool_decide_unpack _); vm_compute; exact I).
  split; [exact H1|]. split; [exact H2|]. split; [exact H3|]. split; [exact H4|].
  destruct (create_maze_layout init_fields H1 H2 H3 H4) as (self' & Hrun & _ & Hwf & _).
  exists self'. split; [exact Hrun | exact Hwf].
Defined.

(** X12. On an object with fewer than 13 rows or fewer than 16 columns
    [create_maze] raises [IndexError]: one of its stores falls outside the
    grid. *)
Theorem create_maze_too_small (self : visualizer) :
  0 <= rows self -> 0 <= cols self ->
  rows self < 13 \/ cols self < 16 ->
  create_maze self = Err IndexError.
Proof.
  intros Hr Hc Hsmall. rewrite create_maze_flat.
  destruct (paint (maze_walls (rows self) (cols self)) (blank self))
    as [[[] s1]|e] eqn:Hpaint.
  - exfalso. apply paint_inv in Hpaint; [|by apply blank_shape].
    rewrite Forall_forall in Hpaint. simpl in Hpaint.
    assert (forall c, maze_wall_at (rows self) (cols self) c ->
              index_ok (rows self) c.1 /\ index_ok (cols self) c.2) as Hall.
    { intros c Hc'. by apply Hpaint, elem_of_maze_walls. }
    unfold maze_wall_at, index_ok in Hall.
    pose proof (Hall (10, 11)) as H1. simpl in H1.
    pose proof (Hall (12, 2)) as H2. simpl in H2.
    pose proof (Hall (2, 15)) as H3. simpl in H3. lia.
  - apply paint_error in Hpaint as ->. done.
Qed.

Lemma create_maze_too_small_witness :
  0 <= rows small_grid /\ 0 <= cols small_grid /\
  (rows small_grid < 13 \/ cols small_grid < 16) /\
  create_maze small_grid = Err IndexError.
Proof.
  assert (0 <= rows small_grid) as H1 by (vm_compute; discriminate).
  assert (0 <= cols small_grid) as H2 by (vm_compute; discriminate).
  assert (rows small_grid < 13 \/ cols small_grid < 16) as H3
    by (left; vm_compute; reflexivity).
  split; [exact H1|]. split; [exact H2|]. split; [exact H3|].
  exact (create_maze_too_small small_grid H1 H2 H3).
Defined.

(** X13. [create_maze] starts from a cleared grid: what it leaves does not
    depend on the grid it finds, so running it again on its own result
    changes nothing. *)
Theorem create_maze_again (self self' : visualizer) :
  create_maze self = Ok (tt, self') ->
  create_maze self' = Ok (tt, self') /\
  forall other, same_fields self other -> create_maze other = Ok (tt, self').
Proof.
  intros Hrun.
  assert (forall other, same_fields self other -> create_maze other = Ok (tt, self'))
    as Hother.
  { intros other (Hr & Hc & Hs & He & Hex & Hp & Ha).
    rewrite create_maze_flat. rewrite create_maze_flat in Hrun.
    assert (blank other = blank self) as -> by (unfold blank; congruence).
    by rewrite Hr, Hc, Hs, He. }
  split; [|done]. apply Hother.
  rewrite create_maze_flat in Hrun.
  destruct (paint _ (blank self)) as [[[] s1]|e] eqn:H1; [|done].
  destruct (grid_store _ _ 2 s1) as [[[] s2]|e] eqn:H2; [|done].
  apply paint_fields in H1. apply grid_store_fields in H2. apply grid_store_fields in Hrun.
  assert (same_fields self (blank self)) as Hf0 by (by repeat split).
  eauto using same_fields_trans.
Qed.

Lemma create_maze_again_witness :
  create_maze init_fields = Ok (tt, default_maze) /\
  create_maze default_maze = Ok (tt, default_maze).
Proof.
  assert (create_maze init_fields = Ok (tt, default_maze)) as Hrun
    by (vm_compute; reflexivity).
  split; [exact Hrun|].
  exact (proj1 (create_maze_again init_fields default_maze Hrun)).
Defined.

(** * The callers of the engine *)

(** [reset_animation] *)
Definition reset_animation : M unit :=
  modify (fun self =>
    Visualizer (rows self) (cols self) (grid self) (start self) (end_ self)
      [] [] 0).

Section Callers.
Context `{PQ : PriorityQueue}.

(** [run_algorithm]; [if path:] holds for a path that is neither [None] nor
    empty. *)
Definition run_algorithm (algorithm : string) : M unit :=
  run reset_animation;
  do r <- find_path algorithm;
  let '(path, explored) := r in
  match path with
  | Some (c :: path') =>
      modify (fun self =>
        Visualizer (rows self) (cols self) (grid self) (start self) (end_ self)
          explored (c :: path') 0)
  | _ => mret tt
  end.

End Callers.

(** Two objects with the same grid, dimensions, [start] and [end]. *)
Definition same_grid (self other : visualizer) : Prop :=
  rows other = rows self /\ cols other = cols self /\ grid other = grid self /\
  start other = start self /\ end_ other = end_ self.

(** X14. On a grid that meets the invariant of the data model,
    [run_algorithm] returns, leaves the grid, its dimensions, [start] and
    [end] as they were and the animation step at 0. If [end] can be
    reached it stores a walk from [start] to [end] as the path and an
    explored sequence that begins with [start] and ends with [end];
    otherwise it stores an empty path and an empty explored sequence: the
    cells a failed search explored are dropped. *)
Theorem run_algorithm_outcome `{PQ : PriorityQueue} (self : visualizer)
    (alg : string) :
  well_formed self ->
  ~ is_wall self (start self) ->
  exists self',
    run_algorithm alg self = Ok (tt, self') /\
    same_grid self self' /\ animation_step self' = 0 /\
    ((reachable self (start self) (end_ self) /\
      connects self (start self) (end_ self) (path self') /\
      head (explored_nodes self') = Some (start self) /\
      last (explored_nodes self') = Some (end_ self)) \/
     (~ reachable self (start self) (end_ self) /\
      path self' = [] /\ explored_nodes self' = [])).
Proof.
  intros Hwf Hwall. unfold run_algorithm, mbind, reset_animation, modify.
  set (s0 := Visualizer (rows self) (cols self) (grid self) (start self)
               (end_ self) [] [] 0).
  assert (well_formed s0) as (Hshape & Hin & _) by exact Hwf.
  assert (~ is_wall s0 (start s0)) as Hwall0 by exact Hwall.
  destruct (find_path_outcome s0 alg Hshape (conj Hin Hwall0))
    as (ex & Hhead & _ & Hcases).
  destruct (find_path_trace s0 alg Hshape (conj Hin Hwall0)) as (st & _ & Htrace).
  destruct Hcases as [(Ht & Hreach & Hnone)|(l & Hconn & _ & Hsome)].
  - specialize (Hnone (search_fuel s0) (le_n _)).
    change (find_path_fuel (search_fuel s0) alg s0) with (find_path alg s0) in Hnone.
    rewrite Hnone. exists s0. split; [done|]. split; [by repeat split|].
    split; [done|]. right. split; [|done].
    intros Hr. apply Ht. by apply Hreach.
  - specialize (Hsome (search_fuel s0) (le_n _)).
    change (find_path_fuel (search_fuel s0) alg s0) with (find_path alg s0) in Hsome.
    rewrite Hsome.
    destruct l as [|c l]; [by destruct Hconn as ((? & _) & _)|].
    eexists. split; [done|]. split; [by repeat split|]. split; [done|].
    left. simpl. split; [by exists (c :: l)|]. split; [done|]. split; [done|].
    destruct Htrace as [(_ & Hres)|(Hlast & l' & Hres & _)]; [congruence|].
    rewrite Hres in Hsome. by injection Hsome as _ <-.
Qed.

Lemma run_algorithm_outcome_witness :
  well_formed enclosed_grid /\ ~ is_wall enclosed_grid (start enclosed_grid) /\
  exists self', run_algorithm (PQ := stack_pq) "astar" enclosed_grid = Ok (tt, self') /\
    animation_step self' = 0.
Proof.
  assert (well_formed enclosed_grid) as Hwf
    by (apply (bool_decide_unpack _); vm_compute; exact I).
  assert (~ is_wall enclosed_grid (start enclosed_grid)) as Hw
    by (apply (bool_decide_unpack _); vm_compute; exact I).
  split; [exact Hwf|]. split; [exact Hw|].
  destruct (run_algorithm_outcome (PQ := stack_pq) enclosed_grid "astar" Hwf Hw)
    as (self' & Hrun & _ & Hstep & _).
  exists self'. split; [exact Hrun | exact Hstep].
Defined.

(** X15. A call of [run_algorithm] that returns has left the grid, its
    dimensions, [start] and [end] untouched, and the next call starts by
    clearing what it stored: running [b] after [a] does what running [b]
    alone does. *)
Theorem run_algorithm_forgets `{PQ : PriorityQueue} (self self' : visualizer)
    (a : string) :
  run_algorithm a self = Ok (tt, self') ->
  same_grid self self' /\
  forall b, run_algorithm b self' = run_algorithm b self.
Proof.
  intros Hrun.
  assert (same_grid self self') as Hsame.
  { unfold run_algorithm, mbind, reset_animation, modify in Hrun.
    match type of Hrun with
    | context [find_path a ?s] => destruct (find_path a s) as [[[p ex] s1]|e] eqn:Hfp
    end; [|done].
    unfold find_path in Hfp. apply read_only_find_path_fuel in Hfp as ->.
    destruct p as [[|c l]|]; injection Hrun as <-; by repeat split. }
  split; [done|]. intros b. destruct Hsame as (Hr & Hc & Hg & Hs & He).
  unfold run_algorithm, mbind, reset_animation, modify.
  by rewrite Hr, Hc, Hg, Hs, He.
Qed.

Lemma run_algorithm_forgets_witness :
  let after := Visualizer 2 2 [[2; 0]; [1; 3]] (0, 0) (1, 1)
                 [(0, 0); (0, 1); (1, 1)] [(0, 0); (0, 1); (1, 1)] 0 in
  run_algorithm (PQ := stack_pq) "astar" small_grid = Ok (tt, after) /\
  run_algorithm (PQ := stack_pq) "greedy" after
    = run_algorithm (PQ := stack_pq) "greedy" small_grid.
Proof.
  intros after.
  assert (run_algorithm (PQ := stack_pq) "astar" small_grid = Ok (tt, after)) as Hrun
    by (vm_compute; reflexivity).
  split; [exact Hrun|].
  exact (proj2 (run_algorithm_forgets (PQ := stack_pq) small_grid after "astar" Hrun)
           "greedy").
Defined.

(** ** What [find_path] reads *)

(** A computation whose outcome is the same on two objects with the same
    grid, and which writes neither. *)
Definition grid_only {A} (m : M A) : Prop :=
  forall s o, same_grid s o ->
    match m s, m o with
    | Ok (a, s'), Ok (b, o') => a = b /\ s' = s /\ o' = o
    | Err e1, Err e2 => e1 = e2
    | _, _ => False
    end.

Lemma grid_only_mret {A} (a : A) : grid_only (mret a).
Proof. by intros s o _. Qed.

Lemma grid_only_raise {A} (e : error) : grid_only (@raise A e).
Proof. by intros s o _. Qed.

Lemma grid_only_mbind {A B} (m : M A) (k : A -> M B) :
  grid_only m -> (forall a, grid_only (k a)) -> grid_only (mbind m k).
Proof.
  intros Hm Hk s o Hso. unfold mbind. specialize (Hm s o Hso).
  destruct (m s) as [[a s']|e1], (m o) as [[b o']|e2]; try done.
  destruct Hm as (<- & -> & ->). by apply Hk.
Qed.

Lemma grid_only_grid_at r c : grid_only (grid_at r c).
Proof.
  intros s o (_ & _ & Hg & _). unfold grid_at. rewrite Hg.
  destruct (py_index (grid s) r) as [line|]; [|done].
  by destruct (py_index line c).
Qed.

Lemma grid_only_for_each {A S} (l : list A) (body : S -> A -> M S) (s : S) :
  (forall s x, grid_only (body s x)) -> grid_only (for_each l body s).
Proof.
  intros Hbody. revert s. induction l as [|x l IH]; intros s; simpl.
  - apply grid_only_mret.
  - apply grid_only_mbind; [apply Hbody | apply IH].
Qed.

Lemma grid_only_get_neighbors r c : grid_only (get_neighbors r c).
Proof.
  unfold get_neighbors. apply grid_only_for_each. intros acc [dr dc] s o Hso.
  pose proof Hso as (Hr & Hc & _).
  unfold probe, mbind, gets, mret. rewrite Hr, Hc.
  destruct (decide _); [|done].
  pose proof (grid_only_grid_at (r + dr) (c + dc) s o Hso) as Hg.
  destruct (grid_at (r + dr) (c + dc) s) as [[v s']|e1],
           (grid_at (r + dr) (c + dc) o) as [[w o']|e2]; try done.
  destruct Hg as (<- & -> & ->). by destruct (decide (v <> 1)).
Qed.

Section GridOnly.
Context `{PQ : PriorityQueue}.

Ltac grid_only_step :=
  match goal with
  | |- grid_only (mbind _ _) => apply grid_only_mbind; [|intros ?]
  | |- grid_only (for_each _ _ _) => apply grid_only_for_each; intros ? ?
  | |- grid_only (grid_at _ _) => apply grid_only_grid_at
  | |- grid_only (get_neighbors _ _) => apply grid_only_get_neighbors
  | |- grid_only (mret _) => apply grid_only_mret
  | |- grid_only (raise _) => apply grid_only_raise
  | |- grid_only (if ?b then _ else _) => destruct b
  | |- grid_only (match ?x with _ => _ end) => destruct x
  end.

Lemma grid_only_relax alg t u st v : grid_only (relax alg t u st v).
Proof. unfold relax. repeat grid_only_step. Qed.

Lemma grid_only_search_iter alg t st : grid_only (search_iter alg t st).
Proof.
  unfold search_iter.
  destruct (pq_get (frontier st)) as [[[[p u] g] q]|]; [|apply grid_only_raise].
  repeat first [ apply grid_only_relax | grid_only_step ].
Qed.

Lemma grid_only_search_loop fuel alg t st : grid_only (search_loop fuel alg t st).
Proof.
  revert st. induction fuel as [|fuel IH]; intros st; simpl.
  - apply grid_only_raise.
  - destruct (pq_empty (frontier st)); [apply grid_only_mret|].
    apply grid_only_mbind; [apply grid_only_search_iter|].
    intros [st'|st']; [apply IH | apply grid_only_mret].
Qed.

Lemma grid_only_reconstruct fuel cf cur acc : grid_only (reconstruct fuel cf cur acc).
Proof.
  revert cur acc. induction fuel as [|fuel IH]; intros [c|] acc; simpl;
    first [ apply grid_only_mret | apply grid_only_raise | apply IH ].
Qed.

Lemma grid_only_any_wall l : grid_only (any_wall l).
Proof.
  induction l as [|[r c] l IH]; simpl; [apply grid_only_mret|].
  apply grid_only_mbind; [apply grid_only_grid_at|].
  intros v. destruct (decide (v = 1)); [apply grid_only_mret | apply IH].
Qed.

Lemma grid_only_gets {A} (f : visualizer -> A) :
  (forall s o, same_grid s o -> f o = f s) -> grid_only (gets f).
Proof. intros Hf s o Hso. unfold gets. by rewrite (Hf s o Hso). Qed.

Lemma grid_only_find_path_fuel fuel alg : grid_only (find_path_fuel fuel alg).
Proof.
  unfold find_path_fuel.
  apply grid_only_mbind; [apply grid_only_gets; by intros s o (_ & _ & _ & ? & _)|].
  intros st. apply grid_only_mbind;
    [apply grid_only_gets; by intros s o (_ & _ & _ & _ & ?)|].
  intros en.
  repeat first [ apply grid_only_search_loop | apply grid_only_reconstruct
               | apply grid_only_any_wall | grid_only_step ].
Qed.

End GridOnly.

(** X16. [find_path] reads the grid, its dimensions, [start] and [end] and
    nothing else: on two objects that agree on these it returns the same
    path and the same explored sequence, or raises the same exception,
    whatever their animation fields hold. *)
Theorem find_path_reads_grid_only `{PQ : PriorityQueue} (self other : visualizer)
    (alg : string) :
  same_grid self other ->
  match find_path alg self, find_path alg other with
  | Ok (r1, _), Ok (r2, _) => r1 = r2
  | Err e1, Err e2 => e1 = e2
  | _, _ => False
  end.
Proof.
  intros Hso. pose proof Hso as (Hr & Hc & _).
  unfold find_path, search_fuel. rewrite Hr, Hc.
  pose proof (grid_only_find_path_fuel (Z.to_nat (4 * (rows self * cols self) + 2))
                alg self other Hso) as H.
  destruct (find_path_fuel _ alg self) as [[r1 s1]|e1],
           (find_path_fuel _ alg other) as [[r2 s2]|e2]; try done.
  by destruct H.
Qed.

Lemma find_path_reads_grid_only_witness :
  let other := Visualizer 2 2 [[2; 0]; [1; 3]] (0, 0) (1, 1) [(1, 1)] [(0, 1)] 7 in
  same_grid small_grid other /\
  match find_path (PQ := stack_pq) "astar" small_grid,
        find_path (PQ := stack_pq) "astar" other with
  | Ok (r1, _), Ok (r2, _) => r1 = r2
  | Err e1, Err e2 => e1 = e2
  | _, _ => False
  end.
Proof.
  intros other.
  assert (same_grid small_grid other) as Hs by (by repeat split).
  split; [exact Hs|].
  exact (find_path_reads_grid_only (PQ := stack_pq) small_grid other "astar" Hs).
Defined.

(** * Drawing and the event loop

    The calls into pygame are kept as data: [draw_grid] yields the list of
    drawing operations it issues, in order, and one turn of the loop of
    [run] takes the clock reading and the pending events as arguments and
    either returns or raises.
    [cell_size] and [animation_speed] are set by [__init__] and assigned
    nowhere else. *)

Abbreviation color := (Z * Z * Z)%type.

Definition white : color := (255, 255, 255).
Definition black : color := (0, 0, 0).
Definition green : color := (0, 255, 0).
Definition red : color := (255, 0, 0).
Definition lightblue : color := (173, 216, 230).
Definition blue : color := (0, 0, 255).
Definition gray : color := (128, 128, 128).

Definition cell_size : Z := 40.
Definition animation_speed : Z := 50.

Inductive draw_op : Type :=
| Fill (c : color)                           (* screen.fill *)
| Rect (c : color) (x y w h : Z) (width : Z) (* pygame.draw.rect, 0 = filled *)
| Line (c : color) (x1 y1 x2 y2 : Z) (width : Z).

(** The body of the loop over the cells of one grid line. *)
Definition draw_cell (i : Z) (ops : list draw_op) (j : Z) : M (list draw_op) :=
  let x := j * cell_size in
  let y := i * cell_size in
  do v <- grid_at i j;
  let c := if decide (v = 1) then black
           else if decide (v = 2) then green
           else if decide (v = 3) then red
           else white in
  mret (ops ++ [Rect c x y cell_size cell_size 0;
                Rect gray x y cell_size cell_size 1]).

(** The body of the loop over the explored nodes already revealed. *)
Definition draw_explored (ops : list draw_op) (i : Z) : M (list draw_op) :=
  do explored <- gets explored_nodes;
  match py_index explored i with
  | None => raise IndexError
  | Some (row, col) =>
      do s <- gets start;
      do e <- gets end_;
      if decide ((row, col) <> s) then
        if decide ((row, col) <> e) then
          do v <- grid_at row col;
          if decide (v <> 1) then
            let x := col * cell_size in
            let y := row * cell_size in
            mret (ops ++ [Rect lightblue x y cell_size cell_size 0;
                          Rect gray x y cell_size cell_size 1])
          else mret ops
        else mret ops
      else mret ops
  end.

(** The body of the loop over the segments of the path. *)
Definition draw_segment (ops : list draw_op) (i : Z) : M (list draw_op) :=
  do p <- gets path;
  match py_index p i with
  | None => raise IndexError
  | Some start_pos =>
      match py_index p (i + 1) with
      | None => raise IndexError
      | Some end_pos =>
          let start_x := start_pos.2 * cell_size + cell_size `div` 2 in
          let start_y := start_pos.1 * cell_size + cell_size `div` 2 in
          let end_x := end_pos.2 * cell_size + cell_size `div` 2 in
          let end_y := end_pos.1 * cell_size + cell_size `div` 2 in
          mret (ops ++ [Line blue start_x start_y end_x end_y 3])
      end
  end.

(** [draw_grid] *)
Definition draw_grid : M (list draw_op) :=
  do nr <- gets rows;
  do ops <- for_each (py_range 0 nr) (fun ops i =>
              do nc <- gets cols;
              for_each (py_range 0 nc) (draw_cell i) ops) [];
  do step <- gets animation_step;
  do explored <- gets explored_nodes;
  do ops <- for_each (py_range 0 (Z.min step (Z.of_nat (length explored))))
              draw_explored ops;
  do step <- gets animation_step;
  do explored <- gets explored_nodes;
  if decide (Z.of_nat (length explored) <= step) then
    do p <- gets path;
    for_each (py_range 0 (Z.of_nat (length p) - 1)) draw_segment ops
  else mret ops.

Inductive key : Type := K_a | K_d | K_g | K_r | K_other.

Inductive event : Type :=
| QUIT
| KEYDOWN (k : key)
| OTHER.

#[export] Instance key_eq_dec : EqDecision key.
Proof. solve_decision. Defined.

#[export] Instance event_eq_dec : EqDecision event.
Proof. solve_decision. Defined.

(** What leaves the loop of [run]: [sys.exit()] raises [SystemExit],
    which nothing in [run] catches; any other exception is one raised by
    a method the loop calls. *)
Inductive exception : Type :=
| SystemExit
| Raised (e : error).

Inductive outcome (A : Type) : Type :=
| Returns (a : A) (self : visualizer)
| Raises (x : exception).

Arguments Returns {A} a self.
Arguments Raises {A} x.

(** A method called from the loop. *)
Definition call {A} (m : M A) (self : visualizer) : outcome A :=
  match m self with
  | Ok (a, self') => Returns a self'
  | Err e => Raises (Raised e)
  end.

Section Loop.
Context `{PQ : PriorityQueue}.

(** What the loop of [run] does with one event. In the [QUIT] branch
    [pygame.quit()] closes the window and [sys.exit()] raises. *)
Definition handle_event (ev : event) (self : visualizer) : outcome unit :=
  match ev with
  | QUIT => Raises SystemExit
  | KEYDOWN K_a => call (run_algorithm "astar") self
  | KEYDOWN K_d => call (run_algorithm "dijkstra") self
  | KEYDOWN K_g => call (run_algorithm "greedy") self
  | KEYDOWN K_r => call (run create_maze; reset_animation) self
  | KEYDOWN K_other => Returns tt self
  | OTHER => Returns tt self
  end.

(** [for event in pygame.event.get()] *)
Fixpoint handle_events (events : list event) (self : visualizer) : outcome unit :=
  match events with
  | [] => Returns tt self
  | ev :: events' =>
      match handle_event ev self with
      | Returns _ self' => handle_events events' self'
      | Raises x => Raises x
      end
  end.

(** The rest of a turn, after the events: the animation step and the
    drawing. It yields the new [last_update] and what was drawn. *)
Definition animate (current_time last_update : Z) : M (Z * list draw_op) :=
  do step <- gets animation_step;
  do explored <- gets explored_nodes;
  do last_update' <-
    (if decide (animation_speed < current_time - last_update /\
                step < Z.of_nat (length explored) + 1)
     then
       run modify (fun self =>
             Visualizer (rows self) (cols self) (grid self) (start self)
               (end_ self) (explored_nodes self) (path self)
               (animation_step self + 1));
       mret current_time
     else mret last_update);
  do ops <- draw_grid;
  mret (last_update', Fill white :: ops).

(** One turn of [while True] in [run]. *)
Definition frame (current_time : Z) (events : list event) (last_update : Z)
    (self : visualizer) : outcome (Z * list draw_op) :=
  match handle_events events self with
  | Returns _ self' => call (animate current_time last_update) self'
  | Raises x => Raises x
  end.

End Loop.

(** ** Loops that return *)

(** A loop over [l] whose body returns without writing the object: [R]
    relates the part of [l] already done to the accumulator. *)
Lemma for_each_inv {A S} (R : list A -> S -> Prop) (l : list A)
    (body : S -> A -> M S) (acc0 : S) (self : visualizer) :
  R [] acc0 ->
  (forall pre x acc, (exists rest, l = pre ++ x :: rest) -> R pre acc ->
     exists acc', body acc x self = Ok (acc', self) /\ R (pre ++ [x]) acc') ->
  exists acc', for_each l body acc0 self = Ok (acc', self) /\ R l acc'.
Proof.
  intros H0 Hstep.
  assert (forall rest pre acc, l = pre ++ rest -> R pre acc ->
            exists acc', for_each rest body acc self = Ok (acc', self) /\ R l acc')
    as Hgen.
  { induction rest as [|x rest IH]; intros pre acc Hl HR; simpl.
    - exists acc. split; [done|]. by rewrite Hl, app_nil_r.
    - destruct (Hstep pre x acc) as (acc' & Hrun & HR'); [by exists rest|done|].
      unfold mbind. rewrite Hrun. apply (IH (pre ++ [x])); [|done].
      by rewrite <- app_assoc. }
  by apply (Hgen l []).
Qed.

Definition is_line (op : draw_op) : bool :=
  match op with
  | Line _ _ _ _ _ _ => true
  | _ => false
  end.

(** The lines [draw_grid] is to draw for a path: one per pair of
    consecutive cells, between the centres of the two cells. *)
Fixpoint path_lines (p : list cell) : list draw_op :=
  match p with
  | a :: (b :: _) as p' =>
      Line blue (a.2 * cell_size + cell_size `div` 2) (a.1 * cell_size + cell_size `div` 2)
        (b.2 * cell_size + cell_size `div` 2) (b.1 * cell_size + cell_size `div` 2) 3
      :: path_lines p'
  | _ => []
  end.

Lemma path_lines_length p : length (path_lines p) = (length p - 1)%nat.
Proof.
  induction p as [|a [|b p] IH]; [done|done|].
  change (length (path_lines (a :: b :: p))) with (S (length (path_lines (b :: p)))).
  rewrite IH. simpl. lia.
Qed.

Lemma path_lines_lookup p (k : nat) a b :
  p !! k = Some a -> p !! S k = Some b ->
  path_lines p !! k =
    Some (Line blue (a.2 * cell_size + cell_size `div` 2)
            (a.1 * cell_size + cell_size `div` 2)
            (b.2 * cell_size + cell_size `div` 2)
            (b.1 * cell_size + cell_size `div` 2) 3).
Proof.
  revert k. induction p as [|x [|y p] IH]; intros k; [done|by destruct k|].
  destruct k as [|k].
  - by intros [= ->] [= ->].
  - intros Ha Hb. apply (IH k Ha Hb).
Qed.

Lemma py_index_nat {A} (l : list A) (k : nat) : py_index l (Z.of_nat k) = l !! k.
Proof. unfold py_index. rewrite decide_True by lia. by rewrite Nat2Z.id. Qed.

Lemma py_range_split (n : Z) pre x rest :
  py_range 0 n = pre ++ x :: rest -> x = Z.of_nat (length pre) /\ 0 <= x < n.
Proof.
  unfold py_range. intros Hl.
  assert (seqZ 0 (n - 0) !! length pre = Some x) as Hlk.
  { rewrite Hl. by apply list_lookup_middle. }
  apply lookup_seqZ in Hlk. lia.
Qed.

(** [draw_grid] on an object whose grid is rectangular and whose explored
    nodes are cells of the grid. *)
Lemma draw_grid_ok self :
  grid_shape self -> Forall (in_bounds self) (explored_nodes self) ->
  exists ops, draw_grid self = Ok (ops, self) /\
    filter is_line ops =
      if decide (Z.of_nat (length (explored_nodes self)) <= animation_step self)
      then path_lines (path self) else [].
Proof.
  intros Hshape Hex. unfold draw_grid. unfold mbind at 1. unfold gets at 1.
  (* the cells *)
  destruct (for_each_inv (fun _ ops => filter is_line ops = [])
              (py_range 0 (rows self))
              (fun ops i => do nc <- gets cols;
                            for_each (py_range 0 nc) (draw_cell i) ops)
              [] self) as (ops1 & Hrun1 & Hl1); [done| |].
  { intros pre i acc [rest Hl] Hacc. unfold mbind, gets.
    apply py_range_split in Hl as [_ Hi].
    destruct (for_each_inv (fun _ ops => filter is_line ops = [])
                (py_range 0 (cols self)) (draw_cell i) acc self)
      as (acc' & Hrun & Hacc'); [done| |by exists acc'].
    intros pre' j acc1 [rest' Hl'] Hacc1.
    apply py_range_split in Hl' as [_ Hj].
    destruct (cell_value_in_bounds self (i, j) Hshape) as [v Hv].
    { split; simpl; lia. }
    unfold draw_cell, mbind. rewrite (grid_at_ok self i j v Hv).
    eexists. split; [done|]. rewrite filter_app, Hacc1.
    by repeat case_decide. }
  unfold mbind at 1. rewrite Hrun1.
  unfold mbind at 1. unfold gets at 1. unfold mbind at 1. unfold gets at 1.
  (* the explored nodes *)
  destruct (for_each_inv (fun _ ops => filter is_line ops = [])
              (py_range 0 (Z.min (animation_step self)
                             (Z.of_nat (length (explored_nodes self)))))
              draw_explored ops1 self) as (ops2 & Hrun2 & Hl2); [done| |].
  { intros pre i acc [rest Hl] Hacc.
    apply py_range_split in Hl as [Hi Hi']. unfold draw_explored, mbind, gets.
    assert (exists c, explored_nodes self !! length pre = Some c) as [[r c] Hc].
    { apply lookup_lt_is_Some_2. lia. }
    rewrite Hi, py_index_nat, Hc.
    destruct (decide ((r, c) <> start self)); [|by exists acc].
    destruct (decide ((r, c) <> end_ self)); [|by exists acc].
    destruct (cell_value_in_bounds self (r, c) Hshape) as [v Hv].
    { rewrite Forall_forall in Hex. by eapply Hex, list_elem_of_lookup_2. }
    rewrite (grid_at_ok self r c v Hv).
    destruct (decide (v <> 1)); [|by exists acc].
    eexists. split; [done|]. by rewrite filter_app, Hacc. }
  unfold mbind at 1. rewrite Hrun2.
  unfold mbind at 1. unfold gets at 1. unfold mbind at 1. unfold gets at 1.
  destruct (decide (Z.of_nat (length (explored_nodes self)) <= animation_step self));
    [|by exists ops2].
  unfold mbind at 1. unfold gets at 1.
  (* the path *)
  destruct (for_each_inv
              (fun pre ops => filter is_line ops = take (length pre) (path_lines (path self)))
              (py_range 0 (Z.of_nat (length (path self)) - 1))
              draw_segment ops2 self) as (ops3 & Hrun3 & Hl3).
  { by rewrite Hl2. }
  { intros pre i acc [rest Hl] Hacc.
    apply py_range_split in Hl as [Hi Hi']. unfold draw_segment, mbind, gets.
    assert (exists a, path self !! length pre = Some a) as [a Ha].
    { apply lookup_lt_is_Some_2. lia. }
    assert (exists b, path self !! S (length pre) = Some b) as [b Hb].
    { apply lookup_lt_is_Some_2. lia. }
    rewrite Hi, py_index_nat, Ha.
    replace (Z.of_nat (length pre) + 1) with (Z.of_nat (S (length pre))) by lia.
    rewrite py_index_nat, Hb.
    eexists. split; [done|]. rewrite filter_app, Hacc, length_app. simpl.
    rewrite Nat.add_1_r.
    erewrite take_S_r; [done|]. by apply path_lines_lookup. }
  exists ops3. split; [done|]. rewrite Hl3. apply take_ge.
  unfold py_range. rewrite length_seqZ, path_lines_length. lia.
Qed.

(** ** The state the loop of [run] keeps *)

Lemma same_grid_in_bounds s o c : same_grid s o -> in_bounds o c <-> in_bounds s c.
Proof. intros (Hr & Hc & _). unfold in_bounds. by rewrite Hr, Hc. Qed.

Lemma same_grid_is_wall s o c : same_grid s o -> is_wall o c <-> is_wall s c.
Proof. intros (_ & _ & Hg & _). unfold is_wall, cell_value. by rewrite Hg. Qed.

Lemma same_grid_well_formed s o : same_grid s o -> well_formed s -> well_formed o.
Proof.
  intros (Hr & Hc & Hg & Hs & He). unfold well_formed, grid_shape, in_bounds.
  by rewrite Hr, Hc, Hg, Hs, He.
Qed.

(** An object the loop can work on: the grid meets the invariant of the
    data model and is large enough for [create_maze], the explored nodes
    are cells of the grid, and the animation step is at most one past
    their number. *)
Definition playable (self : visualizer) : Prop :=
  well_formed self /\ ~ is_wall self (start self) /\
  13 <= rows self /\ 16 <= cols self /\
  Forall (in_bounds self) (explored_nodes self) /\
  0 <= animation_step self <= Z.of_nat (length (explored_nodes self)) + 1.

(** The fields no turn of the loop changes. *)
Definition same_frame (self self' : visualizer) : Prop :=
  rows self' = rows self /\ cols self' = cols self /\
  start self' = start self /\ end_ self' = end_ self.

Section LoopInvariant.
Context `{PQ : PriorityQueue}.

Lemma run_algorithm_explored self alg :
  well_formed self -> ~ is_wall self (start self) ->
  exists self', run_algorithm alg self = Ok (tt, self') /\
    same_grid self self' /\ animation_step self' = 0 /\
    Forall (in_bounds self) (explored_nodes self').
Proof.
  intros Hwf Hwall. unfold run_algorithm, mbind, reset_animation, modify.
  set (s0 := Visualizer (rows self) (cols self) (grid self) (start self)
               (end_ self) [] [] 0).
  assert (well_formed s0) as (Hshape & Hin & _) by exact Hwf.
  assert (~ is_wall s0 (start s0)) as Hwall0 by exact Hwall.
  destruct (find_path_trace s0 alg Hshape (conj Hin Hwall0)) as (st & I & Htrace).
  assert (Forall (in_bounds self) (explored st)) as Hex.
  { apply Forall_forall. intros c Hc.
    by apply (ic_explored _ _ _ _ _ I) in Hc as (_ & [? _] & _). }
  destruct Htrace as [(_ & ->)|(_ & l & -> & _)].
  - exists s0. by repeat split.
  - destruct (reverse l) as [|c l']; eexists; by repeat split.
Qed.

Lemma handle_event_playable ev self :
  playable self -> ev <> QUIT ->
  exists self', handle_event ev self = Returns tt self' /\
    playable self' /\ same_frame self self'.
Proof.
  intros Hplay Hev. pose proof Hplay as (Hwf & Hwall & Hr & Hc & Hex & Hstep).
  assert (forall alg, exists self',
            call (run_algorithm alg) self = Returns tt self' /\
            playable self' /\ same_frame self self') as Halg.
  { intros alg.
    destruct (run_algorithm_explored self alg Hwf Hwall)
      as (self' & Hrun & Hsame & Hstep' & Hex').
    exists self'. unfold call. rewrite Hrun. split; [done|].
    pose proof Hsame as (Hr' & Hc' & _ & Hs' & He').
    split; [|by repeat split].
    split; [by eapply same_grid_well_formed|].
    split; [rewrite Hs'; by rewrite (same_grid_is_wall self self')|].
    split; [lia|]. split; [lia|]. split.
    - eapply Forall_impl; [exact Hex'|]. intros c ?.
      by apply (same_grid_in_bounds self self').
    - lia. }
  destruct ev as [|[| | | |]|]; cbn [handle_event].
  - done.
  - apply Halg.
  - apply Halg.
  - apply Halg.
  - destruct Hwf as (_ & Hs & He).
    destruct (create_maze_spec self Hr Hc Hs He)
      as (s1 & Hrun & (Hr1 & Hc1 & Hs1 & He1 & _) & Hwf1 & _ & Hw1 & _).
    unfold call, mbind, reset_animation, modify. rewrite Hrun.
    eexists. split; [done|]. split; [|by repeat split].
    split; [exact Hwf1|]. split; [exact Hw1|]. simpl.
    split; [lia|]. split; [lia|]. split; [done|lia].
  - exists self. split; [done|]. split; [exact Hplay|]. by repeat split.
  - exists self. split; [done|]. split; [exact Hplay|]. by repeat split.
Qed.

Lemma handle_events_playable events self :
  playable self ->
  (QUIT ∈ events -> handle_events events self = Raises SystemExit) /\
  (QUIT ∉ events ->
   exists self', handle_events events self = Returns tt self' /\
     playable self' /\ same_frame self self').
Proof.
  revert self. induction events as [|ev events IH]; intros self Hplay.
  { split; [by intros ?%elem_of_nil|]. intros _.
    exists self. split; [done|]. split; [exact Hplay|]. by repeat split. }
  cbn [handle_events]. destruct (decide (ev = QUIT)) as [->|Hev].
  { split; [done|]. intros Hnot. destruct Hnot. by left. }
  destruct (handle_event_playable ev self Hplay Hev) as (s1 & -> & Hplay1 & Hf1).
  destruct (IH s1 Hplay1) as [Hquit Hrest]. split.
  - intros [?|Hin]%elem_of_cons; [done|]. by apply Hquit.
  - intros Hnot. destruct Hrest as (s2 & Hrun2 & Hplay2 & Hf2).
    { intros Hin. apply Hnot. by right. }
    exists s2. split; [done|]. split; [done|].
    destruct Hf1 as (?&?&?&?), Hf2 as (?&?&?&?). repeat split; congruence.
Qed.

Lemma animate_playable current_time last_update self :
  playable self ->
  exists r self', animate current_time last_update self = Ok (r, self') /\
    playable self' /\ same_frame self self'.
Proof.
  intros Hplay. unfold animate.
  unfold mbind at 1. unfold gets at 1. unfold mbind at 1. unfold gets at 1.
  pose proof Hplay as (Hwf & Hwall & Hr & Hc & Hex & Hstep).
  destruct (decide (animation_speed < current_time - last_update /\
                    animation_step self < Z.of_nat (length (explored_nodes self)) + 1))
    as [[_ Hlt]|_].
  - unfold mbind at 2. unfold modify. unfold mbind at 2. unfold mret at 1.
    unfold mbind at 1.
    set (s2 := Visualizer _ _ _ _ _ _ _ _).
    assert (playable s2) as Hplay2.
    { split; [exact Hwf|]. split; [exact Hwall|]. split; [exact Hr|].
      split; [exact Hc|]. split; [exact Hex|]. simpl. lia. }
    destruct (draw_grid_ok s2) as (ops & Hdraw & _); [apply Hwf|exact Hex|].
    unfold mbind. rewrite Hdraw. eexists _, s2. split; [done|]. split; [done|].
    by repeat split.
  - unfold mbind at 1. unfold mret at 1.
    destruct (draw_grid_ok self) as (ops & Hdraw & _); [apply Hwf|exact Hex|].
    unfold mbind. rewrite Hdraw. eexists _, self. split; [done|].
    split; [done|]. by repeat split.
Qed.

End LoopInvariant.

(** X17. On a playable object, whatever the clock reads, a turn of the
    loop of [run] raises [SystemExit] when a [QUIT] event is pending, and
    raises nothing else: without a [QUIT] event it returns and leaves the
    object playable. In particular the animation step stays between 0 and
    one past the number of explored nodes, and the dimensions, [start] and
    [end] never change. *)
Theorem frame_keeps_playable `{PQ : PriorityQueue} (self : visualizer)
    (current_time last_update : Z) (events : list event) :
  playable self ->
  (QUIT ∈ events ->
   frame current_time events last_update self = Raises SystemExit) /\
  (QUIT ∉ events ->
   exists r self',
     frame current_time events last_update self = Returns r self' /\
     playable self' /\ same_frame self self').
Proof.
  intros Hplay. unfold frame.
  destruct (handle_events_playable events self Hplay) as [Hquit Hrest]. split.
  - intros Hin. by rewrite (Hquit Hin).
  - intros Hnot. destruct (Hrest Hnot) as (s1 & -> & Hplay1 & Hf1).
    destruct (animate_playable current_time last_update s1 Hplay1)
      as (r & s2 & Hrun & Hplay2 & Hf2).
    exists r, s2. unfold call. rewrite Hrun. split; [done|]. split; [done|].
    destruct Hf1 as (?&?&?&?), Hf2 as (?&?&?&?). repeat split; congruence.
Qed.

Lemma frame_keeps_playable_witness :
  playable default_maze /\
  frame (PQ := stack_pq) 100 [KEYDOWN K_a; QUIT; KEYDOWN K_r] 0 default_maze
    = Raises SystemExit /\
  exists r self',
    frame (PQ := stack_pq) 100 [KEYDOWN K_a; OTHER; KEYDOWN K_r; KEYDOWN K_g] 0
      default_maze = Returns r self' /\
    playable self'.
Proof.
  assert (playable default_maze) as Hplay.
  { split; [apply (bool_decide_unpack _); vm_compute; exact I|].
    split; [apply (bool_decide_unpack _); vm_compute; exact I|].
    split; [vm_compute; discriminate|]. split; [vm_compute; discriminate|].
    split; [vm_compute; constructor|]. vm_compute. split; discriminate. }
  split; [exact Hplay|]. split.
  - apply (proj1 (frame_keeps_playable (PQ := stack_pq) default_maze 100 0
                    [KEYDOWN K_a; QUIT; KEYDOWN K_r] Hplay)).
    apply (bool_decide_unpack _). vm_compute. exact I.
  - destruct (proj2 (frame_keeps_playable (PQ := stack_pq) default_maze 100 0
                       [KEYDOWN K_a; OTHER; KEYDOWN K_r; KEYDOWN K_g] Hplay))
      as (r & self' & Hrun & Hplay' & _).
    { apply (bool_decide_unpack _). vm_compute. exact I. }
    exists r, self'. split; [exact Hrun | exact Hplay'].
Defined.

(** X18. On an object whose grid is rectangular and whose explored nodes
    are cells of the grid, [draw_grid] returns without raising and without
    writing the object. It draws the path only once the animation step has
    reached the number of explored nodes, and then draws one line per pair
    of consecutive path cells, centre to centre; if those cells are
    4-adjacent every line is horizontal or vertical and one cell long. *)
Theorem draw_grid_path (self : visualizer) :
  grid_shape self -> Forall (in_bounds self) (explored_nodes self) ->
  exists ops,
    draw_grid self = Ok (ops, self) /\
    (animation_step self < Z.of_nat (length (explored_nodes self)) ->
     filter is_line ops = []) /\
    (Z.of_nat (length (explored_nodes self)) <= animation_step self ->
     filter is_line ops = path_lines (path self) /\
     length (filter is_line ops) = (length (path self) - 1)%nat /\
     ((forall (i : nat) a b, path self !! i = Some a -> path self !! S i = Some b ->
         adjacent4 a b) ->
      forall op, op ∈ filter is_line ops ->
        exists x1 y1 x2 y2, op = Line blue x1 y1 x2 y2 3 /\
          ((x1 = x2 /\ Z.abs (y1 - y2) = cell_size) \/
           (y1 = y2 /\ Z.abs (x1 - x2) = cell_size)))).
Proof.
  intros Hshape Hex. destruct (draw_grid_ok self Hshape Hex) as (ops & Hrun & Hl).
  exists ops. split; [done|]. split.
  - intros Hlt. by rewrite Hl, decide_False by lia.
  - intros Hge. rewrite Hl, decide_True by lia.
    split; [done|]. split; [apply path_lines_length|].
    intros Hadj op Hop. apply list_elem_of_lookup in Hop as [k Hk].
    assert (k < length (path self) - 1)%nat as Hlt.
    { rewrite <- path_lines_length. by eapply lookup_lt_Some. }
    destruct (lookup_lt_is_Some_2 (path self) k) as [a Ha]; [lia|].
    destruct (lookup_lt_is_Some_2 (path self) (S k)) as [b Hb]; [lia|].
    rewrite (path_lines_lookup _ _ _ _ Ha Hb) in Hk. injection Hk as <-.
    eexists _, _, _, _. split; [done|].
    specialize (Hadj k a b Ha Hb). unfold adjacent4, cell_size in *.
    destruct a as [ar ac], b as [br bc]; simpl in *. lia.
Qed.

Lemma draw_grid_path_witness :
  let self := Visualizer 2 2 [[2; 0]; [1; 3]] (0, 0) (1, 1)
                [(0, 0); (0, 1); (1, 1)] [(0, 0); (0, 1); (1, 1)] 3 in
  grid_shape self /\ Forall (in_bounds self) (explored_nodes self) /\
  exists ops, draw_grid self = Ok (ops, self).
Proof.
  intros self.
  assert (grid_shape self) as Hs by (apply (bool_decide_unpack _); vm_compute; exact I).
  assert (Forall (in_bounds self) (explored_nodes self)) as Hex
    by (apply (bool_decide_unpack _); vm_compute; exact I).
  split; [exact Hs|]. split; [exact Hex|].
  destruct (draw_grid_path self Hs Hex) as (ops & Hrun & _).
  exists ops. exact Hrun.
Defined.
